(** * Infinite streaming speech recognition: the session-bridging logic

    A shallow embedding of [transcribe_streaming_infinite.py]: the resumable
    microphone stream ([ResumableMicrophoneStream.generator]), the result
    loop ([listen_print_loop]) and the restart loop of [main], followed by
    the properties of the bridging arithmetic, of the timeline
    reconciliation and of the restart bookkeeping, and then by properties
    of the program as a whole: the fields each side writes, the order of
    the lines over a run, what is sent and what is recorded, and the
    absence of exceptions.

    Python integers are [Z].  Python floats are the finite binary64 numbers,
    represented by their exact rational value in [Q]; every float operation
    rounds its exact result to the nearest binary64 number, ties to even
    ([b64]).  Exceptions are explicit ([exc]). *)

From Stdlib Require Import ZArith QArith Qround Qabs Qpower Lia Lqa.
From Stdlib Require Import String Ascii Bool List Sorted.
Import ListNotations.

Open Scope Z_scope.

(* ================================================================== *)
(** * Binary64 arithmetic *)
(* ================================================================== *)

Module Float64.

(** [mag x] is the binary exponent of [x]: [2^(mag x) <= |x| < 2^(mag x + 1)]
    for [x <> 0]. *)
Definition mag (x : Q) : Z :=
  let d := Z.log2 (Z.abs (Qnum x)) - Z.log2 (Zpos (Qden x)) in
  if Qle_bool (2 ^ d) (Qabs x) then d else d - 1.

(** Round half to even, to an integer.  This is also what Python's
    one-argument [round] does on a float. *)
Definition RNE (x : Q) : Z :=
  let f := Qfloor x in
  match Qcompare (x - inject_Z f) (1 # 2) with
  | Lt => f
  | Gt => f + 1
  | Eq => if Z.even f then f else f + 1
  end.

(** Exponent of the unit in the last place of the binary64 format around
    [x]: 53 significant bits, and no exponent below that of the
    subnormal numbers. *)
Definition ulp_exp (x : Q) : Z := Z.max (mag x - 52) (-1074).

(** The binary64 number nearest to [x], ties to even. *)
Definition b64 (x : Q) : Q :=
  let s := ulp_exp x in (inject_Z (RNE (x / 2 ^ s)) * 2 ^ s)%Q.

(** Binary64 has no finite number of magnitude [2^1024] or more. *)
Definition is_finite (x : Q) : bool := negb (Qle_bool (2 ^ 1024) (Qabs x)).

(** Unit roundoff. *)
Definition u : Q := 1 # 9007199254740992.

End Float64.

(* ================================================================== *)
(** * Python values and exceptions *)
(* ================================================================== *)

Inductive exn : Type :=
  | ZeroDivisionError
  | OverflowError
  | IndexError
  | TypeError.

Inductive exc (A : Type) : Type :=
  | Val (a : A)
  | Raise (e : exn).

Arguments Val {A} a.
Arguments Raise {A} e.

Definition bind {A B : Type} (m : exc A) (k : A -> exc B) : exc B :=
  match m with
  | Val a => k a
  | Raise e => Raise e
  end.

Notation "x <- m ;; k" := (bind m (fun x => k))
  (at level 61, m at next level, right associativity).
Notation "' p <- m ;; k" := (bind m (fun x => let p := x in k))
  (at level 61, p pattern, m at next level, right associativity).

Module Py.

Import Float64.

(** The float nearest to an exact value.  A result too large for binary64
    is an infinity in Python; each float computed by this program goes
    straight into [round] or [int], which raise [OverflowError] on an
    infinity, so the exception is reported where the infinity arises. *)
Definition to_float (x : Q) : exc Q :=
  let r := b64 x in
  if is_finite r then Val r else Raise OverflowError.

(** [float(z)], the implicit conversion of an [int] operand. *)
Definition int_to_float (z : Z) : exc Q := to_float (inject_Z z).

(** [a / b] on two [int]s: the correctly rounded quotient. *)
Definition int_truediv (a b : Z) : exc Q :=
  if b =? 0 then Raise ZeroDivisionError
  else to_float (inject_Z a / inject_Z b).

(** [x / y] on two floats. *)
Definition float_div (x y : Q) : exc Q :=
  if Qeq_bool y 0 then Raise ZeroDivisionError else to_float (x / y).

Definition float_mul (x y : Q) : exc Q := to_float (x * y).

Definition float_add (x y : Q) : exc Q := to_float (x + y).

(** [round(x)] on a float: an [int], halves to even. *)
Definition round (x : Q) : Z := RNE x.

(** [int(x)] on a float: truncation toward zero. *)
Definition int (x : Q) : Z :=
  if Qle_bool 0 x then Qfloor x else Qceiling x.

(** [range(a, b)]. *)
Definition range (a b : Z) : list Z :=
  map (fun k => a + Z.of_nat k) (seq 0 (Z.to_nat (b - a))).

(** [l[i]], negative indices counting from the end. *)
Definition getitem {A : Type} (l : list A) (i : Z) : exc A :=
  let n := Z.of_nat (length l) in
  let j := if i <? 0 then i + n else i in
  if (0 <=? j) && (j <? n) then
    match nth_error l (Z.to_nat j) with
    | Some a => Val a
    | None => Raise IndexError
    end
  else Raise IndexError.

(** [for i in idx: acc.append(l[i])]. *)
Fixpoint gather {A : Type} (l : list A) (idx : list Z) (acc : list A)
  : exc (list A) :=
  match idx with
  | [] => Val acc
  | i :: idx' => a <- getitem l i ;; gather l idx' (acc ++ [a])
  end.

End Py.

(* ================================================================== *)
(** * The stop words: [re.search(r'\b(exit|quit)\b', transcript, re.I)] *)
(* ================================================================== *)

Module Regex.

(** Characters are the code points below 256.  [\w] on a [str] pattern:
    letters, digits and the underscore, with the letters and digits of the
    upper half of Latin-1. *)
Definition is_word (c : ascii) : bool :=
  let n := Z.of_N (N_of_ascii c) in
  ((48 <=? n) && (n <=? 57)) || ((65 <=? n) && (n <=? 90))
  || (n =? 95) || ((97 <=? n) && (n <=? 122))
  || (n =? 170) || (n =? 178) || (n =? 179) || (n =? 181)
  || (n =? 185) || (n =? 186) || ((188 <=? n) && (n <=? 190))
  || ((192 <=? n) && (n <=? 214)) || ((216 <=? n) && (n <=? 246))
  || ((248 <=? n) && (n <=? 255)).

Definition is_word_opt (c : option ascii) : bool :=
  match c with
  | Some a => is_word a
  | None => false
  end.

(** [\b] between the character before a position and the one at it; the
    ends of the text count as non-word characters. *)
Definition boundary (before after : option ascii) : bool :=
  xorb (is_word_opt before) (is_word_opt after).

(** ASCII lower case; no other character below 256 matches a letter of the
    two words under [re.I]. *)
Definition lower (c : ascii) : ascii :=
  let n := N_of_ascii c in
  if ((65 <=? n) && (n <=? 90))%N then ascii_of_N (n + 32) else c.

(** Match the literal [w] at the head of [cs], ignoring case; on success
    give the last character consumed and the rest of the text. *)
Fixpoint literal (w cs : list ascii) (last : option ascii)
  : option (option ascii * list ascii) :=
  match w with
  | [] => Some (last, cs)
  | a :: w' =>
      match cs with
      | [] => None
      | c :: cs' =>
          if Ascii.eqb (lower c) a then literal w' cs' (Some c) else None
      end
  end.

Definition word_here (w : list ascii) (before : option ascii)
  (cs : list ascii) : bool :=
  boundary before (hd_error cs) &&
  match literal w cs before with
  | Some (last, rest) => boundary last (hd_error rest)
  | None => false
  end.

Definition exit_word : list ascii := list_ascii_of_string "exit".
Definition quit_word : list ascii := list_ascii_of_string "quit".

(** The pattern tried at one position. *)
Definition match_here (before : option ascii) (cs : list ascii) : bool :=
  word_here exit_word before cs || word_here quit_word before cs.

(** [re.search]: the pattern tried at every position, left to right. *)
Fixpoint search_from (before : option ascii) (cs : list ascii) : bool :=
  match_here before cs ||
  match cs with
  | [] => false
  | c :: cs' => search_from (Some c) cs'
  end.

Definition stop_keyword (transcript : string) : bool :=
  search_from None (list_ascii_of_string transcript).

End Regex.

(* ================================================================== *)
(** * Data model *)
(* ================================================================== *)

(** Module constants [STREAMING_LIMIT] and [WORKAROUND_WINDOW]. *)
Record config : Type := {
  STREAMING_LIMIT : Z;
  WORKAROUND_WINDOW : Z
}.

Definition defaults : config :=
  {| STREAMING_LIMIT := 10000; WORKAROUND_WINDOW := 200 |}.

(** An audio chunk taken from the queue; [None] is the end-of-stream
    marker that [__exit__] puts there. *)
Definition bytes : Type := list Byte.byte.
Definition chunk : Type := option bytes.

(** The fields of [ResumableMicrophoneStream] that the session logic
    reads or writes.  The queue [_buff] is filled by the audio callback
    and appears as the input of each pass of the generator. *)
Record stream : Type := {
  _closed : bool;
  _start_time : Z;
  _restart_counter : Z;
  _audio_input : list chunk;
  _last_audio_input : list chunk;
  _result_end_time : Z;
  _is_final_end_time : Z;
  _final_request_end_time : Z;
  _bridging_offset : Z;
  _last_transcript_was_final : bool;
  _new_stream : bool
}.

Definition set_closed (v : bool) (s : stream) : stream :=
  {| _closed := v; _start_time := _start_time s;
     _restart_counter := _restart_counter s;
     _audio_input := _audio_input s;
     _last_audio_input := _last_audio_input s;
     _result_end_time := _result_end_time s;
     _is_final_end_time := _is_final_end_time s;
     _final_request_end_time := _final_request_end_time s;
     _bridging_offset := _bridging_offset s;
     _last_transcript_was_final := _last_transcript_was_final s;
     _new_stream := _new_stream s |}.

Definition set_start_time (v : Z) (s : stream) : stream :=
  {| _closed := _closed s; _start_time := v;
     _restart_counter := _restart_counter s;
     _audio_input := _audio_input s;
     _last_audio_input := _last_audio_input s;
     _result_end_time := _result_end_time s;
     _is_final_end_time := _is_final_end_time s;
     _final_request_end_time := _final_request_end_time s;
     _bridging_offset := _bridging_offset s;
     _last_transcript_was_final := _last_transcript_was_final s;
     _new_stream := _new_stream s |}.

Definition set_restart_counter (v : Z) (s : stream) : stream :=
  {| _closed := _closed s; _start_time := _start_time s;
     _restart_counter := v;
     _audio_input := _audio_input s;
     _last_audio_input := _last_audio_input s;
     _result_end_time := _result_end_time s;
     _is_final_end_time := _is_final_end_time s;
     _final_request_end_time := _final_request_end_time s;
     _bridging_offset := _bridging_offset s;
     _last_transcript_was_final := _last_transcript_was_final s;
     _new_stream := _new_stream s |}.

Definition set_audio_input (v : list chunk) (s : stream) : stream :=
  {| _closed := _closed s; _start_time := _start_time s;
     _restart_counter := _restart_counter s;
     _audio_input := v;
     _last_audio_input := _last_audio_input s;
     _result_end_time := _result_end_time s;
     _is_final_end_time := _is_final_end_time s;
     _final_request_end_time := _final_request_end_time s;
     _bridging_offset := _bridging_offset s;
     _last_transcript_was_final := _last_transcript_was_final s;
     _new_stream := _new_stream s |}.

Definition set_last_audio_input (v : list chunk) (s : stream) : stream :=
  {| _closed := _closed s; _start_time := _start_time s;
     _restart_counter := _restart_counter s;
     _audio_input := _audio_input s;
     _last_audio_input := v;
     _result_end_time := _result_end_time s;
     _is_final_end_time := _is_final_end_time s;
     _final_request_end_time := _final_request_end_time s;
     _bridging_offset := _bridging_offset s;
     _last_transcript_was_final := _last_transcript_was_final s;
     _new_stream := _new_stream s |}.

Definition set_result_end_time (v : Z) (s : stream) : stream :=
  {| _closed := _closed s; _start_time := _start_time s;
     _restart_counter := _restart_counter s;
     _audio_input := _audio_input s;
     _last_audio_input := _last_audio_input s;
     _result_end_time := v;
     _is_final_end_time := _is_final_end_time s;
     _final_request_end_time := _final_request_end_time s;
     _bridging_offset := _bridging_offset s;
     _last_transcript_was_final := _last_transcript_was_final s;
     _new_stream := _new_stream s |}.

Definition set_is_final_end_time (v : Z) (s : stream) : stream :=
  {| _closed := _closed s; _start_time := _start_time s;
     _restart_counter := _restart_counter s;
     _audio_input := _audio_input s;
     _last_audio_input := _last_audio_input s;
     _result_end_time := _result_end_time s;
     _is_final_end_time := v;
     _final_request_end_time := _final_request_end_time s;
     _bridging_offset := _bridging_offset s;
     _last_transcript_was_final := _last_transcript_was_final s;
     _new_stream := _new_stream s |}.

Definition set_final_request_end_time (v : Z) (s : stream) : stream :=
  {| _closed := _closed s; _start_time := _start_time s;
     _restart_counter := _restart_counter s;
     _audio_input := _audio_input s;
     _last_audio_input := _last_audio_input s;
     _result_end_time := _result_end_time s;
     _is_final_end_time := _is_final_end_time s;
     _final_request_end_time := v;
     _bridging_offset := _bridging_offset s;
     _last_transcript_was_final := _last_transcript_was_final s;
     _new_stream := _new_stream s |}.

Definition set_bridging_offset (v : Z) (s : stream) : stream :=
  {| _closed := _closed s; _start_time := _start_time s;
     _restart_counter := _restart_counter s;
     _audio_input := _audio_input s;
     _last_audio_input := _last_audio_input s;
     _result_end_time := _result_end_time s;
     _is_final_end_time := _is_final_end_time s;
     _final_request_end_time := _final_request_end_time s;
     _bridging_offset := v;
     _last_transcript_was_final := _last_transcript_was_final s;
     _new_stream := _new_stream s |}.

Definition set_last_transcript_was_final (v : bool) (s : stream) : stream :=
  {| _closed := _closed s; _start_time := _start_time s;
     _restart_counter := _restart_counter s;
     _audio_input := _audio_input s;
     _last_audio_input := _last_audio_input s;
     _result_end_time := _result_end_time s;
     _is_final_end_time := _is_final_end_time s;
     _final_request_end_time := _final_request_end_time s;
     _bridging_offset := _bridging_offset s;
     _last_transcript_was_final := v;
     _new_stream := _new_stream s |}.

Definition set_new_stream (v : bool) (s : stream) : stream :=
  {| _closed := _closed s; _start_time := _start_time s;
     _restart_counter := _restart_counter s;
     _audio_input := _audio_input s;
     _last_audio_input := _last_audio_input s;
     _result_end_time := _result_end_time s;
     _is_final_end_time := _is_final_end_time s;
     _final_request_end_time := _final_request_end_time s;
     _bridging_offset := _bridging_offset s;
     _last_transcript_was_final := _last_transcript_was_final s;
     _new_stream := v |}.

(** [ResumableMicrophoneStream.__init__], with the clock reading it takes. *)
Definition init (now : Z) : stream :=
  {| _closed := true; _start_time := now; _restart_counter := 0;
     _audio_input := []; _last_audio_input := [];
     _result_end_time := 0; _is_final_end_time := 0;
     _final_request_end_time := 0; _bridging_offset := 0;
     _last_transcript_was_final := false; _new_stream := true |}.

(** [__enter__], as far as the session state goes. *)
Definition enter (s : stream) : stream := set_closed false s.

(** What the recognition client returns. *)
Record Duration : Type := { seconds : Z; nanos : Z }.

Record SpeechRecognitionAlternative : Type := { transcript : string }.

Record StreamingRecognitionResult : Type := {
  alternatives : list SpeechRecognitionAlternative;
  is_final : bool;
  result_end_time : Duration
}.

Record StreamingRecognizeResponse : Type := {
  results : list StreamingRecognitionResult
}.

(** What is written to the terminal.  Each constructor stands for the
    colour code and the text written with it; the number and the
    transcript of a line are kept apart. *)
Inductive event : Type :=
  | NewRequest (t : Z)
  | FinalLine (corrected_time : Z) (text : string)
  | InterimLine (corrected_time : Z) (text : string)
  | Exiting
  | Newline.

(* ================================================================== *)
(** * [listen_print_loop] *)
(* ================================================================== *)

(** [int((result_seconds * 1000) + (result_nanos / 1000000))]. *)
Definition end_time_ms (result_seconds result_nanos : Z) : exc Z :=
  q <- Py.int_truediv result_nanos 1000000 ;;
  f <- Py.int_to_float (result_seconds * 1000) ;;
  r <- Py.float_add f q ;;
  Val (Py.int r).

(** The end time of a result in milliseconds; a field that is zero is
    falsy and leaves the local at its initial zero. *)
Definition in_session_end_ms (result : StreamingRecognitionResult) : exc Z :=
  let result_seconds :=
    if seconds (result_end_time result) =? 0 then 0
    else seconds (result_end_time result) in
  let result_nanos :=
    if nanos (result_end_time result) =? 0 then 0
    else nanos (result_end_time result) in
  end_time_ms result_seconds result_nanos.

Inductive flow : Type := Continue | Break.

(** The body of [for response in responses]. *)
Definition handle_response (c : config) (response : StreamingRecognizeResponse)
  (s : stream) : exc (stream * list event * flow) :=
  match results response with
  | [] => Val (s, [], Continue)
  | result :: _ =>
      match alternatives result with
      | [] => Val (s, [], Continue)
      | alt :: _ =>
          t <- in_session_end_ms result ;;
          let s := set_result_end_time t s in
          let corrected_time :=
            _result_end_time s - _bridging_offset s
            + STREAMING_LIMIT c * _restart_counter s in
          if is_final result then
            if _result_end_time s <? STREAMING_LIMIT c - WORKAROUND_WINDOW c
            then
              let out := [FinalLine corrected_time (transcript alt)] in
              let s := set_is_final_end_time (_result_end_time s) s in
              let s := set_last_transcript_was_final true s in
              if Regex.stop_keyword (transcript alt) then
                Val (set_closed true s, out ++ [Exiting], Break)
              else Val (s, out, Continue)
            else Val (s, [], Continue)
          else
            Val (set_last_transcript_was_final false s,
                 [InterimLine corrected_time (transcript alt)], Continue)
      end
  end.

Fixpoint listen_print_loop (c : config)
  (responses : list StreamingRecognizeResponse) (s : stream)
  : exc (stream * list event) :=
  match responses with
  | [] => Val (s, [])
  | response :: rest =>
      '(s1, out1, fl) <- handle_response c response s ;;
      match fl with
      | Break => Val (s1, out1)
      | Continue =>
          '(s2, out2) <- listen_print_loop c rest s1 ;;
          Val (s2, out1 ++ out2)
      end
  end.

(* ================================================================== *)
(** * [ResumableMicrophoneStream.generator] *)
(* ================================================================== *)

(** The two steps that keep [_bridging_offset] between zero and
    [_final_request_end_time]. *)
Definition clamp_bridging_offset (s : stream) : stream :=
  let s := if _bridging_offset s <? 0 then set_bridging_offset 0 s else s in
  if _bridging_offset s >? _final_request_end_time s
  then set_bridging_offset (_final_request_end_time s) s
  else s.

(** The block guarded by [chunkTime != 0]: clamp, compute the first chunk to
    replay and the next offset, and collect the chunks. *)
Definition replay (chunkTime : Q) (s : stream) (data : list chunk)
  : exc (stream * list chunk) :=
  let s := clamp_bridging_offset s in
  let len := Z.of_nat (length (_last_audio_input s)) in
  x <- Py.int_to_float (_final_request_end_time s - _bridging_offset s) ;;
  q <- Py.float_div x chunkTime ;;
  let chunksFromMS := Py.round q in
  k <- Py.int_to_float (len - chunksFromMS) ;;
  p <- Py.float_mul k chunkTime ;;
  let s := set_bridging_offset (Py.round p) s in
  data <- Py.gather (_last_audio_input s) (Py.range chunksFromMS len) data ;;
  Val (s, data).

(** The block guarded by [self._new_stream and len(self._last_audio_input)
    != 0], run on the empty [data] of a pass. *)
Definition bridge (c : config) (s : stream) : exc (stream * list chunk) :=
  if _new_stream s && negb (Z.of_nat (length (_last_audio_input s)) =? 0)
  then
    chunkTime <-
      Py.int_truediv (STREAMING_LIMIT c)
        (Z.of_nat (length (_last_audio_input s))) ;;
    '(s, data) <-
      (if negb (Qeq_bool chunkTime 0) then replay chunkTime s []
       else Val (s, [])) ;;
    Val (set_new_stream false s, data)
  else Val (s, []).

(** What one pass of [while not self._closed] meets: the clock at the
    limit test, the clock read again when the limit is hit, the item the
    blocking [get] returns and the items the non-blocking [get]s return
    before the queue is empty. *)
Record tick : Type := {
  now : Z;
  now_again : Z;
  first : chunk;
  buffered : list chunk
}.

(** The inner [while True]: the extended [data] and [_audio_input], and
    whether the end marker was met (the generator returns) rather than the
    queue found empty. *)
Fixpoint drain (items : list chunk) (data hist : list chunk)
  : list chunk * list chunk * bool :=
  match items with
  | [] => (data, hist, false)
  | None :: _ => (data, hist, true)
  | Some b :: rest => drain rest (data ++ [Some b]) (hist ++ [Some b])
  end.

(** [b''.join(data)] accepts byte strings only.  The pieces are kept as a
    list; the value yielded is their concatenation. *)
Fixpoint pieces (data : list chunk) : exc (list bytes) :=
  match data with
  | [] => Val []
  | None :: _ => Raise TypeError
  | Some b :: rest => bs <- pieces rest ;; Val (b :: bs)
  end.

Definition join (data : list bytes) : bytes := concat data.

Inductive outcome : Type :=
  | Closed (s : stream)
  | LimitReached (s : stream)
  | EndOfStream (s : stream)
  | Yield (data : list bytes) (s : stream).

(** One pass of the outer loop, up to the [yield]. *)
Definition generator_pass (c : config) (t : tick) (s : stream) : exc outcome :=
  if _closed s then Val (Closed s)
  else if now t - _start_time s >? STREAMING_LIMIT c
  then Val (LimitReached (set_start_time (now_again t) s))
  else
    '(s, data) <- bridge c s ;;
    let s := set_audio_input (_audio_input s ++ [first t]) s in
    match first t with
    | None => Val (EndOfStream s)
    | Some b =>
        let '(data, hist, ended) :=
          drain (buffered t) (data ++ [Some b]) (_audio_input s) in
        let s := set_audio_input hist s in
        if ended then Val (EndOfStream s)
        else bs <- pieces data ;; Val (Yield bs s)
    end.

(** The generator driven over the passes its consumer asks for: the
    sequence of yielded values (as lists of pieces) and the state left. *)
Fixpoint generator (c : config) (ts : list tick) (s : stream)
  : exc (list (list bytes) * stream) :=
  match ts with
  | [] => Val ([], s)
  | t :: ts' =>
      o <- generator_pass c t s ;;
      match o with
      | Yield data s' =>
          '(ys, s'') <- generator c ts' s' ;;
          Val (data :: ys, s'')
      | Closed s' | LimitReached s' | EndOfStream s' => Val ([], s')
      end
  end.

(* ================================================================== *)
(** * [main] *)
(* ================================================================== *)

(** The end of the body of [while not stream._closed], after
    [listen_print_loop] has returned. *)
Definition restart (s : stream) : stream * list event :=
  let s :=
    if _result_end_time s >? 0
    then set_final_request_end_time (_is_final_end_time s) s
    else s in
  let s := set_result_end_time 0 s in
  let s := set_last_audio_input [] s in
  let s := set_last_audio_input (_audio_input s) s in
  let s := set_audio_input [] s in
  let s := set_restart_counter (_restart_counter s + 1) s in
  let out := if negb (_last_transcript_was_final s) then [Newline] else [] in
  (set_new_stream true s, out).

(** One sub-session as the environment drives it: the passes of the
    request generator and the responses of the backend.  The client pulls
    the requests on its own thread while [listen_print_loop] runs; the two
    write disjoint fields, and the one value that flows from the generator
    to the loop, [_bridging_offset], is written in the first pass, before
    the backend has audio to answer.  The passes are therefore run first. *)
Record sub_session : Type := {
  ticks : list tick;
  responses : list StreamingRecognizeResponse
}.

Definition session_body (c : config) (i : sub_session) (s : stream)
  : exc (stream * list event) :=
  let out0 := [NewRequest (STREAMING_LIMIT c * _restart_counter s)] in
  let s := set_audio_input [] s in
  '(_, s) <- generator c (ticks i) s ;;
  '(s, out1) <- listen_print_loop c (responses i) s ;;
  let '(s, out2) := restart s in
  Val (s, out0 ++ out1 ++ out2).

(** [while not stream._closed], over the sub-sessions the run goes
    through. *)
Fixpoint main_loop (c : config) (run : list sub_session) (s : stream)
  : exc (stream * list event) :=
  match run with
  | [] => Val (s, [])
  | i :: rest =>
      if _closed s then Val (s, [])
      else
        '(s1, out1) <- session_body c i s ;;
        '(s2, out2) <- main_loop c rest s1 ;;
        Val (s2, out1 ++ out2)
  end.

(** [main] from the construction of the stream on. *)
Definition main (c : config) (start : Z) (run : list sub_session)
  : exc (stream * list event) :=
  main_loop c run (enter (init start)).

(* ================================================================== *)
(** * Vocabulary of the properties *)
(* ================================================================== *)

(** The number printed in front of a transcript line. *)
Definition line_time (e : event) : option Z :=
  match e with
  | FinalLine g _ | InterimLine g _ => Some g
  | _ => None
  end.

(** The numbers of the final lines of an output, in the order written. *)
Fixpoint final_times (out : list event) : list Z :=
  match out with
  | [] => []
  | FinalLine g _ :: rest => g :: final_times rest
  | _ :: rest => final_times rest
  end.

(** [results[0]] and [alternatives[0]] of a response that has both. *)
Definition top (response : StreamingRecognizeResponse)
  : option (StreamingRecognitionResult * SpeechRecognitionAlternative) :=
  match results response with
  | [] => None
  | result :: _ =>
      match alternatives result with
      | [] => None
      | alt :: _ => Some (result, alt)
      end
  end.

(** A response built from one result with one alternative. *)
Definition single (final : bool) (secs nsecs : Z) (text : string)
  : StreamingRecognizeResponse :=
  {| results :=
       [ {| alternatives := [ {| transcript := text |} ];
            is_final := final;
            result_end_time := {| seconds := secs; nanos := nsecs |} |} ] |}.

(** A final result that ends before the workaround window and carries a
    stop word. *)
Definition stops (c : config) (response : StreamingRecognizeResponse) : Prop :=
  exists result alt t,
    top response = Some (result, alt) /\
    is_final result = true /\
    in_session_end_ms result = Val t /\
    t < STREAMING_LIMIT c - WORKAROUND_WINDOW c /\
    Regex.stop_keyword (transcript alt) = true.

(** The replay computation in the words of the specification, with the
    arithmetic of the program's floats. *)
Module Spec.

(** [x] clamped into [[lo, hi]]. *)
Definition clamp (x lo hi : Z) : Z := Z.min (Z.max x lo) hi.

(** [durationLimit / count(previousAudioHistory)]. *)
Definition chunkDurationMs (c : config) (count : Z) : exc Q :=
  Py.int_truediv (STREAMING_LIMIT c) count.

(** [round((finalResultEndTimeMs_prev - bridgingOffsetMs) /
    chunkDurationMs)], the offset clamped first. *)
Definition chunksFromIndex (c : config) (finalResultEndTimeMs
  bridgingOffsetMs count : Z) : exc Z :=
  d <- chunkDurationMs c count ;;
  x <- Py.int_to_float
         (finalResultEndTimeMs
          - clamp bridgingOffsetMs 0 finalResultEndTimeMs) ;;
  q <- Py.float_div x d ;;
  Val (Py.round q).

(** [round((count(previousAudioHistory) - chunksFromIndex) *
    chunkDurationMs)]. *)
Definition newBridgingOffsetMs (c : config) (finalResultEndTimeMs
  bridgingOffsetMs count : Z) : exc Z :=
  d <- chunkDurationMs c count ;;
  i <- chunksFromIndex c finalResultEndTimeMs bridgingOffsetMs count ;;
  k <- Py.int_to_float (count - i) ;;
  p <- Py.float_mul k d ;;
  Val (Py.round p).

(** The chunks from index [i] to the end. *)
Definition replayWindow {A : Type} (i : Z) (previousAudioHistory : list A)
  : list A :=
  skipn (Z.to_nat i) previousAudioHistory.

End Spec.

(** The numbers of the replay computation when nothing raises: the chunk
    duration for limit [L] and [n] chunks, the first chunk replayed for a
    cut [X] milliseconds into the chunks, and the offset left for the next
    restart. *)
Definition chunk_time (L n : Z) : Q :=
  Float64.b64 (inject_Z L / inject_Z n).

Definition chunks_from (L n X : Z) : Z :=
  Float64.RNE (Float64.b64 (Float64.b64 (inject_Z X) / chunk_time L n)).

Definition next_offset (L n X : Z) : Z :=
  Float64.RNE
    (Float64.b64
       (Float64.b64 (inject_Z (n - chunks_from L n X)) * chunk_time L n)).

(** Sizes within which no float of the replay computation overflows or
    underflows: a limit between 1 and [2^62] ms, at most [2^50] chunks in
    the history of a sub-session, an end time of at most [2^62] ms. *)
Definition sizes_ok (c : config) (s : stream) : Prop :=
  1 <= STREAMING_LIMIT c <= 2 ^ 62 /\
  Z.of_nat (length (_last_audio_input s)) <= 2 ^ 50 /\
  _final_request_end_time s <= 2 ^ 62.

(** One pass of the generator with the bridging block left out. *)
Definition plain_pass (c : config) (t : tick) (s : stream) : exc outcome :=
  if _closed s then Val (Closed s)
  else if now t - _start_time s >? STREAMING_LIMIT c
  then Val (LimitReached (set_start_time (now_again t) s))
  else
    let s := set_audio_input (_audio_input s ++ [first t]) s in
    match first t with
    | None => Val (EndOfStream s)
    | Some b =>
        let '(data, hist, ended) :=
          drain (buffered t) [Some b] (_audio_input s) in
        let s := set_audio_input hist s in
        if ended then Val (EndOfStream s)
        else bs <- pieces data ;; Val (Yield bs s)
    end.

(** The numbers of all transcript lines of an output, in the order
    written. *)
Fixpoint line_times (out : list event) : list Z :=
  match out with
  | [] => []
  | e :: rest =>
      match line_time e with
      | Some g => g :: line_times rest
      | None => line_times rest
      end
  end.

(** The numbers of the [NEW REQUEST] headers of an output. *)
Fixpoint request_times (out : list event) : list Z :=
  match out with
  | [] => []
  | NewRequest t :: rest => t :: request_times rest
  | _ :: rest => request_times rest
  end.

(** Whether a response has a result with an alternative. *)
Definition has_top (response : StreamingRecognizeResponse) : bool :=
  match top response with
  | Some _ => true
  | None => false
  end.

(** A response cut down to [results[0]] with [alternatives[0]]. *)
Definition first_only (response : StreamingRecognizeResponse)
  : StreamingRecognizeResponse :=
  match top response with
  | None => {| results := [] |}
  | Some (result, alt) =>
      {| results :=
           [ {| alternatives := [alt];
                is_final := is_final result;
                result_end_time := result_end_time result |} ] |}
  end.

(** The corrected time of an end time [t] in the state [s]. *)
Definition corrected (c : config) (s : stream) (t : Z) : Z :=
  t - _bridging_offset s + STREAMING_LIMIT c * _restart_counter s.

(** The responses that carry a result with an alternative report end times
    that are at least [lo] and never go back. *)
Fixpoint ordered_from (lo : Z) (rs : list StreamingRecognizeResponse) : Prop :=
  match rs with
  | [] => True
  | r :: rest =>
      match top r with
      | None => ordered_from lo rest
      | Some (result, _) =>
          exists t,
            in_session_end_ms result = Val t /\ lo <= t /\ ordered_from t rest
      end
  end.

(** Every final result that ends before the workaround window ends at least
    half a chunk of the previous sub-session plus one millisecond into the
    sub-session ([n] chunks over the limit). *)
Definition finals_clear (c : config) (n : Z)
  (rs : list StreamingRecognizeResponse) : Prop :=
  forall r result alt t,
    In r rs -> top r = Some (result, alt) -> is_final result = true ->
    in_session_end_ms result = Val t ->
    t < STREAMING_LIMIT c - WORKAROUND_WINDOW c ->
    n = 0 \/ STREAMING_LIMIT c <= 2 * n * (t - 1).

(** What a run asks of a sub-session entered in state [s]. *)
Definition well_timed (c : config) (i : sub_session) (s : stream) : Prop :=
  Z.of_nat (length (_last_audio_input s)) <= 2 ^ 50 /\
  ordered_from 1 (responses i) /\
  finals_clear c (Z.of_nat (length (_last_audio_input s))) (responses i).

Fixpoint well_timed_run (c : config) (run : list sub_session) (s : stream)
  : Prop :=
  match run with
  | [] => True
  | i :: rest =>
      _closed s = true \/
      (well_timed c i s /\
       forall s1 out1,
         session_body c i s = Val (s1, out1) -> well_timed_run c rest s1)
  end.

(** What the restart loop keeps true of the state between sub-sessions. *)
Definition between_sessions (c : config) (s : stream) : Prop :=
  0 <= _bridging_offset s <= STREAMING_LIMIT c + 1 /\
  0 <= _final_request_end_time s <= STREAMING_LIMIT c /\
  0 <= _is_final_end_time s <= STREAMING_LIMIT c /\
  _result_end_time s = 0 /\
  _new_stream s = true.

(** The corrected time that no final line written before the sub-session
    entered in [s] exceeds and that every later one reaches. *)
Definition watermark (c : config) (s : stream) : Z :=
  STREAMING_LIMIT c * (_restart_counter s - 1)
  + Z.max (_final_request_end_time s - _bridging_offset s) 0.

(** The offset the bridging block leaves when it runs in state [s]. *)
Definition bridged_offset (c : config) (s : stream) : Z :=
  next_offset (STREAMING_LIMIT c)
    (Z.of_nat (length (_last_audio_input s)))
    (_final_request_end_time s
     - Spec.clamp (_bridging_offset s) 0 (_final_request_end_time s)).

(** The state an outcome of a pass leaves. *)
Definition state_of (o : outcome) : stream :=
  match o with
  | Closed s | LimitReached s | EndOfStream s | Yield _ s => s
  end.

(** The fields that only [listen_print_loop] and [main] write. *)
Definition same_results (s s' : stream) : Prop :=
  _closed s' = _closed s /\
  _restart_counter s' = _restart_counter s /\
  _last_audio_input s' = _last_audio_input s /\
  _result_end_time s' = _result_end_time s /\
  _is_final_end_time s' = _is_final_end_time s /\
  _final_request_end_time s' = _final_request_end_time s /\
  _last_transcript_was_final s' = _last_transcript_was_final s.

(** The fields that only the generator and [main] write. *)
Definition same_audio (s s' : stream) : Prop :=
  _start_time s' = _start_time s /\
  _restart_counter s' = _restart_counter s /\
  _audio_input s' = _audio_input s /\
  _last_audio_input s' = _last_audio_input s /\
  _final_request_end_time s' = _final_request_end_time s /\
  _bridging_offset s' = _bridging_offset s /\
  _new_stream s' = _new_stream s.

(** Whether the last thing written is an interim line. *)
Fixpoint ends_interim (out : list event) : bool :=
  match out with
  | [] => false
  | e :: rest =>
      match rest with
      | [] => match e with InterimLine _ _ => true | _ => false end
      | _ :: _ => ends_interim rest
      end
  end.

(** Whether a header is written straight after an interim line, which ends
    in a carriage return. *)
Fixpoint header_after_interim (out : list event) : bool :=
  match out with
  | [] => false
  | e :: rest =>
      match e, rest with
      | InterimLine _ _, NewRequest _ :: _ => true
      | _, _ => header_after_interim rest
      end
  end.

(** The character before the position reached after reading [pre], when
    [before] is the one before [pre]. *)
Definition last_char (before : option ascii) (pre : list ascii)
  : option ascii :=
  fold_left (fun _ c => Some c) pre before.

(** The conversion of a reported end time to milliseconds: the seconds
    times 1000 plus the nanoseconds over 1000000, the fraction of a
    millisecond dropped. *)
Definition millis (d : Duration) : Z :=
  seconds d * 1000 + nanos d / 1000000.

(** A duration of at most 4000000 seconds, its nanoseconds below a
    second. *)
Definition duration_in_range (d : Duration) : Prop :=
  0 <= seconds d <= 4000000 /\ 0 <= nanos d <= 999999999.

(** A response whose first result, if it has one with an alternative, ends
    at such a duration. *)
Definition in_range (response : StreamingRecognizeResponse) : Prop :=
  match top response with
  | Some (result, _) => duration_in_range (result_end_time result)
  | None => True
  end.

(** The audio parameters: [SAMPLE_RATE = 16000] samples a second and
    [CHUNK_SIZE = int(SAMPLE_RATE / 10)] samples a chunk, which the source
    notes is 100 ms. *)
Definition SAMPLE_RATE : Z := 16000.

Definition CHUNK_SIZE : exc Z :=
  q <- Py.int_truediv SAMPLE_RATE 10 ;; Val (Py.int q).

(** The time into a sub-session, in milliseconds, at which the recording of
    its chunk [j] starts, for chunks of [size] samples. *)
Definition chunk_start_ms (size j : Z) : Z := j * size * 1000 / SAMPLE_RATE.

(** Whether a pass entered in state [s] gets past the two tests at its
    head: the stream is open and the limit is not exceeded. *)
Definition passes (c : config) (s : stream) (t : tick) : bool :=
  negb (_closed s) && negb (now t - _start_time s >? STREAMING_LIMIT c).

(** Whether an item of the queue is audio (not the end marker). *)
Definition is_audio (ch : chunk) : bool :=
  match ch with
  | Some _ => true
  | None => false
  end.

(** Whether such a pass reaches its [yield]: it gets past the head and
    finds audio only, in the blocking read and in the ones after it. *)
Definition yields (c : config) (s : stream) (t : tick) : bool :=
  passes c s t && forallb is_audio (first t :: buffered t).

(** The passes that yield: those up to the first that does not. *)
Fixpoint yielding (c : config) (s : stream) (ts : list tick) : list tick :=
  match ts with
  | [] => []
  | t :: ts' => if yields c s t then t :: yielding c s ts' else []
  end.

(** What passes find in the queue. *)
Definition pulled (ts : list tick) : list chunk :=
  flat_map (fun t => first t :: buffered t) ts.

(** The items ahead of the first end marker. *)
Fixpoint leading (items : list chunk) : list chunk :=
  match items with
  | Some b :: rest => Some b :: leading rest
  | _ => []
  end.

(** What the pass that ends the generator records, [ts] being the passes
    from that one on: nothing when it stops at the head, else what it
    reads up to and including an end marker at the blocking read, or up to
    an end marker after it. *)
Definition last_recorded (c : config) (s : stream) (ts : list tick)
  : list chunk :=
  match ts with
  | [] => []
  | t :: _ =>
      if passes c s t then
        match first t with
        | None => [None]
        | Some b => Some b :: leading (buffered t)
        end
      else []
  end.

(** What the passes of a sub-session find in the queue. *)
Definition queued (i : sub_session) : list chunk :=
  flat_map (fun t => first t :: buffered t) (ticks i).

(** A sub-session the run gets through: no pass finds the end marker at
    its blocking read, the queue gives at most [2^50] chunks, and the end
    times of the responses are in range. *)
Definition calm (i : sub_session) : Prop :=
  Forall (fun t => first t <> None) (ticks i) /\
  Z.of_nat (length (queued i)) <= 2 ^ 50 /\
  Forall in_range (responses i).

(** What such a run keeps true of the state between sub-sessions. *)
Definition sound (c : config) (s : stream) : Prop :=
  Forall (fun ch => ch <> None) (_last_audio_input s) /\
  Z.of_nat (length (_last_audio_input s)) <= 2 ^ 50 /\
  _final_request_end_time s <= STREAMING_LIMIT c /\
  _is_final_end_time s <= STREAMING_LIMIT c.

(** A pass that finds one chunk in the queue at time [t]. *)
Definition audio_tick (t : Z) : tick :=
  {| now := t; now_again := t; first := Some [Byte.x00]; buffered := [] |}.

(** A run of three sub-sessions under the default limits.  The first pulls
    four chunks before the limit is hit and sees a final result at 2500 ms;
    the second replays the chunks after that and sees a final result with a
    stop word at 1500 ms; the third is never entered. *)
Definition sample_run : list sub_session :=
  [ {| ticks := [audio_tick 100; audio_tick 200; audio_tick 300;
                 audio_tick 400; audio_tick 10001];
       responses := [single false 1 0 "he";
                     single true 2 500000000 "hello"] |};
    {| ticks := [audio_tick 10100; audio_tick 10200; audio_tick 20002];
       responses := [single true 1 500000000 "quit now";
                     single false 3 0 "not read"] |};
    {| ticks := [audio_tick 20100];
       responses := [single true 1 0 "not reached"] |} ].

(* ================================================================== *)
(** * Facts about binary64 rounding *)
(* ================================================================== *)

Module Float64Facts.
Import Float64.
Local Open Scope Q_scope.

Lemma pow2_pos (e : Z) : 0 < 2 ^ e.
Proof. apply Qpower_0_lt. reflexivity. Qed.

Lemma pow2_add (a b : Z) : 2 ^ (a + b) == 2 ^ a * 2 ^ b.
Proof. apply Qpower_plus. discriminate. Qed.

Lemma pow2_succ (e : Z) : 2 ^ (e + 1) == 2 * 2 ^ e.
Proof. rewrite pow2_add. change (2 ^ 1) with 2. ring. Qed.

Lemma pow2_pred (e : Z) : 2 ^ e == 2 * 2 ^ (e - 1).
Proof. rewrite <- pow2_succ. replace (e - 1 + 1)%Z with e by lia. reflexivity. Qed.

Lemma pow2_le (a b : Z) : (a <= b)%Z -> 2 ^ a <= 2 ^ b.
Proof. intros H. apply Qpower_le_compat_l; [exact H | discriminate]. Qed.

Lemma pow2_inject (a : Z) : (0 <= a)%Z -> inject_Z (2 ^ a) == 2 ^ a.
Proof. intros H. rewrite Zpower_Qpower by exact H. reflexivity. Qed.

Lemma RNE_comp (x y : Q) : x == y -> RNE x = RNE y.
Proof.
  intros H. unfold RNE. rewrite (Qfloor_comp _ _ H).
  assert (E : x - inject_Z (Qfloor y) == y - inject_Z (Qfloor y))
    by (rewrite H; reflexivity).
  rewrite (Qcompare_comp _ _ E _ _ (Qeq_refl (1 # 2))). reflexivity.
Qed.

Lemma RNE_bounds (x : Q) :
  x - (1 # 2) <= inject_Z (RNE x) /\ inject_Z (RNE x) <= x + (1 # 2).
Proof.
  unfold RNE.
  pose proof (Qfloor_le x) as Hl. pose proof (Qlt_floor x) as Hu.
  rewrite inject_Z_plus in Hu. change (inject_Z 1) with 1 in Hu.
  destruct (Qcompare_spec (x - inject_Z (Qfloor x)) (1 # 2)) as [E | E | E].
  - destruct (Z.even (Qfloor x)).
    + split; lra.
    + rewrite inject_Z_plus. change (inject_Z 1) with 1. split; lra.
  - split; lra.
  - rewrite inject_Z_plus. change (inject_Z 1) with 1. split; lra.
Qed.

Lemma RNE_inject (z : Z) : RNE (inject_Z z) = z.
Proof.
  unfold RNE. rewrite Qfloor_Z.
  destruct (Qcompare_spec (inject_Z z - inject_Z z) (1 # 2)) as [E | E | E].
  - exfalso. lra.
  - reflexivity.
  - exfalso. lra.
Qed.

Lemma RNE_le (x : Q) (k : Z) : x < inject_Z k + (1 # 2) -> (RNE x <= k)%Z.
Proof.
  intros H. destruct (RNE_bounds x) as [_ Hu].
  assert (Hlt : inject_Z (RNE x) < inject_Z (k + 1)).
  { rewrite inject_Z_plus. change (inject_Z 1) with 1. lra. }
  rewrite <- Zlt_Qlt in Hlt. lia.
Qed.

Lemma RNE_ge (x : Q) (k : Z) : inject_Z k - (1 # 2) < x -> (k <= RNE x)%Z.
Proof.
  intros H. destruct (RNE_bounds x) as [Hl _].
  assert (Hlt : inject_Z (k - 1) < inject_Z (RNE x)).
  { unfold Z.sub. rewrite inject_Z_plus. change (inject_Z (- (1))) with (-1). lra. }
  rewrite <- Zlt_Qlt in Hlt. lia.
Qed.

Lemma RNE_nonneg (x : Q) : 0 <= x -> (0 <= RNE x)%Z.
Proof. intros H. apply RNE_ge. change (inject_Z 0) with 0. lra. Qed.

Lemma Qabs_num_den (x : Q) :
  Qabs x * inject_Z (Zpos (Qden x)) == inject_Z (Z.abs (Qnum x)).
Proof.
  destruct x as [n d]. unfold Qabs, Qeq, inject_Z, Qmult. simpl. lia.
Qed.

Lemma mag_rough (x : Q) :
  ~ x == 0 ->
  let d := (Z.log2 (Z.abs (Qnum x)) - Z.log2 (Zpos (Qden x)))%Z in
  2 ^ (d - 1) < Qabs x /\ Qabs x < 2 ^ (d + 1).
Proof.
  intros Hx d.
  set (p := Z.abs (Qnum x)). set (q := Zpos (Qden x)).
  assert (Hp : (0 < p)%Z).
  { unfold p. destruct x as [n dn]. unfold Qeq in Hx. simpl in *. lia. }
  assert (Hq : (0 < q)%Z) by (unfold q; lia).
  destruct (Z.log2_spec p Hp) as [Hp1 Hp2].
  destruct (Z.log2_spec q Hq) as [Hq1 Hq2].
  pose proof (Z.log2_nonneg p) as Lp. pose proof (Z.log2_nonneg q) as Lq.
  rewrite Zle_Qle in Hp1, Hq1. rewrite Zlt_Qlt in Hp2, Hq2.
  rewrite pow2_inject in Hp1, Hq1 by assumption.
  rewrite <- Z.add_1_r in Hp2, Hq2.
  rewrite pow2_inject in Hp2, Hq2 by lia.
  pose proof (Qabs_num_den x) as E. fold p q in E.
  assert (Qq : 0 < inject_Z q) by (rewrite <- (Zlt_Qlt 0); exact Hq).
  pose proof (pow2_pos (d - 1)) as P1. pose proof (pow2_pos (d + 1)) as P2.
  pose proof (pow2_pos (Z.log2 q)) as P3.
  split.
  - apply Qmult_lt_r with (z := inject_Z q); [exact Qq |].
    rewrite E.
    apply Qlt_le_trans with (y := 2 ^ (d - 1) * 2 ^ (Z.log2 q + 1)).
    + apply Qmult_lt_l; assumption.
    + rewrite <- pow2_add.
      replace (d - 1 + (Z.log2 q + 1))%Z with (Z.log2 p) by (unfold d; fold p q; lia).
      exact Hp1.
  - apply Qmult_lt_r with (z := inject_Z q); [exact Qq |].
    rewrite E.
    apply Qlt_le_trans with (y := 2 ^ (d + 1) * 2 ^ Z.log2 q).
    + rewrite <- pow2_add.
      replace (d + 1 + Z.log2 q)%Z with (Z.log2 p + 1)%Z by (unfold d; fold p q; lia).
      exact Hp2.
    + apply Qmult_le_l; assumption.
Qed.

Lemma mag_spec (x : Q) :
  ~ x == 0 -> 2 ^ mag x <= Qabs x /\ Qabs x < 2 ^ (mag x + 1).
Proof.
  intros Hx. destruct (mag_rough x Hx) as [Hl Hu]. unfold mag.
  set (d := (Z.log2 (Z.abs (Qnum x)) - Z.log2 (Zpos (Qden x)))%Z) in *.
  destruct (Qle_bool (2 ^ d) (Qabs x)) eqn:E.
  - apply Qle_bool_iff in E. split; assumption.
  - split; [apply Qlt_le_weak; exact Hl |].
    replace (d - 1 + 1)%Z with d by lia.
    apply Qnot_le_lt. intros H. apply Qle_bool_iff in H. congruence.
Qed.

Lemma RNE_error (x : Q) : Qabs (inject_Z (RNE x) - x) <= 1 # 2.
Proof.
  destruct (RNE_bounds x) as [Hl Hu].
  apply Qabs_Qle_condition. split; lra.
Qed.

Lemma b64_error (x : Q) : Qabs (b64 x - x) <= (1 # 2) * 2 ^ ulp_exp x.
Proof.
  unfold b64. set (s := ulp_exp x).
  pose proof (pow2_pos s) as Hs.
  assert (E : inject_Z (RNE (x / 2 ^ s)) * 2 ^ s - x
              == (inject_Z (RNE (x / 2 ^ s)) - x / 2 ^ s) * 2 ^ s).
  { field. lra. }
  rewrite E, Qabs_Qmult, (Qabs_pos (2 ^ s)) by lra.
  apply Qmult_le_compat_r; [apply RNE_error | lra].
Qed.

Lemma mag_normal (x : Q) : 2 ^ (-1022) <= Qabs x -> (-1022 <= mag x)%Z.
Proof.
  intros H.
  assert (Hx : ~ x == 0).
  { intros E. rewrite E in H. revert H. apply Qlt_not_le. reflexivity. }
  destruct (mag_spec x Hx) as [_ Hu].
  destruct (Z_lt_le_dec (mag x) (-1022)) as [L | L]; [exfalso | exact L].
  assert (P : 2 ^ (mag x + 1) <= 2 ^ (-1022)) by (apply pow2_le; lia).
  lra.
Qed.

Lemma ulp_normal (x : Q) :
  2 ^ (-1022) <= Qabs x -> 2 ^ ulp_exp x <= 2 * u * Qabs x.
Proof.
  intros H. pose proof (mag_normal x H) as M.
  assert (Hx : ~ x == 0).
  { intros E. rewrite E in H. revert H. apply Qlt_not_le. reflexivity. }
  destruct (mag_spec x Hx) as [Hl _].
  unfold ulp_exp. rewrite Z.max_l by lia.
  unfold Z.sub. rewrite pow2_add.
  assert (E : 2 ^ (- (52)) == 2 * u) by reflexivity.
  rewrite E. pose proof (pow2_pos (mag x)) as P.
  assert (U : 0 < u) by reflexivity.
  nra.
Qed.

(** Relative error of rounding in the normal range. *)
Lemma b64_rel (x : Q) :
  2 ^ (-1022) <= Qabs x -> Qabs (b64 x - x) <= u * Qabs x.
Proof.
  intros H. pose proof (b64_error x) as E. pose proof (ulp_normal x H) as N.
  lra.
Qed.

Lemma b64_zero (x : Q) : x == 0 -> b64 x == 0.
Proof.
  intros H. unfold b64.
  set (w := 2 ^ ulp_exp x).
  assert (E : x / w == inject_Z 0).
  { rewrite H. unfold Qdiv. change (inject_Z 0) with 0. ring. }
  rewrite (RNE_comp _ _ E), RNE_inject. change (inject_Z 0) with 0. ring.
Qed.

Lemma b64_nonneg (x : Q) : 0 <= x -> 0 <= b64 x.
Proof.
  intros H. unfold b64. pose proof (pow2_pos (ulp_exp x)) as P.
  apply Qmult_le_0_compat; [| lra].
  change 0 with (inject_Z 0). rewrite <- Zle_Qle. apply RNE_nonneg.
  apply Qle_shift_div_l; [exact P | lra].
Qed.

Lemma b64_nonpos (x : Q) : x <= 0 -> b64 x <= 0.
Proof.
  intros H. unfold b64. pose proof (pow2_pos (ulp_exp x)) as P.
  assert (R : (RNE (x / 2 ^ ulp_exp x) <= 0)%Z).
  { apply RNE_le. change (inject_Z 0) with 0.
    assert (x / 2 ^ ulp_exp x <= 0).
    { apply Qle_shift_div_r; [exact P | lra]. }
    lra. }
  rewrite Zle_Qle in R. change (inject_Z 0) with 0 in R. nra.
Qed.

(** Positive numbers of the normal range round to positive numbers within
    the relative error [u]. *)
Lemma b64_rel_pos (x : Q) :
  2 ^ (-1022) <= x -> x * (1 - u) <= b64 x /\ b64 x <= x * (1 + u).
Proof.
  intros H. pose proof (pow2_pos (-1022)) as P.
  assert (A : Qabs x == x) by (apply Qabs_pos; lra).
  pose proof (b64_rel x) as R. rewrite A in R. specialize (R H).
  apply Qabs_Qle_condition in R. split; lra.
Qed.

End Float64Facts.

Module Float64Bounds.
Import Float64 Float64Facts.
Local Open Scope Q_scope.

Lemma u_value : u == 2 ^ (-53).
Proof. reflexivity. Qed.

Lemma mag_of_zero (x : Q) : x == 0 -> (mag x <= -1)%Z.
Proof.
  intros H. unfold mag.
  assert (N : Qnum x = 0%Z).
  { destruct x as [n d]. unfold Qeq in H. simpl in *. lia. }
  rewrite N. change (Z.log2 (Z.abs 0)) with 0%Z.
  pose proof (Z.log2_nonneg (Z.pos (Qden x))) as P.
  destruct (Qle_bool _ (Qabs x)) eqn:E; [| lia].
  apply Qle_bool_iff in E. exfalso.
  pose proof (pow2_pos (0 - Z.log2 (Z.pos (Qden x)))) as Q0.
  assert (A : Qabs x == 0) by (rewrite H; reflexivity).
  lra.
Qed.

Lemma pow2_mag_le (x : Q) : 2 ^ mag x <= Qabs x + 1.
Proof.
  destruct (Qeq_dec x 0) as [E | E].
  - pose proof (mag_of_zero x E) as M.
    pose proof (pow2_le (mag x) 0 ltac:(lia)) as P.
    change (2 ^ 0) with 1 in P. pose proof (Qabs_nonneg x). lra.
  - destruct (mag_spec x E) as [Hl _]. lra.
Qed.

Lemma pow2_ulp_le (x : Q) : 2 ^ ulp_exp x <= Qabs x + 1.
Proof.
  unfold ulp_exp. pose proof (Qabs_nonneg x) as A.
  destruct (Z.max_spec (mag x - 52) (-1074)) as [[_ ->] | [_ ->]].
  - pose proof (pow2_le (-1074) 0 ltac:(lia)) as P. change (2 ^ 0) with 1 in P.
    lra.
  - pose proof (pow2_le (mag x - 52) (mag x) ltac:(lia)) as P.
    pose proof (pow2_mag_le x). lra.
Qed.

(** A bound on the magnitude of a rounded number that holds everywhere. *)
Lemma b64_bound (x : Q) : Qabs (b64 x) <= 2 * Qabs x + 1.
Proof.
  pose proof (b64_error x) as E. pose proof (pow2_ulp_le x) as P.
  pose proof (Qabs_triangle (b64 x - x) x) as T.
  assert (R : b64 x - x + x == b64 x) by ring.
  rewrite R in T. pose proof (Qabs_nonneg x). lra.
Qed.

Lemma is_finite_bound (x : Q) : Qabs x < 2 ^ 1024 -> is_finite x = true.
Proof.
  intros H. unfold is_finite. destruct (Qle_bool _ _) eqn:E; [| reflexivity].
  apply Qle_bool_iff in E. exfalso. lra.
Qed.

End Float64Bounds.

Module PyFacts.
Import Float64 Float64Facts Float64Bounds.
Local Open Scope Q_scope.

(** Rounding a value of moderate size gives a float, not an exception. *)
Lemma to_float_val (x : Q) :
  Qabs x <= 2 ^ 1000 -> Py.to_float x = Val (b64 x).
Proof.
  intros H. unfold Py.to_float. rewrite is_finite_bound; [reflexivity |].
  pose proof (b64_bound x) as B.
  assert (P : 2 * 2 ^ 1000 + 1 < 2 ^ 1024) by reflexivity.
  lra.
Qed.

End PyFacts.

(* ================================================================== *)
(** * The arithmetic of the replay *)
(* ================================================================== *)

Module ReplayArith.
Import Float64 Float64Facts Float64Bounds PyFacts.
Local Open Scope Q_scope.

Lemma Qabs_le_of_bounds (x b : Q) : - b <= x -> x <= b -> Qabs x <= b.
Proof. intros H1 H2. apply Qabs_Qle_condition. split; assumption. Qed.

Section Replay.

(** [L] is [STREAMING_LIMIT] and [n] the number of chunks of the previous
    sub-session. *)
Variables L n : Z.
Hypothesis HL : (1 <= L <= 2 ^ 62)%Z.
Hypothesis Hn : (1 <= n <= 2 ^ 50)%Z.

Let a : Q := inject_Z L / inject_Z n.
Let ct : Q := b64 a.

Lemma n_pos : 0 < inject_Z n.
Proof. rewrite <- (Zlt_Qlt 0). lia. Qed.

Lemma a_bounds : 1 # 2 ^ 50 <= a /\ a <= inject_Z L.
Proof.
  pose proof n_pos as N.
  assert (HL1 : 1 <= inject_Z L) by (rewrite <- (Zle_Qle 1); lia).
  assert (Hn1 : 1 <= inject_Z n) by (rewrite <- (Zle_Qle 1); lia).
  assert (Hn2 : inject_Z n <= inject_Z (2 ^ 50)) by (rewrite <- Zle_Qle; lia).
  change (inject_Z (2 ^ 50)) with (1125899906842624 # 1) in Hn2.
  unfold a. split.
  - apply Qle_shift_div_l; [exact N |].
    change (1 # 2 ^ 50) with (1 # 1125899906842624). lra.
  - apply Qle_shift_div_r; [exact N |]. nra.
Qed.

Lemma a_normal : 2 ^ (-1022) <= a.
Proof.
  destruct a_bounds as [H _].
  assert (P : 2 ^ (-1022) <= 1 # 2 ^ 50).
  { apply Qle_bool_iff. vm_compute. reflexivity. }
  lra.
Qed.

Lemma ct_bounds : a * (1 - u) <= ct /\ ct <= a * (1 + u).
Proof. exact (b64_rel_pos a a_normal). Qed.

Lemma ct_pos : 0 < ct.
Proof.
  destruct ct_bounds as [H _]. destruct a_bounds as [A _].
  assert (U : 1 - u == 9007199254740991 # 9007199254740992) by reflexivity.
  assert (P : 0 < 1 # 2 ^ 50) by reflexivity.
  rewrite U in H. nra.
Qed.

Lemma L_bound : inject_Z L <= 2 ^ 62.
Proof.
  rewrite <- pow2_inject by lia. rewrite <- Zle_Qle. lia.
Qed.

Lemma chunkTime_val : Py.int_truediv L n = Val ct.
Proof.
  unfold Py.int_truediv. destruct (Z.eqb_spec n 0) as [E | _]; [lia |].
  apply to_float_val. destruct a_bounds as [A1 A2]. pose proof L_bound as B.
  assert (P : 0 < 1 # 2 ^ 50) by reflexivity.
  assert (Q0 : 2 ^ 62 <= 2 ^ 1000) by (apply pow2_le; lia).
  fold a. apply Qabs_le_of_bounds; lra.
Qed.

Lemma chunkTime_nonzero : Qeq_bool ct 0 = false.
Proof.
  destruct (Qeq_bool ct 0) eqn:E; [| reflexivity].
  apply Qeq_bool_eq in E. pose proof ct_pos. lra.
Qed.

(** [X] is [_final_request_end_time - _bridging_offset] after the clamp. *)
Variable X : Z.
Hypothesis HX : (0 <= X <= 2 ^ 62)%Z.

Let x : Q := b64 (inject_Z X).
Let y : Q := x / ct.
Let q : Q := b64 y.
Let idx : Z := RNE q.

Lemma X_bounds : 0 <= inject_Z X /\ inject_Z X <= 2 ^ 62.
Proof.
  split.
  - rewrite <- (Zle_Qle 0). lia.
  - rewrite <- pow2_inject by lia. rewrite <- Zle_Qle. lia.
Qed.

Lemma x_val : Py.int_to_float X = Val x.
Proof.
  apply to_float_val. destruct X_bounds as [X0 X1].
  assert (Q0 : 2 ^ 62 <= 2 ^ 1000) by (apply pow2_le; lia).
  apply Qabs_le_of_bounds; lra.
Qed.

Lemma x_nonneg : 0 <= x.
Proof. apply b64_nonneg. apply X_bounds. Qed.

Lemma x_zero : X = 0%Z -> x == 0.
Proof. intros E. apply b64_zero. rewrite E. reflexivity. Qed.

Lemma x_bounds :
  (1 <= X)%Z -> inject_Z X * (1 - u) <= x /\ x <= inject_Z X * (1 + u).
Proof.
  intros H. apply b64_rel_pos.
  assert (P : 2 ^ (-1022) <= 1) by (apply Qle_bool_iff; vm_compute; reflexivity).
  assert (X1 : 1 <= inject_Z X) by (rewrite <- (Zle_Qle 1); lia).
  lra.
Qed.

Lemma x_le : x <= 2 ^ 63 + 1.
Proof.
  pose proof (b64_bound (inject_Z X)) as B. destruct X_bounds as [X0 X1].
  rewrite (Qabs_pos (inject_Z X)) in B by exact X0.
  fold x in B. pose proof (Qle_Qabs x) as A.
  assert (E : 2 * 2 ^ 62 == 2 ^ 63) by reflexivity. lra.
Qed.

Lemma ct_lower : 2 ^ (-51) <= ct.
Proof.
  destruct (ct_bounds) as [H _]. destruct a_bounds as [A _].

  assert (U : 1 - u == 9007199254740991 # 9007199254740992) by reflexivity.
  assert (P : 2 ^ (-51) == 1 # 2251799813685248) by reflexivity.
  assert (P' : (1 # 2 ^ 50) == 1 # 1125899906842624) by reflexivity.
  rewrite U in H. rewrite P. rewrite P' in A. nra.
Qed.

Lemma y_nonneg : 0 <= y.
Proof.
  unfold y. apply Qle_shift_div_l; [apply ct_pos |].
  pose proof x_nonneg. lra.
Qed.

Lemma y_le : y <= 2 ^ 115.
Proof.
  unfold y. apply Qle_shift_div_r; [apply ct_pos |].
  pose proof x_le as A. pose proof ct_lower as B.
  assert (E : 2 ^ 115 * 2 ^ (-51) == 2 ^ 64) by reflexivity.
  assert (F : 2 ^ 63 + 1 <= 2 ^ 64) by (apply Qle_bool_iff; vm_compute; reflexivity).
  assert (G : 0 < 2 ^ 115) by reflexivity.
  apply Qle_trans with (y := 2 ^ 115 * 2 ^ (-51)); [lra |].
  apply Qmult_le_l; [exact G | exact B].
Qed.

Lemma q_val : Py.float_div x ct = Val q.
Proof.
  unfold Py.float_div. fold ct. rewrite chunkTime_nonzero.
  apply to_float_val. pose proof y_nonneg as A. pose proof y_le as B.
  assert (Q0 : 2 ^ 115 <= 2 ^ 1000) by (apply pow2_le; lia).
  fold y. apply Qabs_le_of_bounds; lra.
Qed.

Lemma q_nonneg : 0 <= q.
Proof. apply b64_nonneg. apply y_nonneg. Qed.

Lemma q_le : q <= 2 ^ 116 + 1.
Proof.
  pose proof (b64_bound y) as B. pose proof y_nonneg as A. pose proof y_le as C.
  rewrite (Qabs_pos y) in B by exact A. fold q in B.
  pose proof (Qle_Qabs q) as D.
  assert (E : 2 * 2 ^ 115 == 2 ^ 116) by reflexivity. lra.
Qed.

Lemma idx_nonneg : (0 <= idx)%Z.
Proof. apply RNE_nonneg. apply q_nonneg. Qed.

Lemma idx_le : (idx <= 2 ^ 117)%Z.
Proof.
  apply RNE_le. pose proof q_le as A.
  rewrite pow2_inject by lia.
  assert (E : 2 ^ 116 + 1 < 2 ^ 117 + (1 # 2)) by reflexivity. lra.
Qed.

Lemma a_times_n : a * inject_Z n == inject_Z L.
Proof. unfold a. field. pose proof n_pos. lra. Qed.

Lemma y_times_ct : y * ct == x.
Proof. unfold y. field. pose proof ct_pos. lra. Qed.

Lemma y_normal : (1 <= X)%Z -> 2 ^ (-1022) <= y.
Proof.
  intros H. destruct (x_bounds H) as [Hx _]. destruct ct_bounds as [_ Hc].
  destruct a_bounds as [_ Ha]. pose proof L_bound as Lb.
  assert (X1 : 1 <= inject_Z X) by (rewrite <- (Zle_Qle 1); lia).
  assert (U : u == 1 # 9007199254740992) by reflexivity.
  assert (Hx' : 1 # 2 <= x) by (rewrite U in Hx; nra).
  assert (Hc' : ct <= 2 ^ 63).
  { assert (E : 2 ^ 63 == 2 * 2 ^ 62) by reflexivity.
    rewrite U in Hc. pose proof a_bounds as [A0 _].
    assert (P : 0 < 1 # 2 ^ 50) by reflexivity. nra. }
  unfold y. apply Qle_shift_div_l; [apply ct_pos |].
  assert (P : 2 ^ (-1022) * 2 ^ 63 <= 1 # 2)
    by (apply Qle_bool_iff; vm_compute; reflexivity).
  assert (P0 : 0 < 2 ^ (-1022)) by reflexivity.
  apply Qle_trans with (y := 2 ^ (-1022) * 2 ^ 63); [| lra].
  apply Qmult_le_l; [exact P0 | exact Hc'].
Qed.

Lemma q_bounds : (1 <= X)%Z -> y * (1 - u) <= q /\ q <= y * (1 + u).
Proof. intros H. exact (b64_rel_pos y (y_normal H)). Qed.

(** The index computed for the cut never exceeds an index whose chunk
    starts at or after the cut. *)
Lemma idx_le_index (i : Z) :
  (0 <= i <= 2 ^ 50)%Z -> (X * n <= i * L)%Z -> (idx <= i)%Z.
Proof.
  intros Hi H.
  destruct (Z.eq_dec X 0) as [E | E].
  - assert (Q0 : q == inject_Z 0).
    { apply b64_zero. unfold y. rewrite (x_zero E). unfold Qdiv. ring. }
    unfold idx. rewrite (RNE_comp _ _ Q0), RNE_inject. lia.
  - assert (X1 : (1 <= X)%Z) by lia.
    apply RNE_le.
    destruct (q_bounds X1) as [_ Hq]. destruct (x_bounds X1) as [_ Hx].
    destruct ct_bounds as [Hc _]. pose proof a_times_n as An.
    pose proof y_times_ct as Yc. pose proof n_pos as N.
    pose proof y_nonneg as Y0. destruct a_bounds as [A0 _].
    assert (A1 : 0 < a).
    { assert (P : 0 < 1 # 2 ^ 50) by reflexivity. lra. }
    assert (I0 : 0 <= inject_Z i) by (rewrite <- (Zle_Qle 0); lia).
    assert (I1 : inject_Z i <= 1125899906842624).
    { change 1125899906842624 with (inject_Z (2 ^ 50)).
      rewrite <- Zle_Qle. lia. }
    assert (HQ : inject_Z X * inject_Z n <= inject_Z i * inject_Z L).
    { rewrite <- !inject_Z_mult, <- Zle_Qle. exact H. }
    assert (U0 : 0 < u) by reflexivity.
    assert (U1 : u < 1) by reflexivity.
    (* X <= i * a *)
    assert (S1 : inject_Z X <= inject_Z i * a).
    { apply Qmult_le_r with (z := inject_Z n); [exact N |].
      rewrite <- Qmult_assoc, An. exact HQ. }
    (* y (1 - u) <= i (1 + u) *)
    assert (S2 : y * (1 - u) <= inject_Z i * (1 + u)).
    { apply Qmult_le_r with (z := a); [exact A1 |].
      apply Qle_trans with (y := y * ct); [nra |].
      rewrite Yc. nra. }
    (* q (1 - u) <= i (1 + u)^2 *)
    assert (S3 : q * (1 - u) <= inject_Z i * (1 + u) * (1 + u)) by nra.
    assert (S4 : inject_Z i * (1 + u) * (1 + u)
                 < (inject_Z i + (1 # 2)) * (1 - u)).
    { unfold u. lra. }
    assert (S5 : q * (1 - u) < (inject_Z i + (1 # 2)) * (1 - u)) by lra.
    apply Qmult_lt_r in S5; [exact S5 | lra].
Qed.

Let k : Q := b64 (inject_Z (n - idx)).
Let p : Q := b64 (k * ct).

Lemma k_arg_bound : Qabs (inject_Z (n - idx)) <= 2 ^ 118.
Proof.
  pose proof idx_nonneg as I0. pose proof idx_le as I1.
  rewrite <- pow2_inject by lia.
  apply Qabs_le_of_bounds.
  - rewrite <- inject_Z_opp, <- Zle_Qle.
    assert ((2 ^ 118 = 2 * 2 ^ 117)%Z) by reflexivity. lia.
  - rewrite <- Zle_Qle.
    assert ((2 ^ 50 <= 2 ^ 118)%Z) by (apply Z.pow_le_mono_r; lia). lia.
Qed.

Lemma k_val : Py.int_to_float (n - idx) = Val k.
Proof.
  apply to_float_val. pose proof k_arg_bound as B.
  assert (Q0 : 2 ^ 118 <= 2 ^ 1000) by (apply pow2_le; lia). lra.
Qed.

Lemma k_bound : Qabs k <= 2 ^ 119 + 1.
Proof.
  pose proof (b64_bound (inject_Z (n - idx))) as B. pose proof k_arg_bound as A.
  assert (E : 2 * 2 ^ 118 == 2 ^ 119) by reflexivity. fold k in B. lra.
Qed.

Lemma ct_upper : ct <= 2 ^ 63.
Proof.
  destruct ct_bounds as [_ Hc]. destruct a_bounds as [A0 Ha].
  pose proof L_bound as Lb.
  assert (U : u == 1 # 9007199254740992) by reflexivity.
  assert (E : 2 ^ 63 == 2 * 2 ^ 62) by reflexivity.
  assert (P : 0 < 1 # 2 ^ 50) by reflexivity.
  rewrite U in Hc. nra.
Qed.

Lemma p_val : Py.float_mul k ct = Val p.
Proof.
  apply to_float_val. rewrite Qabs_Qmult.
  pose proof k_bound as K. pose proof ct_upper as C. pose proof ct_pos as C0.
  rewrite (Qabs_pos ct) by lra.
  assert (Q0 : (2 ^ 119 + 1) * 2 ^ 63 <= 2 ^ 1000)
    by (apply Qle_bool_iff; vm_compute; reflexivity).
  apply Qle_trans with (y := (2 ^ 119 + 1) * 2 ^ 63); [| exact Q0].
  pose proof (Qabs_nonneg k) as K0.
  assert (T : 0 < 2 ^ 119 + 1) by reflexivity.
  apply Qle_trans with (y := (2 ^ 119 + 1) * ct).
  - apply Qmult_le_compat_r; lra.
  - apply Qmult_le_l; [exact T | exact C].
Qed.

Lemma new_offset_nonneg : (idx <= n)%Z -> (0 <= RNE p)%Z.
Proof.
  intros H. apply RNE_nonneg. apply b64_nonneg.
  apply Qmult_le_0_compat; [| pose proof ct_pos; lra].
  apply b64_nonneg. rewrite <- (Zle_Qle 0). lia.
Qed.

End Replay.

End ReplayArith.

(* ================================================================== *)
(** * Lists *)
(* ================================================================== *)

Module PyLists.

Lemma getitem_nat {A : Type} (l : list A) (p : nat) (a : A) :
  nth_error l p = Some a -> Py.getitem l (Z.of_nat p) = Val a.
Proof.
  intros H. unfold Py.getitem.
  assert (L : (p < length l)%nat) by (apply nth_error_Some; congruence).
  destruct (Z.ltb_spec (Z.of_nat p) 0) as [N | _]; [lia |].
  destruct (Z.leb_spec 0 (Z.of_nat p)) as [_ | N]; [| lia].
  destruct (Z.ltb_spec (Z.of_nat p) (Z.of_nat (length l))) as [_ | N]; [| lia].
  cbn [andb]. rewrite Nat2Z.id, H. reflexivity.
Qed.

Lemma gather_seq {A : Type} (l : list A) :
  forall (m p : nat) (acc : list A),
    (p + m <= length l)%nat ->
    Py.gather l (map Z.of_nat (seq p m)) acc
    = Val (acc ++ firstn m (skipn p l)).
Proof.
  induction m as [| m IH]; intros p acc H.
  - simpl. rewrite app_nil_r. reflexivity.
  - cbn [seq map Py.gather].
    destruct (nth_error l p) as [a |] eqn:E.
    + rewrite (getitem_nat l p a E). cbn [bind].
      rewrite IH by lia. rewrite <- app_assoc. do 2 f_equal.
      clear IH. revert p H E. induction l as [| x l IHl]; intros p H E.
      * destruct p; discriminate.
      * destruct p as [| p].
        -- injection E as ->. reflexivity.
        -- cbn [skipn]. apply IHl; [simpl in H; lia | exact E].
    + apply nth_error_None in E. lia.
Qed.

Lemma range_shift (c : nat) :
  forall (m j : nat),
    map (fun k => Z.of_nat c + Z.of_nat k) (seq j m)
    = map Z.of_nat (seq (c + j) m).
Proof.
  induction m as [| m IH]; intros j; [reflexivity |].
  cbn [seq map]. f_equal; [lia |].
  rewrite IH. rewrite Nat.add_succ_r. reflexivity.
Qed.

Lemma range_nat (c : nat) (n : Z) :
  Py.range (Z.of_nat c) n = map Z.of_nat (seq c (Z.to_nat (n - Z.of_nat c))).
Proof.
  unfold Py.range. rewrite range_shift, Nat.add_0_r. reflexivity.
Qed.

(** From a non-negative index on, [for i in range(c, len(l))] appends the
    tail of [l] that starts at [c]. *)
Lemma gather_range {A : Type} (l : list A) (c : Z) (acc : list A) :
  0 <= c ->
  Py.gather l (Py.range c (Z.of_nat (length l))) acc
  = Val (acc ++ skipn (Z.to_nat c) l).
Proof.
  intros H. rewrite <- (Z2Nat.id c H) at 1. rewrite range_nat.
  destruct (Z_le_gt_dec c (Z.of_nat (length l))) as [L | L].
  - rewrite gather_seq by lia. f_equal. f_equal.
    apply firstn_all2. rewrite length_skipn. lia.
  - replace (Z.to_nat (Z.of_nat (length l) - Z.of_nat (Z.to_nat c))) with 0%nat
      by lia.
    simpl. rewrite skipn_all2 by lia. rewrite app_nil_r. reflexivity.
Qed.

End PyLists.

(* ================================================================== *)
(** * The result loop *)
(* ================================================================== *)

(** The body of the loop on a response that has a result and an
    alternative, once its end time is known. *)
Lemma handle_response_top (c : config) (response : StreamingRecognizeResponse)
  (result : StreamingRecognitionResult) (alt : SpeechRecognitionAlternative)
  (t : Z) (s : stream) :
  top response = Some (result, alt) ->
  in_session_end_ms result = Val t ->
  handle_response c response s =
  let g := t - _bridging_offset s + STREAMING_LIMIT c * _restart_counter s in
  if is_final result then
    if t <? STREAMING_LIMIT c - WORKAROUND_WINDOW c then
      let s' :=
        set_last_transcript_was_final true
          (set_is_final_end_time t (set_result_end_time t s)) in
      if Regex.stop_keyword (transcript alt)
      then Val (set_closed true s', [FinalLine g (transcript alt); Exiting], Break)
      else Val (s', [FinalLine g (transcript alt)], Continue)
    else Val (set_result_end_time t s, [], Continue)
  else
    Val (set_last_transcript_was_final false (set_result_end_time t s),
         [InterimLine g (transcript alt)], Continue).
Proof.
  unfold top, handle_response. intros Ht Hm.
  destruct (results response) as [| r rs]; [discriminate |].
  destruct (alternatives r) as [| a al] eqn:Ea; [discriminate |].
  injection Ht as <- <-. cbn. rewrite Hm. reflexivity.
Qed.

Lemma handle_response_skip (c : config) (response : StreamingRecognizeResponse)
  (s : stream) :
  top response = None -> handle_response c response s = Val (s, [], Continue).
Proof.
  unfold top, handle_response. intros Ht.
  destruct (results response) as [| r rs]; [reflexivity |].
  destruct (alternatives r) as [| a al]; [reflexivity | discriminate].
Qed.

(** The loop on a first response that does not break. *)
Lemma listen_print_loop_cons (c : config) (response : StreamingRecognizeResponse)
  (rest : list StreamingRecognizeResponse) (s s1 : stream) (out1 : list event) :
  handle_response c response s = Val (s1, out1, Continue) ->
  listen_print_loop c (response :: rest) s =
  '(s2, out2) <- listen_print_loop c rest s1 ;; Val (s2, out1 ++ out2).
Proof. intros H. simpl. rewrite H. reflexivity. Qed.

Lemma listen_print_loop_break (c : config) (response : StreamingRecognizeResponse)
  (rest : list StreamingRecognizeResponse) (s s1 : stream) (out1 : list event) :
  handle_response c response s = Val (s1, out1, Break) ->
  listen_print_loop c (response :: rest) s = Val (s1, out1).
Proof. intros H. simpl. rewrite H. reflexivity. Qed.

(** The loop body leaves the offset and the restart counter alone. *)
Lemma handle_response_offsets (c : config) (response : StreamingRecognizeResponse)
  (s s' : stream) (out : list event) (fl : flow) :
  handle_response c response s = Val (s', out, fl) ->
  _bridging_offset s' = _bridging_offset s /\
  _restart_counter s' = _restart_counter s.
Proof.
  intros H. destruct (top response) as [[result alt] |] eqn:Et.
  - destruct (in_session_end_ms result) as [t | e] eqn:Em.
    + rewrite (handle_response_top c _ _ _ _ s Et Em) in H. cbv zeta in H.
      destruct (is_final result);
        [destruct (t <? STREAMING_LIMIT c - WORKAROUND_WINDOW c);
         [destruct (Regex.stop_keyword (transcript alt)) |] |];
        injection H as <- _ _; split; reflexivity.
    + unfold top, handle_response in *.
      destruct (results response) as [| r rs]; [discriminate |].
      destruct (alternatives r) as [| a al]; [discriminate |].
      injection Et as <- <-. rewrite Em in H. discriminate.
  - rewrite (handle_response_skip c _ s Et) in H. injection H as <- _ _.
    split; reflexivity.
Qed.

(** Every line the loop body writes comes from the top alternative of its
    response and carries the corrected time. *)
Lemma handle_response_lines (c : config) (response : StreamingRecognizeResponse)
  (s s' : stream) (out : list event) (fl : flow) (e : event) :
  handle_response c response s = Val (s', out, fl) ->
  In e out ->
  e = Exiting \/
  exists result alt t,
    top response = Some (result, alt) /\
    in_session_end_ms result = Val t /\
    let g := t - _bridging_offset s + STREAMING_LIMIT c * _restart_counter s in
    (e = InterimLine g (transcript alt) /\ is_final result = false \/
     e = FinalLine g (transcript alt) /\ is_final result = true /\
     t < STREAMING_LIMIT c - WORKAROUND_WINDOW c).
Proof.
  intros H Hin. destruct (top response) as [[result alt] |] eqn:Et.
  - destruct (in_session_end_ms result) as [t | ex] eqn:Em.
    + rewrite (handle_response_top c _ _ _ _ s Et Em) in H. cbv zeta in H.
      destruct (is_final result) eqn:Ef.
      * destruct (t <? STREAMING_LIMIT c - WORKAROUND_WINDOW c) eqn:El.
        -- apply Z.ltb_lt in El.
           destruct (Regex.stop_keyword (transcript alt));
             injection H as _ <- _; simpl in Hin;
             repeat (destruct Hin as [<- | Hin]); try contradiction;
             try (left; reflexivity);
             right; exists result, alt, t; repeat split; try assumption;
             right; repeat split; try reflexivity; assumption.
        -- injection H as _ <- _. contradiction.
      * injection H as _ <- _. simpl in Hin. destruct Hin as [<- | []].
        right. exists result, alt, t. repeat split; try assumption.
        left. split; [reflexivity | assumption].
    + unfold top, handle_response in *.
      destruct (results response) as [| r rs]; [discriminate |].
      destruct (alternatives r) as [| a al]; [discriminate |].
      injection Et as <- <-. rewrite Em in H. discriminate.
  - rewrite (handle_response_skip c _ s Et) in H. injection H as _ <- _.
    contradiction.
Qed.

(** The same for the whole loop: the offsets are those it starts with. *)
Lemma listen_print_loop_lines (c : config)
  (rs : list StreamingRecognizeResponse) :
  forall (s s' : stream) (out : list event) (e : event),
  listen_print_loop c rs s = Val (s', out) ->
  In e out ->
  e = Exiting \/
  exists response result alt t,
    In response rs /\
    top response = Some (result, alt) /\
    in_session_end_ms result = Val t /\
    let g := t - _bridging_offset s + STREAMING_LIMIT c * _restart_counter s in
    (e = InterimLine g (transcript alt) /\ is_final result = false \/
     e = FinalLine g (transcript alt) /\ is_final result = true /\
     t < STREAMING_LIMIT c - WORKAROUND_WINDOW c).
Proof.
  induction rs as [| response rest IH]; intros s s' out e H Hin.
  - injection H as _ <-. contradiction.
  - simpl in H.
    destruct (handle_response c response s) as [[[s1 out1] fl] | ex] eqn:Eh;
      [| discriminate].
    simpl in H.
    assert (Hhere : In e out1 ->
      e = Exiting \/
      exists response0 result alt t,
        In response0 (response :: rest) /\
        top response0 = Some (result, alt) /\
        in_session_end_ms result = Val t /\
        let g := t - _bridging_offset s + STREAMING_LIMIT c * _restart_counter s in
        (e = InterimLine g (transcript alt) /\ is_final result = false \/
         e = FinalLine g (transcript alt) /\ is_final result = true /\
         t < STREAMING_LIMIT c - WORKAROUND_WINDOW c)).
    { intros Hin1.
      destruct (handle_response_lines c _ _ _ _ _ _ Eh Hin1)
        as [-> | (result & alt & t & Ht & Hm & Hg)]; [left; reflexivity |].
      right. exists response, result, alt, t.
      split; [left; reflexivity |]. auto. }
    destruct fl.
    + destruct (listen_print_loop c rest s1) as [[s2 out2] | ex] eqn:El;
        [| discriminate].
      simpl in H. injection H as _ <-.
      apply in_app_or in Hin. destruct Hin as [Hin | Hin]; [auto |].
      destruct (handle_response_offsets c _ _ _ _ _ Eh) as [Eb Er].
      destruct (IH _ _ _ _ El Hin)
        as [-> | (response0 & result & alt & t & Hr & Ht & Hm & Hg)];
        [left; reflexivity |].
      right. exists response0, result, alt, t.
      split; [right; exact Hr |]. rewrite Eb, Er in Hg. auto.
    + injection H as _ <-. auto.
Qed.

Lemma bind_Val {A B : Type} (a : A) (k : A -> exc B) : bind (Val a) k = k a.
Proof. reflexivity. Qed.

(* ------------------------------------------------------------------ *)
(** ** The end time of a result in milliseconds *)

Module EndTime.
Import Float64 Float64Facts Float64Bounds PyFacts.
Local Open Scope Q_scope.

Lemma mag_small (x : Q) : Qabs x < 2 ^ 53 -> (mag x <= 52)%Z.
Proof.
  intros H. destruct (Qeq_dec x 0) as [E | E].
  - pose proof (mag_of_zero x E). lia.
  - destruct (mag_spec x E) as [Hl _].
    destruct (Z_lt_le_dec 52 (mag x)) as [L | L]; [exfalso | exact L].
    pose proof (pow2_le 53 (mag x) ltac:(lia)) as P. lra.
Qed.

(** An integer below [2^53] is a binary64 number. *)
Lemma b64_exact (x : Q) (z : Z) :
  x == inject_Z z -> Qabs x < 2 ^ 53 -> b64 x == inject_Z z.
Proof.
  intros Hx Hb. pose proof (mag_small x Hb) as M.
  unfold b64. set (s := ulp_exp x).
  assert (Hs : (s <= 0)%Z) by (unfold s, ulp_exp; lia).
  pose proof (pow2_pos s) as Ps.
  assert (P : 2 ^ (- s) * 2 ^ s == 1).
  { rewrite <- pow2_add. replace (- s + s)%Z with 0%Z by lia. reflexivity. }
  assert (E : x / 2 ^ s == inject_Z (z * 2 ^ (- s))).
  { rewrite inject_Z_mult, pow2_inject by lia. rewrite Hx.
    apply Qmult_inj_r with (z := 2 ^ s); [lra |].
    unfold Qdiv. rewrite <- !Qmult_assoc, P.
    rewrite (Qmult_comm (/ 2 ^ s)), Qmult_inv_r by lra. reflexivity. }
  rewrite (RNE_comp _ _ E), RNE_inject.
  rewrite inject_Z_mult, pow2_inject by lia.
  rewrite <- Qmult_assoc, P. ring.
Qed.

Lemma Qfloor_between (x : Q) (z : Z) :
  inject_Z z <= x -> x < inject_Z z + 1 -> Qfloor x = z.
Proof.
  intros Hl Hu.
  pose proof (Qfloor_le x) as F1. pose proof (Qlt_floor x) as F2.
  rewrite inject_Z_plus in F2. change (inject_Z 1) with 1 in F2.
  assert (A : inject_Z (Qfloor x) < inject_Z (z + 1)).
  { rewrite inject_Z_plus. change (inject_Z 1) with 1. lra. }
  assert (B : inject_Z z < inject_Z (Qfloor x + 1)).
  { rewrite inject_Z_plus. change (inject_Z 1) with 1. lra. }
  rewrite <- Zlt_Qlt in A, B. lia.
Qed.

Lemma int_between (x : Q) (z : Z) :
  (0 <= z)%Z -> inject_Z z <= x -> x < inject_Z z + 1 -> Py.int x = z.
Proof.
  intros Hz Hl Hu. unfold Py.int.
  assert (Z0 : 0 <= inject_Z z) by (rewrite <- (Zle_Qle 0); exact Hz).
  assert (X0 : 0 <= x) by lra.
  apply Qle_bool_iff in X0. rewrite X0. apply Qfloor_between; assumption.
Qed.

Section Millis.

Variables S N : Z.
Hypothesis HS : (0 <= S <= 4000000000)%Z.
Hypothesis HN : (0 <= N <= 999999999)%Z.

Lemma millis_arith (v q f r : Q) :
  v = inject_Z N / inject_Z 1000000 ->
  q = b64 v -> f = b64 (inject_Z S) -> r = b64 (f + q) ->
  Qabs v <= 2 ^ 1000 /\ Qabs (inject_Z S) <= 2 ^ 1000 /\
  Qabs (f + q) <= 2 ^ 1000 /\
  inject_Z (S + N / 1000000) <= r /\ r < inject_Z (S + N / 1000000) + 1.
Proof.
  intros Ev Eq Ef Er.
  pose proof (Z.div_mod N 1000000 ltac:(lia)) as Hdm.
  pose proof (Z.mod_pos_bound N 1000000 ltac:(lia)) as Hm.
  remember (N / 1000000)%Z as k eqn:Ek.
  remember (N mod 1000000)%Z as m eqn:Em.
  assert (Hk : (0 <= k <= 999)%Z) by lia.
  assert (QS0 : 0 <= inject_Z S) by (rewrite <- (Zle_Qle 0); lia).
  assert (QS1 : inject_Z S <= 4000000000).
  { change 4000000000 with (inject_Z 4000000000). rewrite <- Zle_Qle. lia. }
  assert (Qk0 : 0 <= inject_Z k) by (rewrite <- (Zle_Qle 0); lia).
  assert (Qk1 : inject_Z k <= 999).
  { change 999 with (inject_Z 999). rewrite <- Zle_Qle. lia. }
  assert (Qm0 : 0 <= inject_Z m) by (rewrite <- (Zle_Qle 0); lia).
  assert (Qm1 : inject_Z m <= 999999).
  { change 999999 with (inject_Z 999999). rewrite <- Zle_Qle. lia. }
  assert (Vv : v * 1000000 == 1000000 * inject_Z k + inject_Z m).
  { rewrite Ev, Hdm, inject_Z_plus, inject_Z_mult.
    change (inject_Z 1000000) with 1000000. field. }
  assert (P53 : 2 ^ 53 == 9007199254740992) by reflexivity.
  assert (P1000 : 9007199254740992 <= 2 ^ 1000)
    by (apply Qle_bool_iff; vm_compute; reflexivity).
  assert (Pmin : 2 ^ (-1022) <= 1 # 1000000)
    by (apply Qle_bool_iff; vm_compute; reflexivity).
  assert (AS : Qabs (inject_Z S) == inject_Z S) by (apply Qabs_pos; exact QS0).
  assert (Fv : f == inject_Z S).
  { rewrite Ef. apply b64_exact; [reflexivity |]. rewrite AS, P53. lra. }
  assert (V0 : 0 <= v) by lra.
  assert (AV : Qabs v == v) by (apply Qabs_pos; exact V0).
  assert (SK : inject_Z (S + k) == inject_Z S + inject_Z k)
    by (rewrite inject_Z_plus; reflexivity).
  (* the quotient and the sum, rounded *)
  assert (B : inject_Z k <= q /\ q <= v * (1 + u) /\ v * (1 - u) <= q /\
              (m = 0%Z -> q == inject_Z k)).
  { destruct (Z.eq_dec m 0) as [E | E].
    - assert (Vk : v == inject_Z k).
      { rewrite E in Vv. change (inject_Z 0) with 0 in Vv. lra. }
      assert (Qe : q == inject_Z k).
      { rewrite Eq. apply b64_exact; [exact Vk |]. rewrite AV, P53. lra. }
      rewrite Qe. assert (U0 : 0 < u) by reflexivity.
      unfold u in *. repeat split; try lra; try (intros; reflexivity).
    - assert (Qm2 : 1 <= inject_Z m) by (rewrite <- (Zle_Qle 1); lia).
      assert (Vmin : 2 ^ (-1022) <= v) by lra.
      destruct (b64_rel_pos v Vmin) as [R1 R2]. rewrite <- Eq in R1, R2.
      unfold u in *. repeat split; try lra; try (intros; contradiction). }
  destruct B as (B0 & B1 & B2 & B3).
  assert (A1 : Qabs v <= 2 ^ 1000) by (rewrite AV; lra).
  assert (A2 : Qabs (inject_Z S) <= 2 ^ 1000) by (rewrite AS; lra).
  assert (FQ0 : 0 <= f + q) by lra.
  assert (AFQ : Qabs (f + q) == f + q) by (apply Qabs_pos; exact FQ0).
  assert (A3 : Qabs (f + q) <= 2 ^ 1000).
  { rewrite AFQ. unfold u in *. lra. }
  split; [exact A1 |]. split; [exact A2 |]. split; [exact A3 |].
  rewrite SK.
  destruct (Z.eq_dec m 0) as [E | E].
  - assert (Re : r == inject_Z (S + k)).
    { rewrite Er. apply b64_exact.
      - rewrite SK, Fv, (B3 E). reflexivity.
      - rewrite AFQ, P53, Fv, (B3 E). lra. }
    rewrite SK in Re. lra.
  - assert (Qm2 : 1 <= inject_Z m) by (rewrite <- (Zle_Qle 1); lia).
    assert (Rmin : 2 ^ (-1022) <= f + q) by (unfold u in *; lra).
    destruct (b64_rel_pos (f + q) Rmin) as [R1 R2]. rewrite <- Er in R1, R2.
    unfold u in *. split; lra.
Qed.

End Millis.

Lemma end_time_ms_value (secs N : Z) :
  (0 <= secs <= 4000000)%Z -> (0 <= N <= 999999999)%Z ->
  end_time_ms secs N = Val (secs * 1000 + N / 1000000)%Z.
Proof.
  intros Hs HN.
  assert (HS : (0 <= secs * 1000 <= 4000000000)%Z) by lia.
  destruct (millis_arith (secs * 1000) N HS HN _ _ _ _
              eq_refl eq_refl eq_refl eq_refl) as (A1 & A2 & A3 & R1 & R2).
  unfold end_time_ms, Py.int_truediv, Py.int_to_float, Py.float_add.
  change (1000000 =? 0)%Z with false. cbv iota.
  rewrite (to_float_val _ A1), bind_Val.
  rewrite (to_float_val _ A2), bind_Val.
  rewrite (to_float_val _ A3), bind_Val.
  f_equal. apply int_between; [| exact R1 | exact R2].
  assert (0 <= N / 1000000)%Z by (apply Z.div_pos; lia). lia.
Qed.

End EndTime.

(** The end time the loop reads off a result whose end time is a duration
    of at most 4000000 seconds with its nanoseconds below a second. *)
Lemma in_session_end_ms_value (result : StreamingRecognitionResult) :
  0 <= seconds (result_end_time result) <= 4000000 ->
  0 <= nanos (result_end_time result) <= 999999999 ->
  in_session_end_ms result
  = Val (seconds (result_end_time result) * 1000
         + nanos (result_end_time result) / 1000000).
Proof.
  intros Hs Hn. unfold in_session_end_ms. cbv zeta.
  assert (E1 : (if seconds (result_end_time result) =? 0 then 0
                else seconds (result_end_time result))
               = seconds (result_end_time result)).
  { destruct (Z.eqb_spec (seconds (result_end_time result)) 0) as [E | E];
      [symmetry; exact E | reflexivity]. }
  assert (E2 : (if nanos (result_end_time result) =? 0 then 0
                else nanos (result_end_time result))
               = nanos (result_end_time result)).
  { destruct (Z.eqb_spec (nanos (result_end_time result)) 0) as [E | E];
      [symmetry; exact E | reflexivity]. }
  rewrite E1, E2. apply EndTime.end_time_ms_value; assumption.
Qed.

(* ------------------------------------------------------------------ *)
(** ** C1: the corrected time of a line *)

(** C1.  Whatever line [listen_print_loop] writes for a result that has an
    alternative carries [t - _bridging_offset + STREAMING_LIMIT *
    _restart_counter], where [t] is the end time of the result in
    milliseconds: for one response, and for every line of a whole loop
    with the offsets the loop is entered with.  With the limit 10000,
    one restart, an offset of 50 and a result ending at 3 s the number
    written is 12950.  The end time in milliseconds is
    [seconds * 1000 + nanos / 1000000], the fraction dropped: the float
    expression of the loop gives exactly that for every duration of at
    most 4000000 seconds with its nanoseconds below a second, and a
    response with such a duration is handled without an exception. *)
Theorem C1_corrected_time :
  (forall c response result alt t s s' out fl e g,
      top response = Some (result, alt) ->
      in_session_end_ms result = Val t ->
      handle_response c response s = Val (s', out, fl) ->
      In e out -> line_time e = Some g ->
      g = t - _bridging_offset s + STREAMING_LIMIT c * _restart_counter s) /\
  (forall c rs s s' out e g,
      listen_print_loop c rs s = Val (s', out) ->
      In e out -> line_time e = Some g ->
      exists response result alt t,
        In response rs /\ top response = Some (result, alt) /\
        in_session_end_ms result = Val t /\
        g = t - _bridging_offset s + STREAMING_LIMIT c * _restart_counter s) /\
  (forall s final text,
      _restart_counter s = 1 -> _bridging_offset s = 50 ->
      in_session_end_ms
        {| alternatives := [ {| transcript := text |} ]; is_final := final;
           result_end_time := {| seconds := 3; nanos := 0 |} |} = Val 3000 /\
      exists s' out fl e,
        handle_response defaults (single final 3 0 text) s = Val (s', out, fl) /\
        In e out /\ line_time e = Some 12950) /\
  (forall result,
      duration_in_range (result_end_time result) ->
      in_session_end_ms result = Val (millis (result_end_time result))) /\
  (forall c response result alt s,
      top response = Some (result, alt) ->
      duration_in_range (result_end_time result) ->
      exists s' out fl,
        handle_response c response s = Val (s', out, fl) /\
        forall e g,
          In e out -> line_time e = Some g ->
          g = millis (result_end_time result) - _bridging_offset s
              + STREAMING_LIMIT c * _restart_counter s) /\
  (forall c rs s s' out e g,
      Forall in_range rs ->
      listen_print_loop c rs s = Val (s', out) ->
      In e out -> line_time e = Some g ->
      exists response result alt,
        In response rs /\ top response = Some (result, alt) /\
        g = millis (result_end_time result) - _bridging_offset s
            + STREAMING_LIMIT c * _restart_counter s).
Proof.
  assert (One : forall c response result alt t s s' out fl e g,
      top response = Some (result, alt) ->
      in_session_end_ms result = Val t ->
      handle_response c response s = Val (s', out, fl) ->
      In e out -> line_time e = Some g ->
      g = t - _bridging_offset s + STREAMING_LIMIT c * _restart_counter s).
  { intros c response result alt t s s' out fl e g Ht Hm H Hin Hg.
    destruct (handle_response_lines c _ _ _ _ _ _ H Hin)
      as [-> | (result' & alt' & t' & Ht' & Hm' & Hl)]; [discriminate |].
    rewrite Ht in Ht'. injection Ht' as <- <-.
    rewrite Hm in Hm'. injection Hm' as <-.
    cbv zeta in Hl. destruct Hl as [[-> _] | [-> _]];
      injection Hg as <-; reflexivity. }
  assert (Ms : forall result,
      duration_in_range (result_end_time result) ->
      in_session_end_ms result = Val (millis (result_end_time result))).
  { intros result [Hs Hn]. exact (in_session_end_ms_value result Hs Hn). }
  split; [exact One |]. split; [| split; [| split; [exact Ms | split]]].
  - intros c rs s s' out e g H Hin Hg.
    destruct (listen_print_loop_lines c rs _ _ _ _ H Hin)
      as [-> | (response & result & alt & t & Hr & Ht & Hm & Hl)];
      [discriminate |].
    exists response, result, alt, t. repeat split; try assumption.
    cbv zeta in Hl. destruct Hl as [[-> _] | [-> _]];
      injection Hg as <-; reflexivity.
  - intros s final text Hr Hb.
    assert (Hm : in_session_end_ms
        {| alternatives := [ {| transcript := text |} ]; is_final := final;
           result_end_time := {| seconds := 3; nanos := 0 |} |} = Val 3000)
      by (vm_compute; reflexivity).
    split; [exact Hm |].
    rewrite (handle_response_top defaults (single final 3 0 text) _
               {| transcript := text |} _ s eq_refl Hm).
    cbv zeta. rewrite Hr, Hb.
    change (3000 - 50 + STREAMING_LIMIT defaults * 1) with 12950.
    change (is_final _) with final. destruct final.
    + change (3000 <? STREAMING_LIMIT defaults - WORKAROUND_WINDOW defaults)
        with true. cbv iota.
      change (transcript _) with text.
      destruct (Regex.stop_keyword text);
        do 3 eexists; exists (FinalLine 12950 text);
        (split; [reflexivity | split; [left; reflexivity | reflexivity]]).
    + do 3 eexists. exists (InterimLine 12950 text).
      split; [reflexivity | split; [left; reflexivity | reflexivity]].
  - intros c response result alt s Ht Hd.
    pose proof (Ms result Hd) as Hm.
    destruct (handle_response c response s) as [[[s' out] fl] | ex] eqn:E.
    + exists s', out, fl. split; [reflexivity |].
      intros e g Hin Hg.
      exact (One c response result alt _ s s' out fl e g Ht Hm E Hin Hg).
    + exfalso. rewrite (handle_response_top c _ _ _ _ s Ht Hm) in E.
      cbv zeta in E. destruct (is_final result).
      * destruct (_ <? _); [destruct (Regex.stop_keyword _) |]; discriminate E.
      * discriminate E.
  - intros c rs s s' out e g Hr H Hin Hg.
    destruct (listen_print_loop_lines c rs _ _ _ _ H Hin)
      as [-> | (response & result & alt & t & Hi & Ht & Hm & Hl)];
      [discriminate |].
    exists response, result, alt. split; [exact Hi |]. split; [exact Ht |].
    rewrite Forall_forall in Hr. specialize (Hr response Hi).
    unfold in_range in Hr. rewrite Ht in Hr.
    rewrite (Ms result Hr) in Hm. injection Hm as <-.
    cbv zeta in Hl. destruct Hl as [[-> _] | [-> _]];
      injection Hg as <-; reflexivity.
Qed.

Lemma C1_corrected_time_witness :
  let s := set_bridging_offset 50 (set_restart_counter 1 (enter (init 0))) in
  let response := single true 3 0 "hello" in
  (handle_response defaults response s
   = Val (set_last_transcript_was_final true
            (set_is_final_end_time 3000 (set_result_end_time 3000 s)),
          [FinalLine 12950 "hello"], Continue) /\
   12950
   = 3000 - _bridging_offset s + STREAMING_LIMIT defaults * _restart_counter s)
  /\
  in_session_end_ms
    {| alternatives := []; is_final := false;
       result_end_time := {| seconds := 3; nanos := 250999999 |} |}
  = Val 3250.
Proof.
  intros s response. split.
  - split; [vm_compute; reflexivity |].
    eapply (proj1 C1_corrected_time defaults response _ _ 3000 s
              _ _ _ (FinalLine 12950 "hello") 12950).
    + reflexivity.
    + vm_compute. reflexivity.
    + vm_compute. reflexivity.
    + left. reflexivity.
    + reflexivity.
  - apply (proj1 (proj2 (proj2 (proj2 C1_corrected_time)))).
    split; split; vm_compute; discriminate.
Defined.

(* ------------------------------------------------------------------ *)
(** ** C3 and C10: final results in the workaround window *)

(** A final result at or after [STREAMING_LIMIT - WORKAROUND_WINDOW] only
    has its end time stored. *)
Lemma handle_response_window (c : config) (response : StreamingRecognizeResponse)
  (result : StreamingRecognitionResult) (alt : SpeechRecognitionAlternative)
  (t : Z) (s : stream) :
  top response = Some (result, alt) ->
  is_final result = true ->
  in_session_end_ms result = Val t ->
  STREAMING_LIMIT c - WORKAROUND_WINDOW c <= t ->
  handle_response c response s = Val (set_result_end_time t s, [], Continue).
Proof.
  intros Ht Hf Hm Hw.
  rewrite (handle_response_top c _ _ _ _ s Ht Hm). cbv zeta. rewrite Hf.
  apply Z.ltb_ge in Hw. rewrite Hw. reflexivity.
Qed.

(** C10.  A final result that ends in the workaround window changes
    [_result_end_time] and nothing else: [_is_final_end_time],
    [_last_transcript_was_final] and [_closed] keep their values, nothing is
    written, the stop words are not looked for, and the loop goes on to the
    next response. *)
Theorem C10_window_frame (c : config) (response : StreamingRecognizeResponse)
  (result : StreamingRecognitionResult) (alt : SpeechRecognitionAlternative)
  (t : Z) (s : stream) :
  top response = Some (result, alt) ->
  is_final result = true ->
  in_session_end_ms result = Val t ->
  STREAMING_LIMIT c - WORKAROUND_WINDOW c <= t ->
  handle_response c response s = Val (set_result_end_time t s, [], Continue) /\
  (forall rest,
      listen_print_loop c (response :: rest) s
      = listen_print_loop c rest (set_result_end_time t s)) /\
  _is_final_end_time (set_result_end_time t s) = _is_final_end_time s /\
  _last_transcript_was_final (set_result_end_time t s)
  = _last_transcript_was_final s /\
  _closed (set_result_end_time t s) = _closed s.
Proof.
  intros Ht Hf Hm Hw.
  pose proof (handle_response_window c _ _ _ _ s Ht Hf Hm Hw) as H.
  split; [exact H |]. split; [| repeat split].
  intros rest. rewrite (listen_print_loop_cons c _ rest _ _ _ H).
  destruct (listen_print_loop c rest (set_result_end_time t s)) as [[s2 out2] |];
    reflexivity.
Qed.

Lemma C10_window_frame_witness :
  let s := enter (init 0) in
  let response := single true 9 850000000 "exit" in
  Regex.stop_keyword "exit" = true /\
  handle_response defaults response s = Val (set_result_end_time 9850 s, [], Continue) /\
  _closed (set_result_end_time 9850 s) = false.
Proof.
  intros s response. split; [vm_compute; reflexivity |].
  split; [| reflexivity].
  refine (proj1 (C10_window_frame defaults response
                   {| alternatives := [ {| transcript := "exit" |} ];
                      is_final := true;
                      result_end_time :=
                        {| seconds := 9; nanos := 850000000 |} |}
                   {| transcript := "exit" |} 9850 s eq_refl eq_refl _ _)).
  - vm_compute. reflexivity.
  - vm_compute. discriminate.
Defined.

(** C3.  A final result is written as a final line, and recorded in
    [_is_final_end_time] and [_last_transcript_was_final], only if it ends
    before [STREAMING_LIMIT - WORKAROUND_WINDOW]: one that ends at or after
    it writes nothing and leaves both fields alone, and every final line of
    a loop comes from a final result that ends before it.  With the limit
    10000 and the window 200 a final result at 9850 ms is dropped. *)
Theorem C3_boundary_suppression :
  (forall c response result alt t s s' out fl,
      top response = Some (result, alt) ->
      is_final result = true ->
      in_session_end_ms result = Val t ->
      handle_response c response s = Val (s', out, fl) ->
      (STREAMING_LIMIT c - WORKAROUND_WINDOW c <= t ->
         out = [] /\
         _is_final_end_time s' = _is_final_end_time s /\
         _last_transcript_was_final s' = _last_transcript_was_final s) /\
      (t < STREAMING_LIMIT c - WORKAROUND_WINDOW c ->
         In (FinalLine
               (t - _bridging_offset s + STREAMING_LIMIT c * _restart_counter s)
               (transcript alt)) out /\
         _is_final_end_time s' = t /\
         _last_transcript_was_final s' = true)) /\
  (forall c rs s s' out g text,
      listen_print_loop c rs s = Val (s', out) ->
      In (FinalLine g text) out ->
      exists response result alt t,
        In response rs /\ top response = Some (result, alt) /\
        is_final result = true /\ text = transcript alt /\
        in_session_end_ms result = Val t /\
        t < STREAMING_LIMIT c - WORKAROUND_WINDOW c) /\
  (forall s text,
      handle_response defaults (single true 9 850000000 text) s
      = Val (set_result_end_time 9850 s, [], Continue)).
Proof.
  split; [| split].
  - intros c response result alt t s s' out fl Ht Hf Hm H.
    rewrite (handle_response_top c _ _ _ _ s Ht Hm) in H. cbv zeta in H.
    rewrite Hf in H. split; intros Hw.
    + apply Z.ltb_ge in Hw. rewrite Hw in H. injection H as <- <- _.
      repeat split.
    + apply Z.ltb_lt in Hw. rewrite Hw in H.
      destruct (Regex.stop_keyword (transcript alt));
        injection H as <- <- _; repeat split; left; reflexivity.
  - intros c rs s s' out g text H Hin.
    destruct (listen_print_loop_lines c rs _ _ _ _ H Hin)
      as [E | (response & result & alt & t & Hr & Ht & Hm & Hl)];
      [discriminate |].
    cbv zeta in Hl. destruct Hl as [[E _] | (E & Hf & Hw)]; [discriminate |].
    injection E as _ ->.
    exists response, result, alt, t. repeat split; assumption.
  - intros s text.
    eapply (handle_response_window defaults (single true 9 850000000 text)
              _ _ 9850 s).
    + reflexivity.
    + reflexivity.
    + vm_compute. reflexivity.
    + vm_compute. discriminate.
Qed.

Lemma C3_boundary_suppression_witness :
  let s := enter (init 0) in
  let response := single true 9 850000000 "hello" in
  handle_response defaults response s = Val (set_result_end_time 9850 s, [], Continue) /\
  STREAMING_LIMIT defaults - WORKAROUND_WINDOW defaults <= 9850 /\
  _is_final_end_time (set_result_end_time 9850 s) = _is_final_end_time s.
Proof.
  intros s response.
  assert (H : handle_response defaults response s
              = Val (set_result_end_time 9850 s, [], Continue))
    by (vm_compute; reflexivity).
  assert (W : STREAMING_LIMIT defaults - WORKAROUND_WINDOW defaults <= 9850)
    by (vm_compute; discriminate).
  split; [exact H |]. split; [exact W |].
  refine (proj1 (proj2 (proj1 (proj1 C3_boundary_suppression defaults response
            {| alternatives := [ {| transcript := "hello" |} ];
               is_final := true;
               result_end_time := {| seconds := 9; nanos := 850000000 |} |}
            {| transcript := "hello" |} 9850 s _ _ _ eq_refl eq_refl _ H) W))).
  vm_compute. reflexivity.
Defined.

(* ------------------------------------------------------------------ *)
(** ** C4: the stop words *)

(** A final result with a stop word, in the workaround window: the loop
    goes on to the next response, the stream stays open and the next
    sub-session starts. *)
Lemma C4_counterexample :
  let tk := fun t => {| now := t; now_again := t;
                        first := Some [Byte.x00]; buffered := [] |} in
  let run :=
    [ {| ticks := [tk 100; tk 10001];
         responses := [single true 9 850000000 "exit";
                       single false 9 900000000 "still here"] |};
      {| ticks := [tk 10100];
         responses := [single false 1 0 "again"] |} ] in
  Regex.stop_keyword "exit" = true /\
  exists s',
    main defaults 0 run
    = Val (s', [NewRequest 0; InterimLine 9900 "still here"; Newline;
                NewRequest 10000; InterimLine 1000 "again"; Newline]) /\
    _closed s' = false.
Proof.
  intros tk run. split; [vm_compute; reflexivity |].
  eexists. split; vm_compute; reflexivity.
Qed.

Lemma handle_response_break (c : config) (response : StreamingRecognizeResponse)
  (s s' : stream) (out : list event) :
  handle_response c response s = Val (s', out, Break) -> _closed s' = true.
Proof.
  intros H. destruct (top response) as [[result alt] |] eqn:Et.
  - destruct (in_session_end_ms result) as [t | e] eqn:Em.
    + rewrite (handle_response_top c _ _ _ _ s Et Em) in H. cbv zeta in H.
      destruct (is_final result);
        [destruct (t <? STREAMING_LIMIT c - WORKAROUND_WINDOW c);
         [destruct (Regex.stop_keyword (transcript alt)) |] |];
        try discriminate.
      injection H as <- _. reflexivity.
    + unfold top, handle_response in *.
      destruct (results response) as [| r rs]; [discriminate |].
      destruct (alternatives r) as [| a al]; [discriminate |].
      injection Et as <- <-. rewrite Em in H. discriminate.
  - rewrite (handle_response_skip c _ s Et) in H. discriminate.
Qed.

Lemma handle_response_stops (c : config) (response : StreamingRecognizeResponse)
  (s : stream) :
  stops c response ->
  exists g text,
    handle_response c response s
    = Val (set_closed true
             (set_last_transcript_was_final true
                (set_is_final_end_time (g + _bridging_offset s
                                        - STREAMING_LIMIT c * _restart_counter s)
                   (set_result_end_time (g + _bridging_offset s
                                        - STREAMING_LIMIT c * _restart_counter s)
                      s))),
           [FinalLine g text; Exiting], Break).
Proof.
  intros (result & alt & t & Ht & Hf & Hm & Hw & Hk).
  exists (t - _bridging_offset s + STREAMING_LIMIT c * _restart_counter s),
    (transcript alt).
  rewrite (handle_response_top c _ _ _ _ s Ht Hm). cbv zeta.
  apply Z.ltb_lt in Hw. rewrite Hf, Hw, Hk.
  replace (t - _bridging_offset s + STREAMING_LIMIT c * _restart_counter s
           + _bridging_offset s - STREAMING_LIMIT c * _restart_counter s)
    with t by lia.
  reflexivity.
Qed.

Lemma listen_print_loop_closed (c : config)
  (response : StreamingRecognizeResponse) (rs : list StreamingRecognizeResponse) :
  stops c response -> In response rs ->
  forall s s' out, listen_print_loop c rs s = Val (s', out) -> _closed s' = true.
Proof.
  intros Hs. induction rs as [| r rest IH]; intros Hin s s' out H;
    [contradiction |].
  simpl in H.
  destruct (handle_response c r s) as [[[s1 out1] fl] | ex] eqn:Eh;
    [| discriminate].
  simpl in H. destruct fl.
  - destruct (listen_print_loop c rest s1) as [[s2 out2] | ex] eqn:El;
      [| discriminate].
    simpl in H. injection H as <- _.
    destruct Hin as [-> | Hin].
    + destruct (handle_response_stops c response s Hs) as (g & text & E).
      rewrite E in Eh. discriminate.
    + exact (IH Hin _ _ _ El).
  - injection H as <- _. exact (handle_response_break c _ _ _ _ Eh).
Qed.

Lemma listen_print_loop_cut (c : config)
  (response : StreamingRecognizeResponse) :
  stops c response ->
  forall pre post s,
    listen_print_loop c (pre ++ response :: post) s
    = listen_print_loop c (pre ++ [response]) s.
Proof.
  intros Hs pre post. induction pre as [| r pre IH]; intros s.
  - simpl. destruct (handle_response_stops c response s Hs) as (g & text & E).
    rewrite E. reflexivity.
  - simpl. destruct (handle_response c r s) as [[[s1 out1] fl] | ex];
      [| reflexivity].
    simpl. destruct fl; [| reflexivity]. rewrite IH. reflexivity.
Qed.

Lemma restart_closed (s : stream) : _closed (fst (restart s)) = _closed s.
Proof. unfold restart. destruct (_result_end_time s >? 0); reflexivity. Qed.

Lemma main_loop_closed (c : config) (run : list sub_session) (s : stream) :
  _closed s = true -> main_loop c run s = Val (s, []).
Proof. intros H. destruct run; simpl; [| rewrite H]; reflexivity. Qed.

(** What a sub-session is made of. *)
Lemma session_body_inv (c : config) (i : sub_session) (s s1 : stream)
  (out1 : list event) :
  session_body c i s = Val (s1, out1) ->
  exists ys sg sl outl,
    generator c (ticks i) (set_audio_input [] s) = Val (ys, sg) /\
    listen_print_loop c (responses i) sg = Val (sl, outl) /\
    s1 = fst (restart sl) /\
    out1 = NewRequest (STREAMING_LIMIT c * _restart_counter s)
           :: outl ++ snd (restart sl).
Proof.
  unfold session_body. intros H.
  destruct (generator c (ticks i) (set_audio_input [] s))
    as [[ys sg] | ex] eqn:Eg; [| discriminate].
  unfold bind in H. cbv beta iota in H.
  destruct (listen_print_loop c (responses i) sg) as [[sl outl] | ex] eqn:El;
    [| discriminate].
  destruct (restart sl) as [sr outr] eqn:Er. injection H as <- <-.
  exists ys, sg, sl, outl. rewrite Er. repeat split; assumption.
Qed.

(** C4, amended.  A final result that ends before the workaround window and
    carries "exit" or "quit" as a whole word, in any case, ends the run
    once its line is written: the line and the notice are the last things
    the loop writes, the stream is marked closed, the responses after it
    are not read, and no sub-session follows the one it arrives in. *)
Theorem C4_stop_keyword (c : config) (response : StreamingRecognizeResponse) :
  stops c response ->
  (forall s, exists g text s',
      handle_response c response s
      = Val (s', [FinalLine g text; Exiting], Break) /\ _closed s' = true) /\
  (forall pre post s,
      listen_print_loop c (pre ++ response :: post) s
      = listen_print_loop c (pre ++ [response]) s) /\
  (forall i rest s s1 out1,
      In response (responses i) ->
      _closed s = false ->
      session_body c i s = Val (s1, out1) ->
      _closed s1 = true /\ main_loop c (i :: rest) s = Val (s1, out1)).
Proof.
  intros Hs. split; [| split].
  - intros s. destruct (handle_response_stops c response s Hs) as (g & text & E).
    exists g, text. eexists. split; [exact E | reflexivity].
  - exact (listen_print_loop_cut c response Hs).
  - intros i rest s s1 out1 Hin Hc H.
    assert (C1 : _closed s1 = true).
    { destruct (session_body_inv c i s s1 out1 H)
        as (ys & sg & sl & outl & _ & El & -> & _).
      rewrite restart_closed.
      exact (listen_print_loop_closed c response _ Hs Hin _ _ _ El). }
    split; [exact C1 |].
    simpl. rewrite Hc, H. simpl. rewrite (main_loop_closed c rest s1 C1).
    simpl. rewrite app_nil_r. reflexivity.
Qed.

Lemma C4_stop_keyword_witness :
  let response := single true 5 0 "please Quit now" in
  stops defaults response /\
  forall post s,
    listen_print_loop defaults (response :: post) s
    = listen_print_loop defaults [response] s.
Proof.
  intros response.
  assert (Hs : stops defaults response).
  { eexists _, _, 5000. repeat split; vm_compute; reflexivity. }
  split; [exact Hs |].
  intros post s.
  exact (proj1 (proj2 (C4_stop_keyword defaults response Hs)) [] post s).
Defined.

(* ================================================================== *)
(** * The restart bookkeeping *)
(* ================================================================== *)

(** Two sub-sessions.  The first sees a final result and then an interim
    one that reports no end time: [_final_request_end_time] stays at 0.
    The second sees one interim result and no final one:
    [_final_request_end_time] moves to the 5000 left in
    [_is_final_end_time] by the first. *)
Lemma C7_counterexample :
  let tk := fun t => {| now := t; now_again := t;
                        first := Some [Byte.x00]; buffered := [] |} in
  let first_session :=
    {| ticks := [tk 100; tk 10001];
       responses := [single true 5 0 "hello"; single false 0 0 "h"] |} in
  let second_session :=
    {| ticks := [tk 10100; tk 20002];
       responses := [single false 1 0 "again"] |} in
  exists s1 out1 s2 out2,
    session_body defaults first_session (enter (init 0)) = Val (s1, out1) /\
    In (FinalLine 5000 "hello") out1 /\
    _final_request_end_time s1 = _final_request_end_time (enter (init 0)) /\
    session_body defaults second_session s1 = Val (s2, out2) /\
    final_times out2 = [] /\
    _final_request_end_time s1 = 0 /\
    _final_request_end_time s2 = 5000.
Proof.
  intros tk first_session second_session.
  do 4 eexists.
  split; [vm_compute; reflexivity |].
  split; [vm_compute; auto |].
  split; [reflexivity |].
  split; [vm_compute; reflexivity |].
  repeat split.
Qed.

(** C7, amended.  When the loop over the responses of a sub-session has
    returned, [_final_request_end_time] takes the value of
    [_is_final_end_time] if and only if [_result_end_time] is positive, and
    in every case the audio of the sub-session becomes [_last_audio_input],
    [_audio_input] is emptied, [_result_end_time] is reset to zero,
    [_restart_counter] grows by one and [_new_stream] is set; the other
    fields are kept. *)
Theorem C7_restart_bookkeeping (s : stream) :
  fst (restart s) =
  {| _closed := _closed s;
     _start_time := _start_time s;
     _restart_counter := _restart_counter s + 1;
     _audio_input := [];
     _last_audio_input := _audio_input s;
     _result_end_time := 0;
     _is_final_end_time := _is_final_end_time s;
     _final_request_end_time :=
       if _result_end_time s >? 0 then _is_final_end_time s
       else _final_request_end_time s;
     _bridging_offset := _bridging_offset s;
     _last_transcript_was_final := _last_transcript_was_final s;
     _new_stream := true |}.
Proof. unfold restart. destruct (_result_end_time s >? 0); reflexivity. Qed.

(* ================================================================== *)
(** * The clamp *)
(* ================================================================== *)

Lemma clamp_bridging_offset_value (s : stream) :
  clamp_bridging_offset s =
  set_bridging_offset
    (Z.min (Z.max (_bridging_offset s) 0) (_final_request_end_time s)) s.
Proof.
  unfold clamp_bridging_offset. destruct s as [cl st rc ai la re ie fr bo lf ns].
  cbn [_bridging_offset _final_request_end_time set_bridging_offset].
  destruct (Z.ltb_spec bo 0) as [E1 | E1];
    cbn [_bridging_offset _final_request_end_time set_bridging_offset];
    rewrite Z.gtb_ltb;
    [destruct (Z.ltb_spec fr 0) as [E2 | E2]
    | destruct (Z.ltb_spec fr bo) as [E2 | E2]];
    unfold set_bridging_offset;
    cbn [_closed _start_time _restart_counter _audio_input _last_audio_input
         _result_end_time _is_final_end_time _final_request_end_time
         _bridging_offset _last_transcript_was_final _new_stream];
    f_equal; lia.
Qed.

(** C8.  Right after the two guarded assignments that open the bridging
    computation, [_bridging_offset] lies between zero and
    [_final_request_end_time], whatever it was before and whatever the
    stream holds; the end time itself is that of the previous sub-session
    and is not negative. *)
Theorem C8_clamped_offset (s : stream) :
  0 <= _final_request_end_time s ->
  0 <= _bridging_offset (clamp_bridging_offset s)
  <= _final_request_end_time (clamp_bridging_offset s) /\
  _final_request_end_time (clamp_bridging_offset s)
  = _final_request_end_time s.
Proof.
  intros H. rewrite clamp_bridging_offset_value.
  cbn [_bridging_offset _final_request_end_time set_bridging_offset]. lia.
Qed.

Lemma C8_clamped_offset_witness :
  let s := set_final_request_end_time 8000
             (set_bridging_offset 9000 (enter (init 0))) in
  0 <= _final_request_end_time s /\
  0 <= _bridging_offset (clamp_bridging_offset s)
  <= _final_request_end_time (clamp_bridging_offset s).
Proof.
  intros s.
  assert (H : 0 <= _final_request_end_time s) by (vm_compute; discriminate).
  split; [exact H |]. exact (proj1 (C8_clamped_offset s H)).
Defined.

(* ================================================================== *)
(** * The bridging block *)
(* ================================================================== *)

Lemma replay_clamped (ct : Q) (s : stream) (data : list chunk) :
  replay ct s data =
  let F := _final_request_end_time s in
  let n := Z.of_nat (length (_last_audio_input s)) in
  x <- Py.int_to_float (F - Spec.clamp (_bridging_offset s) 0 F) ;;
  q <- Py.float_div x ct ;;
  k <- Py.int_to_float (n - Py.round q) ;;
  p <- Py.float_mul k ct ;;
  data' <- Py.gather (_last_audio_input s) (Py.range (Py.round q) n) data ;;
  Val (set_bridging_offset (Py.round p) (clamp_bridging_offset s), data').
Proof.
  unfold replay. rewrite clamp_bridging_offset_value. reflexivity.
Qed.

Lemma sizes_L (c : config) (s : stream) :
  sizes_ok c s -> 1 <= STREAMING_LIMIT c <= 2 ^ 62.
Proof. intros H. apply H. Qed.

Lemma sizes_n (c : config) (s : stream) :
  sizes_ok c s -> _last_audio_input s <> [] ->
  1 <= Z.of_nat (length (_last_audio_input s)) <= 2 ^ 50.
Proof.
  intros (_ & H & _) Hp. split; [| exact H].
  destruct (_last_audio_input s); [congruence | simpl; lia].
Qed.

Lemma sizes_X (c : config) (s : stream) :
  sizes_ok c s ->
  0 <= _final_request_end_time s
       - Spec.clamp (_bridging_offset s) 0 (_final_request_end_time s)
  <= 2 ^ 62.
Proof. intros (_ & _ & H). unfold Spec.clamp. lia. Qed.

Lemma replay_val (c : config) (s : stream) (data : list chunk) :
  sizes_ok c s -> _last_audio_input s <> [] ->
  let L := STREAMING_LIMIT c in
  let n := Z.of_nat (length (_last_audio_input s)) in
  let X := _final_request_end_time s
           - Spec.clamp (_bridging_offset s) 0 (_final_request_end_time s) in
  replay (chunk_time L n) s data
  = Val (set_bridging_offset (next_offset L n X) (clamp_bridging_offset s),
         data ++ Spec.replayWindow (chunks_from L n X) (_last_audio_input s)).
Proof.
  intros Hs Hp L n X.
  pose proof (sizes_L c s Hs) as HL. pose proof (sizes_n c s Hs Hp) as Hn.
  pose proof (sizes_X c s Hs) as HX. fold L in HL. fold n in Hn. fold X in HX.
  rewrite replay_clamped. cbv zeta. fold n X.
  unfold next_offset, chunks_from, chunk_time, Spec.replayWindow, Py.round.
  rewrite (ReplayArith.x_val L n X HX), bind_Val.
  rewrite (ReplayArith.q_val L n HL Hn X HX), bind_Val.
  rewrite (ReplayArith.k_val L n HL Hn X HX), bind_Val.
  rewrite (ReplayArith.p_val L n HL Hn X HX), bind_Val.
  pose proof (ReplayArith.idx_nonneg L n HL Hn X HX) as I0.
  pose proof (PyLists.gather_range (_last_audio_input s) _ data I0) as G.
  fold n in G. rewrite G, bind_Val. reflexivity.
Qed.

Lemma chunksFromIndex_val (c : config) (s : stream) :
  sizes_ok c s -> _last_audio_input s <> [] ->
  let L := STREAMING_LIMIT c in
  let n := Z.of_nat (length (_last_audio_input s)) in
  let X := _final_request_end_time s
           - Spec.clamp (_bridging_offset s) 0 (_final_request_end_time s) in
  Spec.chunksFromIndex c (_final_request_end_time s) (_bridging_offset s) n
  = Val (chunks_from L n X).
Proof.
  intros Hs Hp L n X.
  pose proof (sizes_L c s Hs) as HL. pose proof (sizes_n c s Hs Hp) as Hn.
  pose proof (sizes_X c s Hs) as HX. fold L in HL. fold n in Hn. fold X in HX.
  unfold Spec.chunksFromIndex, Spec.chunkDurationMs. fold L X.
  unfold chunks_from, chunk_time, Py.round.
  rewrite (ReplayArith.chunkTime_val L n HL Hn), bind_Val.
  rewrite (ReplayArith.x_val L n X HX), bind_Val.
  rewrite (ReplayArith.q_val L n HL Hn X HX), bind_Val.
  reflexivity.
Qed.

Lemma newBridgingOffsetMs_val (c : config) (s : stream) :
  sizes_ok c s -> _last_audio_input s <> [] ->
  let L := STREAMING_LIMIT c in
  let n := Z.of_nat (length (_last_audio_input s)) in
  let X := _final_request_end_time s
           - Spec.clamp (_bridging_offset s) 0 (_final_request_end_time s) in
  Spec.newBridgingOffsetMs c (_final_request_end_time s) (_bridging_offset s) n
  = Val (next_offset L n X).
Proof.
  intros Hs Hp L n X.
  pose proof (sizes_L c s Hs) as HL. pose proof (sizes_n c s Hs Hp) as Hn.
  pose proof (sizes_X c s Hs) as HX. fold L in HL. fold n in Hn. fold X in HX.
  unfold Spec.newBridgingOffsetMs, Spec.chunkDurationMs. fold L.
  rewrite (ReplayArith.chunkTime_val L n HL Hn), bind_Val.
  pose proof (chunksFromIndex_val c s Hs Hp) as I. cbv zeta in I.
  fold L n X in I. rewrite I, bind_Val.
  unfold next_offset, chunks_from, chunk_time, Py.round.
  rewrite (ReplayArith.k_val L n HL Hn X HX), bind_Val.
  rewrite (ReplayArith.p_val L n HL Hn X HX), bind_Val.
  reflexivity.
Qed.

(** The bridging block on a restart with a non-empty history. *)
Lemma bridge_val (c : config) (s : stream) :
  sizes_ok c s -> _last_audio_input s <> [] -> _new_stream s = true ->
  let L := STREAMING_LIMIT c in
  let n := Z.of_nat (length (_last_audio_input s)) in
  let X := _final_request_end_time s
           - Spec.clamp (_bridging_offset s) 0 (_final_request_end_time s) in
  bridge c s
  = Val (set_new_stream false
           (set_bridging_offset (next_offset L n X) (clamp_bridging_offset s)),
         Spec.replayWindow (chunks_from L n X) (_last_audio_input s)).
Proof.
  intros Hs Hp Hnew L n X.
  pose proof (sizes_L c s Hs) as HL. pose proof (sizes_n c s Hs Hp) as Hn.
  fold L in HL. fold n in Hn.
  unfold bridge. rewrite Hnew. fold n L.
  destruct (Z.eqb_spec n 0) as [E | _]; [lia |].
  rewrite andb_true_l. change (negb false) with true. cbv iota.
  rewrite (ReplayArith.chunkTime_val L n HL Hn), bind_Val.
  rewrite (ReplayArith.chunkTime_nonzero L n HL Hn).
  change (negb false) with true. cbv iota.
  pose proof (replay_val c s [] Hs Hp) as R. cbv zeta in R. fold L n X in R.
  unfold chunk_time in R at 1. rewrite R, bind_Val. reflexivity.
Qed.

(* ================================================================== *)
(** * One pass of the generator *)
(* ================================================================== *)

Lemma drain_audio (more : list bytes) :
  forall data hist,
    drain (map Some more) data hist
    = (data ++ map Some more, hist ++ map Some more, false).
Proof.
  induction more as [| b more IH]; intros data hist; simpl.
  - rewrite !app_nil_r. reflexivity.
  - rewrite IH, <- !app_assoc. reflexivity.
Qed.

Lemma pieces_audio (l : list bytes) : pieces (map Some l) = Val l.
Proof.
  induction l as [| b l IH]; simpl; [reflexivity |]. rewrite IH. reflexivity.
Qed.

(** A pass that finds audio in the queue and no end marker yields what the
    bridging block collected, followed by the new chunks. *)
Lemma generator_pass_yield (c : config) (t : tick) (s s1 : stream)
  (replayed : list bytes) (b0 : bytes) (more : list bytes) :
  _closed s = false ->
  now t - _start_time s <= STREAMING_LIMIT c ->
  bridge c s = Val (s1, map Some replayed) ->
  first t = Some b0 ->
  buffered t = map Some more ->
  generator_pass c t s
  = Val (Yield (replayed ++ b0 :: more)
           (set_audio_input (_audio_input s1 ++ map Some (b0 :: more)) s1)).
Proof.
  intros Hc Ht Hb Hf Hm. unfold generator_pass. rewrite Hc, Hb, Hf, Hm.
  rewrite Z.gtb_ltb. destruct (Z.ltb_spec (STREAMING_LIMIT c)
                                 (now t - _start_time s)) as [N | _]; [lia |].
  rewrite bind_Val. cbv beta iota zeta.
  rewrite drain_audio.
  change (_audio_input (set_audio_input ?v ?x)) with v.
  change (map Some replayed ++ [Some b0]) with
    (map Some replayed ++ map Some [b0]).
  rewrite <- app_assoc, <- !map_app, pieces_audio, bind_Val.
  cbn [app]. f_equal. f_equal.
  rewrite <- app_assoc. reflexivity.
Qed.

(** When the bridging block collects nothing, a pass that reaches it goes on
    as a pass without the block. *)
Lemma generator_pass_plain (c : config) (t : tick) (s s1 : stream) :
  bridge c s = Val (s1, []) ->
  _closed s = false -> _closed s1 = false ->
  _start_time s1 = _start_time s ->
  now t - _start_time s <= STREAMING_LIMIT c ->
  generator_pass c t s = plain_pass c t s1.
Proof.
  intros Hb Hc Hc1 Hs Ht. unfold generator_pass, plain_pass.
  rewrite Hb, Hc, Hc1, Hs, Z.gtb_ltb.
  destruct (Z.ltb_spec (STREAMING_LIMIT c) (now t - _start_time s))
    as [N | _]; [lia |].
  rewrite bind_Val. reflexivity.
Qed.

Lemma generator_pass_early (c : config) (t : tick) (s : stream) :
  _closed s = true \/ STREAMING_LIMIT c < now t - _start_time s ->
  generator_pass c t s = plain_pass c t s.
Proof.
  intros H. unfold generator_pass, plain_pass.
  destruct (_closed s); [reflexivity |].
  destruct H as [H | H]; [discriminate |].
  rewrite Z.gtb_ltb.
  destruct (Z.ltb_spec (STREAMING_LIMIT c) (now t - _start_time s))
    as [_ | N]; [reflexivity | lia].
Qed.

(* ================================================================== *)
(** * The replay on a restart *)
(* ================================================================== *)

Lemma replayWindow_audio (i : Z) (prev : list bytes) :
  Spec.replayWindow i (map Some prev) = map Some (Spec.replayWindow i prev).
Proof. unfold Spec.replayWindow. apply skipn_map. Qed.

Lemma audio_nonempty (prev : list bytes) :
  prev <> [] -> map Some prev <> [].
Proof. destruct prev; [congruence | discriminate]. Qed.

(** The restart pass as a whole, for a history without end marker. *)
Lemma restart_pass (c : config) (s : stream) (prev : list bytes) :
  sizes_ok c s -> _new_stream s = true ->
  _last_audio_input s = map Some prev -> prev <> [] ->
  let L := STREAMING_LIMIT c in
  let n := Z.of_nat (length prev) in
  let X := _final_request_end_time s
           - Spec.clamp (_bridging_offset s) 0 (_final_request_end_time s) in
  Spec.chunksFromIndex c (_final_request_end_time s) (_bridging_offset s) n
  = Val (chunks_from L n X) /\
  Spec.newBridgingOffsetMs c (_final_request_end_time s) (_bridging_offset s) n
  = Val (next_offset L n X) /\
  0 <= chunks_from L n X /\
  bridge c s
  = Val (set_new_stream false
           (set_bridging_offset (next_offset L n X) (clamp_bridging_offset s)),
         map Some (Spec.replayWindow (chunks_from L n X) prev)) /\
  forall t b0 more,
    _closed s = false ->
    now t - _start_time s <= STREAMING_LIMIT c ->
    first t = Some b0 -> buffered t = map Some more ->
    generator_pass c t s
    = Val (Yield (Spec.replayWindow (chunks_from L n X) prev ++ b0 :: more)
             (set_audio_input (_audio_input s ++ map Some (b0 :: more))
                (set_new_stream false
                   (set_bridging_offset (next_offset L n X)
                      (clamp_bridging_offset s))))).
Proof.
  intros Hs Hnew Hprev Hne L n X.
  assert (Hp : _last_audio_input s <> []).
  { rewrite Hprev. apply audio_nonempty. exact Hne. }
  assert (Hn : Z.of_nat (length (_last_audio_input s)) = n).
  { rewrite Hprev, length_map. reflexivity. }
  pose proof (chunksFromIndex_val c s Hs Hp) as I.
  pose proof (newBridgingOffsetMs_val c s Hs Hp) as B.
  pose proof (bridge_val c s Hs Hp Hnew) as G.
  cbv zeta in I, B, G. rewrite Hn in I, B, G. fold L X in I, B, G.
  rewrite Hprev, replayWindow_audio in G.
  pose proof (ReplayArith.idx_nonneg L n (sizes_L c s Hs)
                ltac:(rewrite <- Hn; exact (sizes_n c s Hs Hp))
                X (sizes_X c s Hs)) as I0.
  repeat split; try assumption.
  intros t b0 more Hc Ht Hf Hm.
  rewrite (generator_pass_yield c t s _ _ b0 more Hc Ht G Hf Hm).
  f_equal. f_equal. f_equal.
  rewrite clamp_bridging_offset_value. reflexivity.
Qed.

(** C2.  On a restart with a non-empty history the bridging block does what
    the specification says, in that order: the chunk duration is the limit
    divided by the number of chunks and is not zero; the offset is clamped
    into [[0, _final_request_end_time]]; the first chunk replayed is
    [round((_final_request_end_time - _bridging_offset) / chunkTime)]; the
    offset becomes [round((count - chunksFromMS) * chunkTime)]; and the
    chunks from that index on come first in what the pass yields.  None of
    the float operations raises for sizes within [sizes_ok].  With 100
    chunks, the limit 10000, an end time of 8000 and an offset of 0 the
    index is 80, chunks 80 to 99 are replayed and the offset becomes
    2000. *)
Theorem C2_replay_computation :
  (forall c s prev,
      sizes_ok c s -> _new_stream s = true ->
      _last_audio_input s = map Some prev -> prev <> [] ->
      let count := Z.of_nat (length prev) in
      let finalResultEndTimeMs := _final_request_end_time s in
      exists chunkDurationMs chunksFromIndex bridgingOffsetMs,
        Spec.chunkDurationMs c count = Val chunkDurationMs /\
        ~ (chunkDurationMs == 0)%Q /\
        _bridging_offset (clamp_bridging_offset s)
        = Spec.clamp (_bridging_offset s) 0 finalResultEndTimeMs /\
        Spec.chunksFromIndex c finalResultEndTimeMs (_bridging_offset s) count
        = Val chunksFromIndex /\
        0 <= chunksFromIndex /\
        Spec.newBridgingOffsetMs c finalResultEndTimeMs (_bridging_offset s)
          count = Val bridgingOffsetMs /\
        bridge c s
        = Val (set_new_stream false
                 (set_bridging_offset bridgingOffsetMs
                    (clamp_bridging_offset s)),
               map Some (Spec.replayWindow chunksFromIndex prev)) /\
        forall t b0 more,
          _closed s = false ->
          now t - _start_time s <= STREAMING_LIMIT c ->
          first t = Some b0 -> buffered t = map Some more ->
          exists s',
            generator_pass c t s
            = Val (Yield (Spec.replayWindow chunksFromIndex prev
                          ++ b0 :: more) s') /\
            _bridging_offset s' = bridgingOffsetMs) /\
  (forall s prev,
      _new_stream s = true ->
      _last_audio_input s = map Some prev -> length prev = 100%nat ->
      _final_request_end_time s = 8000 -> _bridging_offset s = 0 ->
      Spec.chunksFromIndex defaults 8000 0 100 = Val 80 /\
      Spec.newBridgingOffsetMs defaults 8000 0 100 = Val 2000 /\
      bridge defaults s
      = Val (set_new_stream false (set_bridging_offset 2000 s),
             map Some (skipn 80 prev))).
Proof.
  split.
  - intros c s prev Hs Hnew Hprev Hne count F.
    destruct (restart_pass c s prev Hs Hnew Hprev Hne)
      as (I & B & I0 & G & P).
    assert (Hp : _last_audio_input s <> []).
    { rewrite Hprev. apply audio_nonempty. exact Hne. }
    assert (Hn : Z.of_nat (length (_last_audio_input s)) = count).
    { rewrite Hprev, length_map. reflexivity. }
    pose proof (sizes_n c s Hs Hp) as Hcount. rewrite Hn in Hcount.
    exists (chunk_time (STREAMING_LIMIT c) count).
    eexists. eexists.
    split; [exact (ReplayArith.chunkTime_val _ _ (sizes_L c s Hs) Hcount) |].
    split.
    { intros E. apply Qeq_eq_bool in E. unfold chunk_time in E.
      rewrite (ReplayArith.chunkTime_nonzero _ _ (sizes_L c s Hs) Hcount) in E.
      discriminate. }
    split; [rewrite clamp_bridging_offset_value; reflexivity |].
    split; [exact I |]. split; [exact I0 |]. split; [exact B |].
    split; [exact G |].
    intros t b0 more Hc Ht Hf Hm. eexists.
    split; [exact (P t b0 more Hc Ht Hf Hm) | reflexivity].
  - intros s prev Hnew Hprev Hlen HF Hb.
    assert (Hne : prev <> [])
      by (intros E; rewrite E in Hlen; discriminate Hlen).
    assert (Hs : sizes_ok defaults s).
    { unfold sizes_ok. rewrite Hprev, length_map, Hlen, HF.
      cbn [STREAMING_LIMIT defaults]. lia. }
    pose proof (restart_pass defaults s prev Hs Hnew Hprev Hne) as R.
    cbv zeta in R. destruct R as (_ & _ & _ & G & _).
    rewrite Hlen, HF, Hb in G.
    assert (C1 : chunks_from (STREAMING_LIMIT defaults) (Z.of_nat 100)
                   (8000 - Spec.clamp 0 0 8000) = 80)
      by (vm_compute; reflexivity).
    assert (C2 : next_offset (STREAMING_LIMIT defaults) (Z.of_nat 100)
                   (8000 - Spec.clamp 0 0 8000) = 2000)
      by (vm_compute; reflexivity).
    rewrite C1, C2 in G. rewrite G, clamp_bridging_offset_value, HF, Hb.
    split; [vm_compute; reflexivity |].
    split; [vm_compute; reflexivity |]. reflexivity.
Qed.

Lemma C2_replay_computation_witness :
  let prev := map (fun k => repeat Byte.x01 k) (seq 0 100) in
  let s := set_final_request_end_time 8000
             (set_last_audio_input (map Some prev) (enter (init 0))) in
  let t := {| now := 100; now_again := 100;
              first := Some [Byte.x02]; buffered := [] |} in
  generator_pass defaults t s
  = Val (Yield (skipn 80 prev ++ [[Byte.x02]])
           (set_audio_input [Some [Byte.x02]]
              (set_new_stream false (set_bridging_offset 2000 s)))) /\
  bridge defaults s
  = Val (set_new_stream false (set_bridging_offset 2000 s),
         map Some (skipn 80 prev)).
Proof.
  intros prev s t. split; [vm_compute; reflexivity |].
  exact (proj2 (proj2 (proj2 C2_replay_computation s prev
                         eq_refl eq_refl eq_refl eq_refl eq_refl))).
Defined.

(** C5 as the specification words it fails in two ways.  The time of a
    chunk is estimated as the limit over the number of chunks and the
    index is rounded to the nearest integer: with 102 chunks of 100 ms
    recorded and [_final_request_end_time] at 8000, the index is 82, and
    chunk 81, recorded from 8100 ms on, is neither replayed nor yielded.
    And the cut is the state field: after a sub-session that saw interim
    results only it still holds the 8000 of the sub-session before, and
    with the offset 2000 the first six of its ten chunks are not
    replayed. *)
Lemma C5_counterexample :
  (let prev := map (fun k => repeat Byte.x01 k) (seq 0 102) in
   let s := set_final_request_end_time 8000
              (set_last_audio_input (map Some prev) (enter (init 0))) in
   let t := {| now := 100; now_again := 100;
               first := Some [Byte.x02]; buffered := [] |} in
   CHUNK_SIZE = Val 1600 /\
   nth_error prev 81 = Some (repeat Byte.x01 81) /\
   _final_request_end_time s < chunk_start_ms 1600 81 /\
   exists s1 s2 data,
     bridge defaults s = Val (s1, map Some (skipn 82 prev)) /\
     generator_pass defaults t s = Val (Yield data s2) /\
     ~ In (repeat Byte.x01 81) data) /\
  (let tk := fun t k => {| now := t; now_again := t;
                           first := Some (repeat Byte.x01 k);
                           buffered := [] |} in
   let before :=
     {| ticks := map (fun k => tk (100 * Z.of_nat k) k) (seq 1 10)
                 ++ [tk 10001 0%nat];
        responses := [single true 8 0 "a"] |} in
   let previous :=
     {| ticks := map (fun k => tk (10001 + 100 * Z.of_nat k) (10 + k)%nat)
                   (seq 1 10)
                 ++ [tk 20002 0%nat];
        responses := [single false 1 0 "b"] |} in
   exists s1 out1 s2 out2 s3,
     session_body defaults before (enter (init 0)) = Val (s1, out1) /\
     session_body defaults previous s1 = Val (s2, out2) /\
     final_times out2 = [] /\
     _final_request_end_time s2 = 8000 /\
     length (_last_audio_input s2) = 10%nat /\
     bridge defaults s2 = Val (s3, skipn 6 (_last_audio_input s2))).
Proof.
  split.
  - intros prev s t.
    split; [vm_compute; reflexivity |].
    split; [vm_compute; reflexivity |].
    split; [vm_compute; reflexivity |].
    do 3 eexists.
    split; [vm_compute; reflexivity |].
    split; [vm_compute; reflexivity |].
    intros H. apply (in_map (@length Byte.byte)) in H.
    vm_compute in H.
    repeat (destruct H as [H | H]; [discriminate H |]). exact H.
  - intros tk before previous.
    do 5 eexists.
    split; [vm_compute; reflexivity |].
    split; [vm_compute; reflexivity |].
    split; [reflexivity |].
    split; [reflexivity |].
    split; [reflexivity |].
    vm_compute. reflexivity.
Qed.

(** C5, amended.  On a restart, every chunk of the previous sub-session
    whose estimated start is at or after the cut is in the replay window,
    and so in what the first pass of the new sub-session yields, ahead of
    the new audio.  The start of chunk [j] of [count] chunks is estimated
    as [j * limit / count]; the cut is [_final_request_end_time], as the
    state holds it, less the clamped offset.  In particular every chunk
    whose estimated start is at least [_final_request_end_time] itself is
    replayed. *)
Theorem C5_no_chunk_lost (c : config) (s : stream) (prev : list bytes)
  (j : nat) (chunk_j : bytes) :
  sizes_ok c s -> _new_stream s = true ->
  _last_audio_input s = map Some prev ->
  nth_error prev j = Some chunk_j ->
  let count := Z.of_nat (length prev) in
  let finalResultEndTimeMs := _final_request_end_time s in
  let bridgingOffsetMs := _bridging_offset (clamp_bridging_offset s) in
  (finalResultEndTimeMs - bridgingOffsetMs) * count
  <= Z.of_nat j * STREAMING_LIMIT c \/
  0 <= finalResultEndTimeMs /\
  finalResultEndTimeMs * count <= Z.of_nat j * STREAMING_LIMIT c ->
  exists chunksFromIndex next,
    bridge c s
    = Val (set_new_stream false
             (set_bridging_offset next (clamp_bridging_offset s)),
           map Some (Spec.replayWindow chunksFromIndex prev)) /\
    0 <= chunksFromIndex <= Z.of_nat j /\
    nth_error (Spec.replayWindow chunksFromIndex prev)
      (j - Z.to_nat chunksFromIndex) = Some chunk_j /\
    forall t b0 more,
      _closed s = false ->
      now t - _start_time s <= STREAMING_LIMIT c ->
      first t = Some b0 -> buffered t = map Some more ->
      exists s',
        generator_pass c t s
        = Val (Yield (Spec.replayWindow chunksFromIndex prev ++ b0 :: more)
                 s') /\
        nth_error (Spec.replayWindow chunksFromIndex prev ++ b0 :: more)
          (j - Z.to_nat chunksFromIndex) = Some chunk_j.
Proof.
  intros Hs Hnew Hprev Hj count F b Hcut.
  assert (Hlt : (j < length prev)%nat) by (apply nth_error_Some; congruence).
  assert (Hne : prev <> []) by (intros E; rewrite E in Hlt; simpl in Hlt; lia).
  assert (Hp : _last_audio_input s <> []).
  { rewrite Hprev. apply audio_nonempty. exact Hne. }
  assert (Hn : Z.of_nat (length (_last_audio_input s)) = count).
  { rewrite Hprev, length_map. reflexivity. }
  pose proof (sizes_n c s Hs Hp) as Hcount. rewrite Hn in Hcount.
  pose proof (sizes_L c s Hs) as HL. pose proof (sizes_X c s Hs) as HX.
  assert (Hb : b = Spec.clamp (_bridging_offset s) 0 F).
  { unfold b. rewrite clamp_bridging_offset_value. reflexivity. }
  assert (Hcut' : (F - Spec.clamp (_bridging_offset s) 0 F) * count
                  <= Z.of_nat j * STREAMING_LIMIT c).
  { rewrite <- Hb. destruct Hcut as [H | [H0 H]]; [exact H |].
    assert (0 <= b <= F) by (rewrite Hb; unfold Spec.clamp; lia). nia. }
  pose proof (restart_pass c s prev Hs Hnew Hprev Hne) as R. cbv zeta in R.
  fold count F in R. destruct R as (_ & _ & I0 & G & P).
  assert (Ij : chunks_from (STREAMING_LIMIT c) count
                 (F - Spec.clamp (_bridging_offset s) 0 F) <= Z.of_nat j).
  { unfold chunks_from, chunk_time.
    exact (ReplayArith.idx_le_index (STREAMING_LIMIT c) count HL Hcount
             (F - Spec.clamp (_bridging_offset s) 0 F) HX (Z.of_nat j)
             ltac:(lia) Hcut'). }
  set (i := chunks_from (STREAMING_LIMIT c) count
              (F - Spec.clamp (_bridging_offset s) 0 F)) in *.
  assert (N : nth_error (Spec.replayWindow i prev) (j - Z.to_nat i)
              = Some chunk_j).
  { unfold Spec.replayWindow. rewrite nth_error_skipn.
    replace (Z.to_nat i + (j - Z.to_nat i))%nat with j by lia. exact Hj. }
  exists i. eexists. split; [exact G |]. split; [lia |]. split; [exact N |].
  intros t b0 more Hc Ht Hf Hm. eexists. split; [exact (P t b0 more Hc Ht Hf Hm) |].
  rewrite nth_error_app1; [exact N |].
  apply nth_error_Some. congruence.
Qed.

Lemma C5_no_chunk_lost_witness :
  let prev := map (fun k => repeat Byte.x01 k) (seq 0 100) in
  let s := set_final_request_end_time 8000
             (set_last_audio_input (map Some prev) (enter (init 0))) in
  (8000 - 0) * 100 <= 85 * STREAMING_LIMIT defaults /\
  exists chunksFromIndex,
    0 <= chunksFromIndex <= 85 /\
    nth_error (Spec.replayWindow chunksFromIndex prev)
      (85 - Z.to_nat chunksFromIndex) = Some (repeat Byte.x01 85).
Proof.
  intros prev s.
  assert (H : (8000 - 0) * 100 <= 85 * STREAMING_LIMIT defaults)
    by (vm_compute; discriminate).
  split; [exact H |].
  assert (Hs : sizes_ok defaults s)
    by (repeat split; vm_compute; discriminate).
  destruct (C5_no_chunk_lost defaults s prev 85 (repeat Byte.x01 85)
              Hs eq_refl eq_refl eq_refl (or_introl H))
    as (i & next & _ & Hi & N & _).
  exists i. split; [exact Hi | exact N].
Defined.

(* ================================================================== *)
(** * No division by zero *)
(* ================================================================== *)

Lemma to_float_no_zdiv (x : Q) : Py.to_float x <> Raise ZeroDivisionError.
Proof. unfold Py.to_float. destruct (Float64.is_finite _); discriminate. Qed.

Lemma bind_no_zdiv {A B : Type} (m : exc A) (k : A -> exc B) :
  m <> Raise ZeroDivisionError ->
  (forall a, m = Val a -> k a <> Raise ZeroDivisionError) ->
  bind m k <> Raise ZeroDivisionError.
Proof.
  intros Hm Hk. destruct m as [a | e]; simpl.
  - apply Hk. reflexivity.
  - intros E. apply Hm. injection E as ->. reflexivity.
Qed.

Lemma getitem_no_zdiv {A : Type} (l : list A) (i : Z) :
  Py.getitem l i <> Raise ZeroDivisionError.
Proof.
  unfold Py.getitem. destruct (_ && _); [| discriminate].
  destruct (nth_error _ _); discriminate.
Qed.

Lemma gather_no_zdiv {A : Type} (l : list A) (idx : list Z) :
  forall acc, Py.gather l idx acc <> Raise ZeroDivisionError.
Proof.
  induction idx as [| i idx IH]; intros acc; simpl; [discriminate |].
  apply bind_no_zdiv; [apply getitem_no_zdiv | intros a _; apply IH].
Qed.

Lemma float_div_no_zdiv (x y : Q) :
  Qeq_bool y 0 = false -> Py.float_div x y <> Raise ZeroDivisionError.
Proof. intros H. unfold Py.float_div. rewrite H. apply to_float_no_zdiv. Qed.

Lemma replay_no_zdiv (chunkTime : Q) (s : stream) (data : list chunk) :
  Qeq_bool chunkTime 0 = false ->
  replay chunkTime s data <> Raise ZeroDivisionError.
Proof.
  intros H. unfold replay.
  apply bind_no_zdiv; [apply to_float_no_zdiv | intros x _].
  apply bind_no_zdiv; [apply float_div_no_zdiv; exact H | intros q _].
  apply bind_no_zdiv; [apply to_float_no_zdiv | intros k _].
  apply bind_no_zdiv; [apply to_float_no_zdiv | intros p _].
  apply bind_no_zdiv; [apply gather_no_zdiv | intros d _]. discriminate.
Qed.

Lemma bridge_no_zdiv (c : config) (s : stream) :
  bridge c s <> Raise ZeroDivisionError.
Proof.
  unfold bridge.
  destruct (_new_stream s && negb (Z.of_nat (length (_last_audio_input s)) =? 0))
    eqn:G; [| discriminate].
  apply andb_prop in G. destruct G as [_ G]. apply negb_true_iff in G.
  apply bind_no_zdiv.
  - unfold Py.int_truediv. rewrite G. apply to_float_no_zdiv.
  - intros chunkTime _. apply bind_no_zdiv.
    + destruct (Qeq_bool chunkTime 0) eqn:E; simpl; [discriminate |].
      apply replay_no_zdiv. exact E.
    + intros [s1 data] _. discriminate.
Qed.

Lemma pieces_no_zdiv (data : list chunk) :
  pieces data <> Raise ZeroDivisionError.
Proof.
  induction data as [| [b |] data IH]; simpl; try discriminate.
  apply bind_no_zdiv; [exact IH | intros bs _; discriminate].
Qed.

Lemma generator_pass_no_zdiv (c : config) (t : tick) (s : stream) :
  generator_pass c t s <> Raise ZeroDivisionError.
Proof.
  unfold generator_pass. destruct (_closed s); [discriminate |].
  destruct (_ >? _); [discriminate |].
  apply bind_no_zdiv; [apply bridge_no_zdiv | intros [s1 data] _].
  destruct (first t) as [b |]; [| discriminate].
  destruct (drain _ _ _) as [[d h] ended].
  destruct ended; [discriminate |].
  apply bind_no_zdiv; [apply pieces_no_zdiv | intros bs _; discriminate].
Qed.

Lemma bridge_empty (c : config) (s : stream) :
  _last_audio_input s = [] -> bridge c s = Val (s, []).
Proof.
  intros H. unfold bridge. rewrite H. simpl. rewrite andb_false_r. reflexivity.
Qed.

Lemma bridge_zero (c : config) (s : stream) (chunkTime : Q) :
  _new_stream s = true -> _last_audio_input s <> [] ->
  Py.int_truediv (STREAMING_LIMIT c)
    (Z.of_nat (length (_last_audio_input s))) = Val chunkTime ->
  (chunkTime == 0)%Q ->
  bridge c s = Val (set_new_stream false s, []).
Proof.
  intros Hnew Hp Hd Hz. unfold bridge. rewrite Hnew, Hd.
  destruct (Z.eqb_spec (Z.of_nat (length (_last_audio_input s))) 0) as [E | _].
  - destruct (_last_audio_input s); [congruence | simpl in E; lia].
  - simpl. rewrite (Qeq_eq_bool _ _ Hz). reflexivity.
Qed.

(** C9.  When the history of the previous sub-session is empty the bridging
    block is not entered: the state is untouched, nothing is replayed and
    the pass is a pass without the block.  When the chunk duration comes
    out as zero the division by it is not reached: nothing is replayed and
    the offset is kept.  Neither the block nor a pass of the generator ever
    raises [ZeroDivisionError]. *)
Theorem C9_replay_skipped (c : config) (s : stream) :
  (_last_audio_input s = [] ->
   bridge c s = Val (s, []) /\
   (forall t, generator_pass c t s = plain_pass c t s) /\
   (forall t b0 more,
       _closed s = false -> now t - _start_time s <= STREAMING_LIMIT c ->
       first t = Some b0 -> buffered t = map Some more ->
       generator_pass c t s
       = Val (Yield (b0 :: more)
                (set_audio_input (_audio_input s ++ map Some (b0 :: more))
                   s)))) /\
  (forall chunkTime,
      _new_stream s = true -> _last_audio_input s <> [] ->
      Py.int_truediv (STREAMING_LIMIT c)
        (Z.of_nat (length (_last_audio_input s))) = Val chunkTime ->
      (chunkTime == 0)%Q ->
      bridge c s = Val (set_new_stream false s, []) /\
      _bridging_offset (set_new_stream false s) = _bridging_offset s /\
      (forall t,
          _closed s = false -> now t - _start_time s <= STREAMING_LIMIT c ->
          generator_pass c t s = plain_pass c t (set_new_stream false s))) /\
  bridge c s <> Raise ZeroDivisionError /\
  (forall t, generator_pass c t s <> Raise ZeroDivisionError).
Proof.
  split; [| split; [| split]].
  - intros H. pose proof (bridge_empty c s H) as B.
    split; [exact B |]. split.
    + intros t. unfold generator_pass, plain_pass. rewrite B, bind_Val.
      reflexivity.
    + intros t b0 more Hc Ht Hf Hm.
      exact (generator_pass_yield c t s s [] b0 more Hc Ht B Hf Hm).
  - intros chunkTime Hnew Hp Hd Hz.
    pose proof (bridge_zero c s chunkTime Hnew Hp Hd Hz) as B.
    split; [exact B |]. split; [reflexivity |].
    intros t Hc Ht.
    exact (generator_pass_plain c t s _ B Hc Hc eq_refl Ht).
  - apply bridge_no_zdiv.
  - intros t. apply generator_pass_no_zdiv.
Qed.

Lemma C9_replay_skipped_witness :
  let c := {| STREAMING_LIMIT := 0; WORKAROUND_WINDOW := 200 |} in
  let s := set_last_audio_input [Some [Byte.x01]] (enter (init 0)) in
  Py.int_truediv (STREAMING_LIMIT c)
    (Z.of_nat (length (_last_audio_input s))) = Val (0 # 9007199254740992) /\
  bridge c s = Val (set_new_stream false s, []) /\
  bridge c (enter (init 0)) = Val (enter (init 0), []).
Proof.
  intros c s.
  assert (D : Py.int_truediv (STREAMING_LIMIT c)
                (Z.of_nat (length (_last_audio_input s))) = Val (0 # 9007199254740992))
    by (vm_compute; reflexivity).
  split; [exact D |]. split.
  - exact (proj1 (proj1 (proj2 (C9_replay_skipped c s)) (0 # 9007199254740992) eq_refl
                    ltac:(discriminate) D ltac:(reflexivity))).
  - exact (proj1 (proj1 (C9_replay_skipped c (enter (init 0))) eq_refl)).
Defined.

(* ================================================================== *)
(** * Bounds on the offset left for the next restart *)
(* ================================================================== *)

Module OffsetArithQ.
Import Float64.
Local Open Scope Q_scope.

(** The error analysis of the next offset, on rationals: [A] is the limit,
    [N] the number of chunks, [a] the exact and [ct] the rounded chunk
    duration, [C] the first chunk replayed, [p] the rounded product. *)
Lemma offset_arith (A N a ct XQ x y q C k p : Q) :
  0 < N -> a * N == A -> 1 <= A -> A <= 1099511627776 -> 1 <= N ->
  0 <= XQ -> XQ <= A ->
  0 < a -> a * (1 - u) <= ct -> ct <= a * (1 + u) ->
  XQ * (1 - u) <= x -> y * ct == x -> y * (1 - u) <= q ->
  q - (1 # 2) <= C -> 0 <= C -> C <= N ->
  0 <= k -> k <= (N - C) * (1 + u) -> p <= k * ct * (1 + u) ->
  p <= A - XQ + a * (1 # 2) + (1 # 2) /\ p < A + (3 # 2).
Proof.
  intros HN Ha HA1 HA2 HN1 HX0 HX1 Ha0 Hct1 Hct2 Hx Hy Hq HC HC0 HCN
    Hk0 Hk Hp.
  assert (U0 : 0 < u) by reflexivity.
  assert (U1 : u <= 1 # 9007199254740992) by (apply Qle_bool_iff; reflexivity).
  assert (HaA : a <= A) by nra.
  assert (Hct0 : 0 < ct) by nra.
  assert (Hy0 : 0 <= y).
  { assert (0 <= x) by nra. rewrite <- Hy in H.
    destruct (Qlt_le_dec y 0) as [Y | Y]; [| exact Y]. exfalso. nra. }
  (* y a (1 + u) >= X (1 - u) *)
  assert (S1 : XQ * (1 - u) <= y * a * (1 + u)).
  { apply Qle_trans with (y := y * ct); [rewrite Hy; exact Hx | nra]. }
  (* C a (1 + u) >= X (1 - u)^2 - a (1 + u) / 2 *)
  assert (S2 : XQ * (1 - u) * (1 - u) - a * (1 + u) * (1 # 2) <= C * a * (1 + u)).
  { assert (T0 : (y * (1 - u) - (1 # 2)) * a <= C * a) by nra.
    assert (T1 : y * a * (1 - u) - a * (1 # 2) <= C * a).
    { apply Qle_trans with (y := (y * (1 - u) - (1 # 2)) * a); [| exact T0].
      apply Qle_lteq. right. ring. }
    assert (T2 : XQ * (1 - u) * (1 - u) <= y * a * (1 + u) * (1 - u)) by nra.
    clear - T1 T2. remember (y * a) as ya. remember (C * a) as Ca.
    unfold u in *. lra. }
  (* k ct <= (A - C a) (1 + u)^2 *)
  assert (S3 : k * ct <= (A - C * a) * (1 + u) * (1 + u)).
  { assert (T1 : k * ct <= k * (a * (1 + u))) by nra.
    assert (T2 : k * (a * (1 + u)) <= (N - C) * (1 + u) * (a * (1 + u))) by nra.
    assert (T3 : (N - C) * a == A - C * a) by (rewrite <- Ha; ring).
    nra. }
  assert (S4 : 0 <= k * ct) by nra.
  assert (S5 : p <= (A - C * a) * (1 + u) * (1 + u) * (1 + u)) by nra.
  assert (S6 : 0 <= C * a) by nra.
  remember (C * a) as Ca. clear - S2 S5 S6 HA1 HA2 HX0 HX1 HaA Ha0.
  unfold u in *. split; lra.
Qed.

End OffsetArithQ.

Module OffsetArith.
Import Float64 Float64Facts Float64Bounds PyFacts.
Local Open Scope Q_scope.

Section Offset.

Variables L n X : Z.
Hypothesis HL : (1 <= L <= 2 ^ 40)%Z.
Hypothesis Hn : (1 <= n <= 2 ^ 50)%Z.
Hypothesis HX : (0 <= X <= L)%Z.

Lemma HL62 : (1 <= L <= 2 ^ 62)%Z.
Proof.
  split; [lia |]. assert ((2 ^ 40 <= 2 ^ 62)%Z) by (apply Z.pow_le_mono_r; lia).
  lia.
Qed.

Lemma HX62 : (0 <= X <= 2 ^ 62)%Z.
Proof. pose proof HL62. lia. Qed.

Lemma idx_range :
  (0 <= RNE (b64 (b64 (inject_Z X) / b64 (inject_Z L / inject_Z n))) <= n)%Z.
Proof.
  split.
  - exact (ReplayArith.idx_nonneg L n HL62 Hn X HX62).
  - apply (ReplayArith.idx_le_index L n HL62 Hn X HX62 n); [lia | nia].
Qed.

(** The first chunk replayed is a chunk of the history or its end. *)
Lemma chunks_from_range : (0 <= chunks_from L n X <= n)%Z.
Proof. unfold chunks_from, chunk_time. exact idx_range. Qed.

Lemma next_offset_nonneg : (0 <= next_offset L n X)%Z.
Proof.
  unfold next_offset, chunks_from, chunk_time.
  exact (ReplayArith.new_offset_nonneg L n HL62 Hn X (proj2 idx_range)).
Qed.

Lemma next_offset_upper_gen (a ct x y q k p : Q) (c : Z) :
  a = inject_Z L / inject_Z n -> ct = b64 a -> x = b64 (inject_Z X) ->
  y = x / ct -> q = b64 y -> c = RNE q ->
  k = b64 (inject_Z (n - c)) -> p = b64 (k * ct) ->
  (RNE p <= L + 1)%Z /\
  (2 * n * RNE p <= 2 * n * (L - X + 1) + L)%Z.
Proof.
  intros Ea Ect Ex Ey Eq Ec Ek Ep.
  pose proof idx_range as [C0 C1].
  rewrite <- Ea, <- Ect, <- Ex, <- Ey, <- Eq, <- Ec in C0, C1.
  pose proof (ReplayArith.n_pos n Hn) as N0.
  pose proof (ReplayArith.a_times_n L n Hn) as An. rewrite <- Ea in An.
  pose proof (ReplayArith.a_bounds L n HL62 Hn) as [A0 A1].
  rewrite <- Ea in A0, A1.
  pose proof (ReplayArith.ct_bounds L n HL62 Hn) as [Ct1 Ct2].
  rewrite <- Ea, <- Ect in Ct1, Ct2.
  pose proof (ReplayArith.ct_pos L n HL62 Hn) as Ct0.
  rewrite <- Ea, <- Ect in Ct0.
  pose proof (ReplayArith.ct_lower L n HL62 Hn) as CtL.
  rewrite <- Ea, <- Ect in CtL.
  pose proof (ReplayArith.y_times_ct L n HL62 Hn X) as Yc.
  rewrite <- Ea, <- Ect, <- Ex, <- Ey in Yc.
  pose proof (ReplayArith.x_nonneg L n X HX62) as X0. rewrite <- Ex in X0.
  pose proof (RNE_bounds q) as [Rq _]. rewrite <- Ec in Rq.
  assert (U0 : 0 < u) by reflexivity.
  assert (U1 : u < 1) by reflexivity.
  assert (HA1 : 1 <= inject_Z L) by (rewrite <- (Zle_Qle 1); lia).
  assert (HA2 : inject_Z L <= 1099511627776).
  { assert (E : (2 ^ 40 = 1099511627776)%Z) by reflexivity.
    rewrite E in HL. destruct HL as [_ H]. rewrite Zle_Qle in H. exact H. }
  assert (HN1 : 1 <= inject_Z n) by (rewrite <- (Zle_Qle 1); lia).
  assert (HX0 : 0 <= inject_Z X) by (rewrite <- (Zle_Qle 0); lia).
  assert (HX1 : inject_Z X <= inject_Z L) by (rewrite <- Zle_Qle; lia).
  assert (Ha0 : 0 < a).
  { assert (P : 0 < 1 # 2 ^ 50) by reflexivity. lra. }
  assert (Hx : inject_Z X * (1 - u) <= x).
  { destruct (Z.eq_dec X 0) as [E | E].
    - rewrite E. assert (Z0 : inject_Z 0 == 0) by reflexivity. rewrite Z0. lra.
    - pose proof (proj1 (ReplayArith.x_bounds L n X ltac:(lia))) as H.
      rewrite <- Ex in H. exact H. }
  assert (Hq : y * (1 - u) <= q).
  { destruct (Z.eq_dec X 0) as [E | E].
    - pose proof (ReplayArith.x_zero X E) as Xz. rewrite <- Ex in Xz.
      assert (Y : y == 0) by (rewrite Ey; unfold Qdiv; rewrite Xz; ring).
      pose proof (b64_nonneg y ltac:(lra)) as Q0. rewrite <- Eq in Q0.
      rewrite Y. lra.
    - pose proof (proj1 (ReplayArith.q_bounds L n HL62 Hn X ltac:(lia))) as H.
      rewrite <- Ea, <- Ect, <- Ex, <- Ey, <- Eq in H. exact H. }
  assert (HC0 : 0 <= inject_Z c) by (rewrite <- (Zle_Qle 0); exact C0).
  assert (HCN : inject_Z c <= inject_Z n) by (rewrite <- Zle_Qle; exact C1).
  assert (HK : inject_Z (n - c) == inject_Z n - inject_Z c).
  { unfold Z.sub. rewrite inject_Z_plus, inject_Z_opp. ring. }
  assert (Hk0 : 0 <= k).
  { rewrite Ek. apply b64_nonneg. rewrite <- (Zle_Qle 0). lia. }
  assert (Hkp : k <= (inject_Z n - inject_Z c) * (1 + u) /\
                p <= k * ct * (1 + u)).
  { destruct (Z.eq_dec (n - c) 0) as [E | E].
    - assert (K : k == 0) by (rewrite Ek; apply b64_zero; rewrite E; reflexivity).
      assert (P : p == 0) by (rewrite Ep; apply b64_zero; rewrite K; ring).
      rewrite P, K. split; nra.
    - assert (K1 : 1 <= inject_Z (n - c)) by (rewrite <- (Zle_Qle 1); lia).
      assert (P1 : 2 ^ (-1022) <= 1)
        by (apply Qle_bool_iff; vm_compute; reflexivity).
      destruct (b64_rel_pos (inject_Z (n - c)) ltac:(lra)) as [K2 K3].
      rewrite <- Ek in K2, K3. rewrite HK in K2, K3. rewrite HK in K1.
      split; [exact K3 |].
      assert (K4 : 1 # 2 <= k).
      { unfold u in K2. nra. }
      assert (P2 : 2 ^ (-1022) <= k * ct).
      { assert (E1 : 2 ^ (-51) == 1 # 2251799813685248) by reflexivity.
        assert (E2 : 2 ^ (-1022) <= (1 # 2) * (1 # 2251799813685248))
          by (apply Qle_bool_iff; vm_compute; reflexivity).
        rewrite E1 in CtL.
        apply Qle_trans with (y := (1 # 2) * (1 # 2251799813685248));
          [exact E2 | nra]. }
      pose proof (proj2 (b64_rel_pos (k * ct) P2)) as H.
      rewrite <- Ep in H. exact H. }
  destruct Hkp as [Hk Hp].
  destruct (OffsetArithQ.offset_arith (inject_Z L) (inject_Z n) a ct
              (inject_Z X) x y q (inject_Z c) k p
              N0 An HA1 HA2 HN1 HX0 HX1 Ha0 Ct1 Ct2 Hx Yc Hq Rq HC0 HCN
              Hk0 Hk Hp) as [B1 B2].
  pose proof (RNE_bounds p) as [_ Rp].
  split.
  - apply RNE_le. rewrite inject_Z_plus.
    assert (Z1 : inject_Z 1 == 1) by reflexivity. rewrite Z1. lra.
  - rewrite Zle_Qle.
    rewrite inject_Z_plus, !inject_Z_mult, inject_Z_plus.
    unfold Z.sub. rewrite inject_Z_plus, inject_Z_opp.
    assert (Z1 : inject_Z 1 == 1) by reflexivity.
    assert (Z2 : inject_Z 2 == 2) by reflexivity. rewrite Z1, Z2.
    assert (T : 2 * inject_Z n * inject_Z (RNE p)
                <= 2 * inject_Z n
                   * (inject_Z L - inject_Z X + a * (1 # 2) + 1)) by nra.
    assert (E : 2 * inject_Z n * (inject_Z L - inject_Z X + a * (1 # 2) + 1)
                == 2 * inject_Z n * (inject_Z L + - inject_Z X + 1)
                   + inject_Z L).
    { rewrite <- An. ring. }
    rewrite E in T. exact T.
Qed.

(** The offset left for the next restart is at most the limit plus one, and
    at most the audio after the cut plus half a chunk plus one. *)
Lemma next_offset_upper :
  (next_offset L n X <= L + 1)%Z /\
  (2 * n * next_offset L n X <= 2 * n * (L - X + 1) + L)%Z.
Proof.
  unfold next_offset, chunks_from, chunk_time.
  exact (next_offset_upper_gen _ _ _ _ _ _ _ _
           eq_refl eq_refl eq_refl eq_refl eq_refl eq_refl eq_refl eq_refl).
Qed.

End Offset.
End OffsetArith.

(* ================================================================== *)
(** * What the result loop leaves alone *)
(* ================================================================== *)

Lemma handle_response_cases (c : config) (response : StreamingRecognizeResponse)
  (s s' : stream) (out : list event) (fl : flow) :
  handle_response c response s = Val (s', out, fl) ->
  (top response = None /\ s' = s /\ out = [] /\ fl = Continue) \/
  exists result alt t,
    top response = Some (result, alt) /\
    in_session_end_ms result = Val t /\
    let g := corrected c s t in
    (is_final result = false /\
     s' = set_last_transcript_was_final false (set_result_end_time t s) /\
     out = [InterimLine g (transcript alt)] /\ fl = Continue) \/
    (is_final result = true /\
     STREAMING_LIMIT c - WORKAROUND_WINDOW c <= t /\
     s' = set_result_end_time t s /\ out = [] /\ fl = Continue) \/
    (is_final result = true /\
     t < STREAMING_LIMIT c - WORKAROUND_WINDOW c /\
     Regex.stop_keyword (transcript alt) = false /\
     s' = set_last_transcript_was_final true
            (set_is_final_end_time t (set_result_end_time t s)) /\
     out = [FinalLine g (transcript alt)] /\ fl = Continue) \/
    (is_final result = true /\
     t < STREAMING_LIMIT c - WORKAROUND_WINDOW c /\
     Regex.stop_keyword (transcript alt) = true /\
     s' = set_closed true
            (set_last_transcript_was_final true
               (set_is_final_end_time t (set_result_end_time t s))) /\
     out = [FinalLine g (transcript alt); Exiting] /\ fl = Break).
Proof.
  intros H. destruct (top response) as [[result alt] |] eqn:Et.
  - right. destruct (in_session_end_ms result) as [t | e] eqn:Em.
    + exists result, alt, t. split; [reflexivity |]. split; [exact Em |].
      rewrite (handle_response_top c _ _ _ _ s Et Em) in H. cbv zeta in H.
      unfold corrected. cbv zeta.
      destruct (is_final result).
      * destruct (Z.ltb_spec t (STREAMING_LIMIT c - WORKAROUND_WINDOW c))
          as [Hw | Hw].
        -- destruct (Regex.stop_keyword (transcript alt)) eqn:Ek;
             injection H as <- <- <-.
           ++ right. right. right. repeat split; assumption.
           ++ right. right. left. repeat split; assumption.
        -- injection H as <- <- <-. right. left. repeat split; assumption.
      * injection H as <- <- <-. left. repeat split.
    + unfold top, handle_response in *.
      destruct (results response) as [| r rs]; [discriminate |].
      destruct (alternatives r) as [| a al]; [discriminate |].
      injection Et as <- <-. rewrite Em in H. discriminate.
  - left. rewrite (handle_response_skip c _ s Et) in H.
    injection H as <- <- <-. repeat split.
Qed.

(** The result loop writes [_result_end_time], [_is_final_end_time],
    [_last_transcript_was_final] and [_closed] and no other field, and it
    never reopens a closed stream. *)
Lemma handle_response_frame (c : config) (response : StreamingRecognizeResponse)
  (s s' : stream) (out : list event) (fl : flow) :
  handle_response c response s = Val (s', out, fl) ->
  same_audio s s' /\ (_closed s = true -> _closed s' = true).
Proof.
  intros H. destruct (handle_response_cases c _ _ _ _ _ H)
    as [(_ & -> & _) | (result & alt & t & _ & _ & Hc)].
  - split; [repeat split | auto].
  - cbv zeta in Hc.
    destruct Hc as [(_ & -> & _) | [(_ & _ & -> & _) | [(_ & _ & _ & -> & _)
                   | (_ & _ & _ & -> & _)]]];
      (split; [repeat split | auto]).
Qed.

Lemma listen_print_loop_frame (c : config)
  (rs : list StreamingRecognizeResponse) :
  forall s s' out,
    listen_print_loop c rs s = Val (s', out) ->
    same_audio s s' /\ (_closed s = true -> _closed s' = true).
Proof.
  induction rs as [| r rest IH]; intros s s' out H.
  - injection H as <- _. split; [repeat split | auto].
  - simpl in H.
    destruct (handle_response c r s) as [[[s1 out1] fl] | ex] eqn:Eh;
      [| discriminate].
    simpl in H. pose proof (handle_response_frame c _ _ _ _ _ Eh) as [F1 C1].
    destruct fl.
    + destruct (listen_print_loop c rest s1) as [[s2 out2] | ex] eqn:El;
        [| discriminate].
      simpl in H. injection H as <- _.
      destruct (IH _ _ _ El) as [F2 C2].
      split; [| auto].
      unfold same_audio in *. intuition congruence.
    + injection H as <- _. split; assumption.
Qed.

(* ================================================================== *)
(** * The order of the final lines *)
(* ================================================================== *)

Lemma final_times_app (a b : list event) :
  final_times (a ++ b) = final_times a ++ final_times b.
Proof.
  induction a as [| e a IH]; [reflexivity |].
  destruct e; simpl; rewrite IH; reflexivity.
Qed.

Lemma corrected_mono (c : config) (s : stream) (t t' : Z) :
  t <= t' -> corrected c s t <= corrected c s t'.
Proof. unfold corrected. lia. Qed.

Lemma corrected_same (c : config) (s s' : stream) (t : Z) :
  same_audio s s' -> corrected c s' t = corrected c s t.
Proof.
  intros (_ & Hr & _ & _ & _ & Hb & _). unfold corrected. rewrite Hr, Hb.
  reflexivity.
Qed.

(** Within one call of the loop: the final lines come out in the order of
    their end times, between the corrected lower bound and the corrected
    [_is_final_end_time] the loop leaves. *)
Lemma listen_print_loop_ordered (c : config)
  (rs : list StreamingRecognizeResponse) :
  forall lo s s' out,
    ordered_from lo rs ->
    listen_print_loop c rs s = Val (s', out) ->
    StronglySorted Z.le (final_times out) /\
    Forall (fun g => corrected c s lo <= g
                     /\ g <= corrected c s (_is_final_end_time s'))
      (final_times out) /\
    (final_times out = [] -> _is_final_end_time s' = _is_final_end_time s) /\
    (final_times out <> [] ->
     lo <= _is_final_end_time s'
     /\ _is_final_end_time s' < STREAMING_LIMIT c - WORKAROUND_WINDOW c) /\
    (lo <= _result_end_time s' \/
     _result_end_time s' = _result_end_time s /\ final_times out = []).
Proof.
  induction rs as [| r rest IH]; intros lo s s' out Ho H.
  - injection H as <- <-. simpl.
    split; [constructor |]. split; [constructor |]. split; [reflexivity |].
    split; [congruence |]. right. split; reflexivity.
  - simpl in H.
    destruct (handle_response c r s) as [[[s1 out1] fl] | ex] eqn:Eh;
      [| discriminate].
    simpl in H. simpl in Ho.
    destruct (handle_response_cases c _ _ _ _ _ Eh)
      as [(Et & -> & -> & ->) | (result & alt & t & Et & Em & Hc)].
    + rewrite Et in Ho.
      destruct (listen_print_loop c rest s) as [[s2 out2] | ex] eqn:El;
        [| discriminate].
      simpl in H. injection H as <- <-. simpl. exact (IH _ _ _ _ Ho El).
    + rewrite Et in Ho. destruct Ho as (t' & Em' & Hlo & Ho).
      rewrite Em in Em'. injection Em' as <-. cbv zeta in Hc.
      destruct Hc as [(Hf & -> & -> & ->) | [(Hf & Hw & -> & -> & ->)
                     | [(Hf & Hw & Hk & -> & -> & ->)
                       | (Hf & Hw & Hk & -> & -> & ->)]]].
      * (* interim *)
        destruct (listen_print_loop c rest _) as [[s2 out2] | ex] eqn:El;
          [| discriminate].
        simpl in H. injection H as <- <-.
        destruct (IH _ _ _ _ Ho El) as (S & F & E & N & R).
        cbn [app final_times].
        split; [exact S |]. split.
        { eapply Forall_impl; [| exact F]. intros g [G1 G2].
          unfold corrected in *. cbn in *. lia. }
        split; [exact E |]. split; [intros Hn; specialize (N Hn); lia |].
        left. cbn in R. destruct R as [R | [R _]]; lia.
      * (* final, in the workaround window *)
        destruct (listen_print_loop c rest _) as [[s2 out2] | ex] eqn:El;
          [| discriminate].
        simpl in H. injection H as <- <-.
        destruct (IH _ _ _ _ Ho El) as (S & F & E & N & R).
        cbn [app final_times].
        split; [exact S |]. split.
        { eapply Forall_impl; [| exact F]. intros g [G1 G2].
          unfold corrected in *. cbn in *. lia. }
        split; [exact E |]. split; [intros Hn; specialize (N Hn); lia |].
        left. cbn in R. destruct R as [R | [R _]]; lia.
      * (* final, written *)
        destruct (listen_print_loop c rest _) as [[s2 out2] | ex] eqn:El;
          [| discriminate].
        simpl in H. injection H as <- <-.
        destruct (IH _ _ _ _ Ho El) as (S & F & E & N & R).
        cbn [app final_times].
        assert (T : t <= _is_final_end_time s2
                    /\ _is_final_end_time s2
                       < STREAMING_LIMIT c - WORKAROUND_WINDOW c).
        { destruct (final_times out2) as [| g gs] eqn:Eg.
          - rewrite (E eq_refl). cbn. lia.
          - apply N. discriminate. }
        split.
        { constructor; [exact S |].
          eapply Forall_impl; [| exact F]. intros g [G1 G2].
          unfold corrected in *. cbn in *. lia. }
        split.
        { constructor.
          - unfold corrected in *. cbn in *. lia.
          - eapply Forall_impl; [| exact F]. intros g [G1 G2].
            unfold corrected in *. cbn in *. lia. }
        split; [discriminate |]. split; [intros _; lia |].
        left. cbn in R. destruct R as [R | [R _]]; lia.
      * (* final, written, with a stop word *)
        injection H as <- <-. cbn.
        split; [repeat constructor |]. split.
        { repeat constructor; unfold corrected; cbn; lia. }
        split; [discriminate |]. split; [intros _; lia |]. left. exact Hlo.
Qed.

(* ================================================================== *)
(** * What the generator leaves alone *)
(* ================================================================== *)

Lemma same_results_refl (s : stream) : same_results s s.
Proof. repeat split. Qed.

Lemma same_results_trans (s1 s2 s3 : stream) :
  same_results s1 s2 -> same_results s2 s3 -> same_results s1 s3.
Proof. unfold same_results. intuition congruence. Qed.

Lemma replay_state (chunkTime : Q) (s s1 : stream) (data d : list chunk) :
  replay chunkTime s data = Val (s1, d) ->
  exists b, s1 = set_bridging_offset b (clamp_bridging_offset s).
Proof.
  rewrite replay_clamped. cbv zeta. intros H.
  destruct (Py.int_to_float _) as [x |]; [| discriminate].
  rewrite bind_Val in H.
  destruct (Py.float_div x chunkTime) as [q |]; [| discriminate].
  rewrite bind_Val in H.
  destruct (Py.int_to_float _) as [k |]; [| discriminate].
  rewrite bind_Val in H.
  destruct (Py.float_mul k chunkTime) as [p |]; [| discriminate].
  rewrite bind_Val in H.
  destruct (Py.gather _ _ _) as [d' |]; [| discriminate].
  rewrite bind_Val in H. injection H as <- _. eexists. reflexivity.
Qed.

Lemma clamp_same_results (s : stream) (b : Z) :
  same_results s (set_bridging_offset b (clamp_bridging_offset s)) /\
  _start_time (set_bridging_offset b (clamp_bridging_offset s))
  = _start_time s /\
  _audio_input (set_bridging_offset b (clamp_bridging_offset s))
  = _audio_input s.
Proof. rewrite clamp_bridging_offset_value. repeat split. Qed.

(** The bridging block writes [_bridging_offset] and [_new_stream] only. *)
Lemma bridge_frame (c : config) (s s1 : stream) (d : list chunk) :
  bridge c s = Val (s1, d) ->
  same_results s s1 /\ _start_time s1 = _start_time s
  /\ _audio_input s1 = _audio_input s.
Proof.
  unfold bridge. intros H.
  destruct (_new_stream s && negb (Z.of_nat (length (_last_audio_input s)) =? 0)).
  - destruct (Py.int_truediv _ _) as [chunkTime |]; [| discriminate].
    rewrite bind_Val in H.
    destruct (negb (Qeq_bool chunkTime 0)).
    + destruct (replay chunkTime s []) as [[s2 d2] |] eqn:Er; [| discriminate].
      rewrite bind_Val in H. injection H as <- _.
      destruct (replay_state _ _ _ _ _ Er) as [b ->].
      destruct (clamp_same_results s b) as (A & B & C).
      split; [| split; assumption].
      unfold same_results in *. cbn. intuition.
    + rewrite bind_Val in H. injection H as <- _. repeat split.
  - injection H as <- _. repeat split.
Qed.

(** A pass of the generator writes [_start_time], [_audio_input],
    [_bridging_offset] and [_new_stream] and no other field. *)
Lemma generator_pass_frame (c : config) (t : tick) (s : stream) (o : outcome) :
  generator_pass c t s = Val o -> same_results s (state_of o).
Proof.
  unfold generator_pass. intros H.
  destruct (_closed s); [injection H as <-; apply same_results_refl |].
  destruct (_ >? _); [injection H as <-; repeat split |].
  destruct (bridge c s) as [[s1 d] |] eqn:Eb; [| discriminate].
  rewrite bind_Val in H. destruct (bridge_frame c s s1 d Eb) as (A & _ & _).
  cbv beta iota zeta in H.
  destruct (first t) as [b |].
  - destruct (drain _ _ _) as [[data hist] ended].
    destruct ended.
    + injection H as <-. eapply same_results_trans; [exact A | repeat split].
    + destruct (pieces data) as [bs |]; [| discriminate].
      rewrite bind_Val in H. injection H as <-.
      eapply same_results_trans; [exact A | repeat split].
  - injection H as <-. eapply same_results_trans; [exact A | repeat split].
Qed.

Lemma generator_frame (c : config) (ts : list tick) :
  forall s ys s',
    generator c ts s = Val (ys, s') -> same_results s s'.
Proof.
  induction ts as [| t ts IH]; intros s ys s' H; simpl in H.
  - injection H as _ <-. apply same_results_refl.
  - destruct (generator_pass c t s) as [o |] eqn:Ep; [| discriminate].
    rewrite bind_Val in H.
    pose proof (generator_pass_frame c t s o Ep) as A.
    destruct o as [s1 | s1 | s1 | data s1]; cbn in A;
      try (injection H as _ <-; exact A).
    destruct (generator c ts s1) as [[ys1 s2] |] eqn:Eg; [| discriminate].
    rewrite bind_Val in H. injection H as _ <-.
    eapply same_results_trans; [exact A | exact (IH _ _ _ Eg)].
Qed.

(* ================================================================== *)
(** * The offset a sub-session runs with *)
(* ================================================================== *)

Lemma bridge_offset (c : config) (s s1 : stream) (d : list chunk) :
  sizes_ok c s ->
  bridge c s = Val (s1, d) ->
  s1 = s \/
  _new_stream s = true /\ _last_audio_input s <> [] /\
  s1 = set_new_stream false
         (set_bridging_offset (bridged_offset c s) (clamp_bridging_offset s)).
Proof.
  intros Hs H. destruct (_new_stream s) eqn:En.
  - destruct (_last_audio_input s) as [| ch l] eqn:El.
    + rewrite (bridge_empty c s El) in H. injection H as <- _. left. reflexivity.
    + assert (Hp : _last_audio_input s <> []) by (rewrite El; discriminate).
      pose proof (bridge_val c s Hs Hp En) as B. cbv zeta in B.
      rewrite B in H. injection H as <- _. right.
      split; [reflexivity |]. split; [discriminate |].
      unfold bridged_offset. rewrite El. reflexivity.
  - unfold bridge in H. rewrite En in H. injection H as <- _. left. reflexivity.
Qed.

Lemma generator_pass_offset (c : config) (t : tick) (s : stream) (o : outcome) :
  sizes_ok c s ->
  generator_pass c t s = Val o ->
  _bridging_offset (state_of o) = _bridging_offset s
  /\ _new_stream (state_of o) = _new_stream s \/
  _new_stream s = true /\ _last_audio_input s <> [] /\
  _new_stream (state_of o) = false /\
  _bridging_offset (state_of o) = bridged_offset c s.
Proof.
  intros Hs. unfold generator_pass. intros H.
  destruct (_closed s); [injection H as <-; left; split; reflexivity |].
  destruct (_ >? _); [injection H as <-; left; split; reflexivity |].
  destruct (bridge c s) as [[s1 d] |] eqn:Eb; [| discriminate].
  rewrite bind_Val in H. cbv beta iota zeta in H.
  assert (K : _bridging_offset s1 = _bridging_offset s
              /\ _new_stream s1 = _new_stream s \/
              _new_stream s = true /\ _last_audio_input s <> [] /\
              _new_stream s1 = false /\
              _bridging_offset s1 = bridged_offset c s).
  { destruct (bridge_offset c s s1 d Hs Eb) as [-> | (A & B & ->)].
    - left. split; reflexivity.
    - right. repeat split; assumption. }
  destruct (first t) as [b |].
  - destruct (drain _ _ _) as [[data hist] ended].
    destruct ended.
    + injection H as <-. exact K.
    + destruct (pieces data) as [bs |]; [| discriminate].
      rewrite bind_Val in H. injection H as <-. exact K.
  - injection H as <-. exact K.
Qed.

Lemma sizes_ok_same (c : config) (s s' : stream) :
  same_results s s' -> sizes_ok c s -> sizes_ok c s'.
Proof.
  intros (_ & _ & Hl & _ & _ & Hf & _) H. unfold sizes_ok in *.
  rewrite Hl, Hf. exact H.
Qed.

Lemma bridged_offset_same (c : config) (s s' : stream) :
  same_results s s' -> _bridging_offset s' = _bridging_offset s ->
  bridged_offset c s' = bridged_offset c s.
Proof.
  intros (_ & _ & Hl & _ & _ & Hf & _) Hb. unfold bridged_offset.
  rewrite Hl, Hf, Hb. reflexivity.
Qed.

(** Over the passes of one sub-session the offset is either kept or
    replaced, once, by the one the bridging block computes from the state
    the sub-session is entered in. *)
Lemma generator_offset (c : config) (ts : list tick) :
  forall s ys s',
    sizes_ok c s ->
    generator c ts s = Val (ys, s') ->
    _bridging_offset s' = _bridging_offset s \/
    _new_stream s = true /\ _last_audio_input s <> [] /\
    _bridging_offset s' = bridged_offset c s.
Proof.
  induction ts as [| t ts IH]; intros s ys s' Hs H; simpl in H.
  - injection H as _ <-. left. reflexivity.
  - destruct (generator_pass c t s) as [o |] eqn:Ep; [| discriminate].
    rewrite bind_Val in H.
    pose proof (generator_pass_frame c t s o Ep) as A.
    pose proof (generator_pass_offset c t s o Hs Ep) as B.
    assert (E : forall s1, state_of o = s1 -> s' = s1 ->
                _bridging_offset s' = _bridging_offset s \/
                _new_stream s = true /\ _last_audio_input s <> [] /\
                _bridging_offset s' = bridged_offset c s).
    { intros s1 E1 ->. rewrite E1 in B.
      destruct B as [[B _] | (B1 & B2 & _ & B3)]; [left | right]; auto. }
    destruct o as [s1 | s1 | s1 | data s1];
      try (injection H as _ <-; apply (E s1); reflexivity).
    clear E. cbn in A, B.
    destruct (generator c ts s1) as [[ys1 s2] |] eqn:Eg; [| discriminate].
    rewrite bind_Val in H. injection H as _ <-.
    pose proof (IH _ _ _ (sizes_ok_same c s s1 A Hs) Eg) as C.
    destruct B as [[B1 B2] | (B1 & B2 & B3 & B4)].
    + destruct C as [C | (C1 & C2 & C3)].
      * left. congruence.
      * right. destruct A as (_ & _ & Hl & _). rewrite Hl in C2.
        rewrite B2 in C1. repeat split; try assumption.
        rewrite C3. apply bridged_offset_same; [| exact B1].
        exact (generator_pass_frame c t s _ Ep).
    + destruct C as [C | (C1 & _)]; [| congruence].
      right. repeat split; try assumption. congruence.
Qed.

(* ================================================================== *)
(** * The order of the final lines over a run *)
(* ================================================================== *)

(** Every final line comes from a final result that ends before the
    workaround window. *)
Lemma listen_print_loop_finals (c : config)
  (rs : list StreamingRecognizeResponse) :
  forall s s' out,
    listen_print_loop c rs s = Val (s', out) ->
    Forall (fun g => exists r result alt t,
                In r rs /\ top r = Some (result, alt) /\
                is_final result = true /\
                in_session_end_ms result = Val t /\
                t < STREAMING_LIMIT c - WORKAROUND_WINDOW c /\
                g = corrected c s t)
      (final_times out).
Proof.
  induction rs as [| r rest IH]; intros s s' out H.
  - injection H as _ <-. constructor.
  - simpl in H.
    destruct (handle_response c r s) as [[[s1 out1] fl] | ex] eqn:Eh;
      [| discriminate].
    simpl in H.
    pose proof (handle_response_frame c _ _ _ _ _ Eh) as [Fr _].
    assert (K : forall s2 out2,
               listen_print_loop c rest s1 = Val (s2, out2) ->
               Forall (fun g => exists r0 result alt t,
                           In r0 (r :: rest) /\ top r0 = Some (result, alt) /\
                           is_final result = true /\
                           in_session_end_ms result = Val t /\
                           t < STREAMING_LIMIT c - WORKAROUND_WINDOW c /\
                           g = corrected c s t)
                 (final_times out2)).
    { intros s2 out2 El. eapply Forall_impl; [| exact (IH _ _ _ El)].
      intros g (r0 & result & alt & t & Hin & Ht & Hf & Hm & Hw & ->).
      exists r0, result, alt, t. repeat split; try assumption.
      - right. exact Hin.
      - apply corrected_same. exact Fr. }
    destruct (handle_response_cases c _ _ _ _ _ Eh)
      as [(Et & -> & -> & ->) | (result & alt & t & Et & Em & Hc)].
    + destruct (listen_print_loop c rest s) as [[s2 out2] | ex] eqn:El;
        [| discriminate].
      simpl in H. injection H as _ <-. simpl. exact (K _ _ eq_refl).
    + cbv zeta in Hc.
      destruct Hc as [(Hf & -> & -> & ->) | [(Hf & Hw & -> & -> & ->)
                     | [(Hf & Hw & Hk & -> & -> & ->)
                       | (Hf & Hw & Hk & -> & -> & ->)]]].
      * destruct (listen_print_loop c rest _) as [[s2 out2] | ex] eqn:El;
          [| discriminate].
        simpl in H. injection H as _ <-. cbn [app final_times].
        exact (K _ _ eq_refl).
      * destruct (listen_print_loop c rest _) as [[s2 out2] | ex] eqn:El;
          [| discriminate].
        simpl in H. injection H as _ <-. cbn [app final_times].
        exact (K _ _ eq_refl).
      * destruct (listen_print_loop c rest _) as [[s2 out2] | ex] eqn:El;
          [| discriminate].
        simpl in H. injection H as _ <-. cbn [app final_times].
        constructor; [| exact (K _ _ eq_refl)].
        exists r, result, alt, t. repeat split; try assumption. left. reflexivity.
      * injection H as _ <-. cbn [final_times].
        constructor; [| constructor].
        exists r, result, alt, t. repeat split; try assumption. left. reflexivity.
Qed.

Lemma restart_fields (s : stream) :
  let s1 := fst (restart s) in
  _restart_counter s1 = _restart_counter s + 1 /\
  _bridging_offset s1 = _bridging_offset s /\
  _final_request_end_time s1
  = (if _result_end_time s >? 0 then _is_final_end_time s
     else _final_request_end_time s) /\
  _is_final_end_time s1 = _is_final_end_time s /\
  _result_end_time s1 = 0 /\
  _new_stream s1 = true /\
  _last_audio_input s1 = _audio_input s /\
  _audio_input s1 = [] /\
  _closed s1 = _closed s /\
  final_times (snd (restart s)) = [].
Proof.
  unfold restart. cbv zeta.
  destruct (_result_end_time s >? 0); cbn;
    (repeat split; try reflexivity);
    destruct (_last_transcript_was_final s); reflexivity.
Qed.

Lemma StronglySorted_app (a b : list Z) (m : Z) :
  StronglySorted Z.le a -> StronglySorted Z.le b ->
  Forall (fun g => g <= m) a -> Forall (fun g => m <= g) b ->
  StronglySorted Z.le (a ++ b).
Proof.
  intros Sa Sb Fa Fb. induction Sa as [| x a Sa IH Hx]; [exact Sb |].
  simpl. constructor.
  - apply IH. inversion Fa; assumption.
  - apply Forall_app. split; [exact Hx |].
    eapply Forall_impl; [| exact Fb]. intros g Hg. cbv beta in Hg.
    inversion Fa; subst. lia.
Qed.

(** The arithmetic of one restart: with the offset [b'] the bridging block
    leaves, a final result that ends at least half a chunk plus one
    millisecond into the sub-session is written with a time that is not
    before the cut of the previous one. *)
Lemma clear_of_cut (L n X b' t : Z) :
  1 <= n ->
  2 * n * b' <= 2 * n * (L - X + 1) + L ->
  L <= 2 * n * (t - 1) ->
  X <= t - b' + L.
Proof.
  intros Hn Hb Ht.
  assert (H : 2 * n * b' <= 2 * n * (L - X + t)) by nia.
  assert (b' <= L - X + t); [| lia].
  apply (Z.mul_le_mono_pos_l _ _ (2 * n)); lia.
Qed.

(** The offset the bridging block leaves, between sub-sessions. *)
Lemma bridged_offset_bounds (c : config) (s : stream) :
  1 <= STREAMING_LIMIT c <= 2 ^ 40 ->
  1 <= Z.of_nat (length (_last_audio_input s)) <= 2 ^ 50 ->
  0 <= _bridging_offset s ->
  0 <= _final_request_end_time s <= STREAMING_LIMIT c ->
  0 <= bridged_offset c s <= STREAMING_LIMIT c + 1 /\
  2 * Z.of_nat (length (_last_audio_input s)) * bridged_offset c s
  <= 2 * Z.of_nat (length (_last_audio_input s))
     * (STREAMING_LIMIT c
        - Z.max (_final_request_end_time s - _bridging_offset s) 0 + 1)
     + STREAMING_LIMIT c.
Proof.
  intros HL Hn Hb HF.
  assert (HX : 0 <= _final_request_end_time s
                   - Spec.clamp (_bridging_offset s) 0
                       (_final_request_end_time s)
               <= STREAMING_LIMIT c)
    by (unfold Spec.clamp; lia).
  assert (EX : Z.max (_final_request_end_time s - _bridging_offset s) 0
               = _final_request_end_time s
                 - Spec.clamp (_bridging_offset s) 0
                     (_final_request_end_time s))
    by (unfold Spec.clamp; lia).
  rewrite EX. unfold bridged_offset.
  pose proof (OffsetArith.next_offset_nonneg _ _ _ HL Hn HX) as N0.
  pose proof (OffsetArith.next_offset_upper _ _ _ HL Hn HX) as [N1 N2].
  exact (conj (conj N0 N1) N2).
Qed.

Lemma session_step (c : config) (i : sub_session) (s s1 : stream)
  (out1 : list event) :
  1 <= STREAMING_LIMIT c <= 2 ^ 40 ->
  0 <= WORKAROUND_WINDOW c ->
  between_sessions c s ->
  well_timed c i s ->
  session_body c i s = Val (s1, out1) ->
  between_sessions c s1 /\
  StronglySorted Z.le (final_times out1) /\
  Forall (fun g => watermark c s <= g /\ g <= watermark c s1)
    (final_times out1) /\
  watermark c s <= watermark c s1.
Proof.
  intros HL HW (Hb & HF & HI & Hret & Hns) (Hn & Hord & Hclear) H.
  destruct (session_body_inv c i s s1 out1 H)
    as (ys & sg & sl & outl & Eg & El & -> & ->).
  pose proof (generator_frame c _ _ _ _ Eg)
    as (_ & Gr & Gl & Gret & GI & GF & _).
  assert (P62 : 2 ^ 40 <= 2 ^ 62) by (apply Z.pow_le_mono_r; lia).
  assert (Hsz : sizes_ok c (set_audio_input [] s)).
  { split; [lia |]. split; [exact Hn |]. 
    apply (Z.le_trans _ (STREAMING_LIMIT c)); [exact (proj2 HF) | lia]. }
  pose proof (generator_offset c _ _ _ _ Hsz Eg) as Go.
  destruct (listen_print_loop_frame c _ _ _ _ El)
    as [(_ & Lr & _ & _ & LF & Lb & _) _].
  destruct (listen_print_loop_ordered c _ 1 _ _ _ Hord El)
    as (So & Fo & Eo & No & Ro).
  pose proof (listen_print_loop_finals c _ _ _ _ El) as Fin.
  destruct (restart_fields sl) as (R1 & R2 & R3 & R4 & R5 & R6 & _ & _ & _ & R7).
  assert (Gr' : _restart_counter sg = _restart_counter s) by exact Gr.
  assert (GI' : _is_final_end_time sg = _is_final_end_time s) by exact GI.
  assert (GF' : _final_request_end_time sg = _final_request_end_time s)
    by exact GF.
  clear Gr GI GF Gl Gret.
  assert (A : 0 <= _bridging_offset sg <= STREAMING_LIMIT c + 1 /\
              forall t, 1 <= t ->
                (Z.of_nat (length (_last_audio_input s)) = 0
                 \/ STREAMING_LIMIT c
                    <= 2 * Z.of_nat (length (_last_audio_input s)) * (t - 1)) ->
                Z.max (_final_request_end_time s - _bridging_offset s) 0
                <= t - _bridging_offset sg + STREAMING_LIMIT c).
  { destruct Go as [Go | (_ & Gn & Go)].
    - assert (Go' : _bridging_offset sg = _bridging_offset s) by exact Go.
      rewrite Go'. split; [lia |]. intros t Ht _. lia.
    - assert (Gn' : _last_audio_input s <> []) by exact Gn.
      assert (Hn1 : 1 <= Z.of_nat (length (_last_audio_input s))).
      { destruct (_last_audio_input s); [congruence | cbn [length]; lia]. }
      destruct (bridged_offset_bounds c (set_audio_input [] s) HL
                  (conj Hn1 Hn) (proj1 Hb) HF) as [N1 N2].
      rewrite <- Go in N1, N2.
      assert (N2' :
        2 * Z.of_nat (length (_last_audio_input s)) * _bridging_offset sg
        <= 2 * Z.of_nat (length (_last_audio_input s))
           * (STREAMING_LIMIT c
              - Z.max (_final_request_end_time s - _bridging_offset s) 0 + 1)
           + STREAMING_LIMIT c) by exact N2.
      clear N2 Go.
      split; [exact N1 |]. intros t Ht [Hz | Hc]; [lia |].
      exact (clear_of_cut _ _ _ _ t Hn1 N2' Hc). }
  destruct A as [A1 A2]. clear Go Hsz.
  assert (HIl : 0 <= _is_final_end_time sl <= STREAMING_LIMIT c).
  { destruct (final_times outl) as [| g gs] eqn:Ef.
    - rewrite (Eo eq_refl), GI'. exact HI.
    - assert (N : g :: gs <> []) by discriminate. specialize (No N). lia. }
  assert (HFl : final_times outl <> [] -> (_result_end_time sl >? 0) = true).
  { intros N. destruct Ro as [Ro | [_ Ro]]; [lia | contradiction]. }
  assert (Fw : Forall (fun g =>
                 Z.max (_final_request_end_time s - _bridging_offset s) 0
                 <= g - STREAMING_LIMIT c * _restart_counter s
                    + STREAMING_LIMIT c
                 /\ g - STREAMING_LIMIT c * _restart_counter s
                    <= _is_final_end_time sl - _bridging_offset sg)
               (final_times outl)).
  { clear So Eo No Ro HFl.
    induction Fo as [| g gs [G1 G2] Fo IHf]; [constructor |].
    inversion Fin
      as [| ? ? (r0 & result & alt & t & Hin & Ht & Hf & Hm & Hw & Hg) Fin'];
      subst.
    constructor; [| exact (IHf Fin')].
    unfold corrected in G1, G2 |- *. rewrite Gr' in G1, G2 |- *.
    assert (T : 1 <= t) by lia.
    specialize (Hclear r0 result alt t Hin Ht Hf Hm Hw).
    specialize (A2 t T Hclear). lia. }
  unfold between_sessions, watermark.
  rewrite R1, R2, R3, R4, R5, R6, Lb, Lr, LF, Gr', GF'.
  cbn [final_times]. rewrite final_times_app, R7, app_nil_r.
  split; [| split; [exact So | split]].
  - destruct (_ >? _); lia.
  - destruct (final_times outl) as [| g gs] eqn:Ef; [constructor |].
    rewrite HFl by discriminate.
    eapply Forall_impl; [| exact Fw]. intros g' [G1 G2]. lia.
  - destruct (_ >? _); lia.
Qed.

(** Over a run the final lines are written in the order of their corrected
    times. *)
Lemma main_loop_ordered (c : config) (run : list sub_session) :
  1 <= STREAMING_LIMIT c <= 2 ^ 40 ->
  0 <= WORKAROUND_WINDOW c ->
  forall s s' out,
    between_sessions c s ->
    well_timed_run c run s ->
    main_loop c run s = Val (s', out) ->
    between_sessions c s' /\
    StronglySorted Z.le (final_times out) /\
    Forall (fun g => watermark c s <= g /\ g <= watermark c s')
      (final_times out) /\
    watermark c s <= watermark c s'.
Proof.
  intros HL HW. induction run as [| i rest IH]; intros s s' out Hb Hw H.
  - injection H as <- <-. simpl.
    split; [exact Hb |]. split; [constructor |]. split; [constructor | lia].
  - simpl in H. destruct (_closed s) eqn:Ec.
    + injection H as <- <-. simpl.
      split; [exact Hb |]. split; [constructor |]. split; [constructor | lia].
    + destruct Hw as [Hw | [Hw Hrest]]; [congruence |].
      destruct (session_body c i s) as [[s1 out1] | ex] eqn:Es;
        [| discriminate].
      rewrite bind_Val in H. cbv beta iota zeta in H.
      destruct (main_loop c rest s1) as [[s2 out2] | ex] eqn:Em;
        [| discriminate].
      rewrite bind_Val in H. injection H as <- <-.
      destruct (session_step c i s s1 out1 HL HW Hb Hw Es)
        as (B1 & S1 & F1 & W1).
      destruct (IH _ _ _ B1 (Hrest _ _ eq_refl) Em) as (B2 & S2 & F2 & W2).
      rewrite final_times_app.
      split; [exact B2 |]. split; [| split; [| lia]].
      * apply (StronglySorted_app _ _ (watermark c s1)); try assumption.
        -- eapply Forall_impl; [| exact F1]. intros g G. cbv beta in G. lia.
        -- eapply Forall_impl; [| exact F2]. intros g G. cbv beta in G. lia.
      * apply Forall_app. split.
        -- eapply Forall_impl; [| exact F1]. intros g G. cbv beta in G. lia.
        -- eapply Forall_impl; [| exact F2]. intros g G. cbv beta in G. lia.
Qed.

Lemma between_sessions_init (c : config) (start : Z) :
  1 <= STREAMING_LIMIT c -> between_sessions c (enter (init start)).
Proof. intros H. unfold between_sessions. cbn. lia. Qed.

(** X1.  Over a whole run the final lines come out in the order of their
    corrected times, when the end times the backend reports are positive
    and do not go back within a sub-session, and every final result written
    after a restart ends at least half a chunk of the previous sub-session
    plus one millisecond into its own. *)
Theorem X1_final_lines_ordered (c : config) (start : Z)
  (run : list sub_session) (s' : stream) (out : list event) :
  1 <= STREAMING_LIMIT c <= 2 ^ 40 ->
  0 <= WORKAROUND_WINDOW c ->
  well_timed_run c run (enter (init start)) ->
  main c start run = Val (s', out) ->
  StronglySorted Z.le (final_times out).
Proof.
  intros HL HW Hw H.
  exact (proj1 (proj2 (main_loop_ordered c run HL HW _ _ _
                         (between_sessions_init c start (proj1 HL)) Hw H))).
Qed.

(** The sample run meets the conditions of the ordering. *)
Lemma sample_run_well_timed :
  well_timed_run defaults sample_run (enter (init 0)).
Proof.
  right. split.
  - split; [vm_compute; discriminate |]. split.
    + exists 1000. split; [vm_compute; reflexivity |].
      split; [lia |]. exists 2500. split; [vm_compute; reflexivity |].
      split; [lia | exact I].
    + intros r result alt t _ _ _ _ _. left. reflexivity.
  - intros s1 out1 E1. vm_compute in E1. injection E1 as <- <-.
    right. split.
    + split; [vm_compute; discriminate |]. split.
      * exists 1500. split; [vm_compute; reflexivity |].
        split; [lia |]. exists 3000. split; [vm_compute; reflexivity |].
        split; [lia | exact I].
      * intros r result alt t [<- | [<- | []]] Ht Hf Hm _.
        -- injection Ht as <- <-. vm_compute in Hm. injection Hm as <-.
           right. vm_compute. discriminate.
        -- injection Ht as <- <-. discriminate Hf.
    + intros s2 out2 E2. vm_compute in E2. injection E2 as <- <-.
      left. reflexivity.
Qed.

Lemma X1_final_lines_ordered_witness :
  exists s' out,
    main defaults 0 sample_run = Val (s', out) /\
    final_times out = [2500; 4000] /\
    StronglySorted Z.le (final_times out).
Proof.
  assert (HL : 1 <= STREAMING_LIMIT defaults <= 2 ^ 40)
    by (split; vm_compute; discriminate).
  assert (HW : 0 <= WORKAROUND_WINDOW defaults) by (vm_compute; discriminate).
  assert (E : exists s' out,
             main defaults 0 sample_run = Val (s', out)
             /\ final_times out = [2500; 4000]).
  { do 2 eexists. split; vm_compute; reflexivity. }
  destruct E as (s' & out & E & Ef).
  exists s', out.
  exact (conj E (conj Ef (X1_final_lines_ordered defaults 0 sample_run s' out
                            HL HW sample_run_well_timed E))).
Defined.

(* ================================================================== *)
(** * C6: the order of the final lines over a run *)
(* ================================================================== *)

(** C6 as stated fails.  A first sub-session of 100 chunks whose final
    result ends at 8040 ms,
    and a second one, which replays from chunk 80 with the offset 2000,
    whose final result ends 30 ms in: the lines carry 8040 and then
    8030. *)
Lemma C6_counterexample :
  let run :=
    [ {| ticks := map (fun k => audio_tick (100 * Z.of_nat k)) (seq 1 100)
                  ++ [audio_tick 10001];
         responses := [single true 8 40000000 "one"] |};
      {| ticks := [audio_tick 10100; audio_tick 20002];
         responses := [single true 0 30000000 "two"] |} ] in
  exists s' out,
    main defaults 0 run = Val (s', out) /\
    out = [NewRequest 0; FinalLine 8040 "one";
           NewRequest 10000; FinalLine 8030 "two"] /\
    final_times out = [8040; 8030] /\
    ~ StronglySorted Z.le (final_times out).
Proof.
  intros run. do 2 eexists.
  split; [vm_compute; reflexivity |].
  split; [reflexivity |]. split; [reflexivity |].
  intros H. cbn in H. inversion H as [| a l _ F]; subst.
  inversion F as [| x l' Hx _]; subst. lia.
Qed.

Lemma StronglySorted_nth (l : list Z) :
  StronglySorted Z.le l ->
  forall i j g1 g2,
    (i < j)%nat -> nth_error l i = Some g1 -> nth_error l j = Some g2 ->
    g1 <= g2.
Proof.
  induction 1 as [| a l S IH F]; intros i j g1 g2 Hij H1 H2.
  - destruct i; discriminate H1.
  - destruct j as [| j]; [lia |]. cbn in H2.
    destruct i as [| i].
    + cbn in H1. injection H1 as <-.
      rewrite Forall_forall in F. apply F. exact (nth_error_In _ _ H2).
    + cbn in H1. apply (IH i j); [lia | assumption | assumption].
Qed.

(** C6, amended.  Over a whole run, whatever the restarts, of two final
    lines the one written later carries a time at least that of the one
    written earlier, when: the limit is between 1 and [2^40] ms and the
    window is not negative; a history holds at most [2^50] chunks; within
    a sub-session the end times reported are at least 1 ms and do not go
    back; and every final result written after a restart with a history of
    [n > 0] chunks ends at least half a chunk of that history plus one
    millisecond, [limit / (2 n) + 1], into its sub-session.  The passes of
    the generator of a sub-session are taken before its responses. *)
Theorem C6_final_times_monotone (c : config) (start : Z)
  (run : list sub_session) (s' : stream) (out : list event) :
  1 <= STREAMING_LIMIT c <= 2 ^ 40 ->
  0 <= WORKAROUND_WINDOW c ->
  well_timed_run c run (enter (init start)) ->
  main c start run = Val (s', out) ->
  forall i j g1 g2,
    (i < j)%nat ->
    nth_error (final_times out) i = Some g1 ->
    nth_error (final_times out) j = Some g2 ->
    g1 <= g2.
Proof.
  intros HL HW Hw H.
  apply StronglySorted_nth.
  exact (proj1 (proj2 (main_loop_ordered c run HL HW _ _ _
                         (between_sessions_init c start (proj1 HL)) Hw H))).
Qed.

Lemma C6_final_times_monotone_witness :
  exists s' out,
    main defaults 0 sample_run = Val (s', out) /\
    final_times out = [2500; 4000] /\
    forall i j g1 g2,
      (i < j)%nat ->
      nth_error (final_times out) i = Some g1 ->
      nth_error (final_times out) j = Some g2 ->
      g1 <= g2.
Proof.
  assert (HL : 1 <= STREAMING_LIMIT defaults <= 2 ^ 40)
    by (split; vm_compute; discriminate).
  assert (HW : 0 <= WORKAROUND_WINDOW defaults) by (vm_compute; discriminate).
  assert (E : exists s' out,
             main defaults 0 sample_run = Val (s', out)
             /\ final_times out = [2500; 4000]).
  { do 2 eexists. split; vm_compute; reflexivity. }
  destruct E as (s' & out & E & Ef).
  exists s', out.
  exact (conj E (conj Ef (C6_final_times_monotone defaults 0 sample_run s' out
                            HL HW sample_run_well_timed E))).
Defined.

(* ================================================================== *)
(** * What the result loop reads *)
(* ================================================================== *)

Lemma handle_response_first_only (c : config)
  (response : StreamingRecognizeResponse) (s : stream) :
  handle_response c (first_only response) s = handle_response c response s.
Proof.
  unfold first_only, top, handle_response.
  destruct (results response) as [| result rs]; [reflexivity |].
  destruct (alternatives result) as [| alt al]; reflexivity.
Qed.

Lemma listen_print_loop_first_only (c : config)
  (rs : list StreamingRecognizeResponse) (s : stream) :
  listen_print_loop c (map first_only rs) s = listen_print_loop c rs s.
Proof.
  revert s. induction rs as [| r rest IH]; intros s; [reflexivity |].
  cbn [map listen_print_loop]. rewrite handle_response_first_only.
  destruct (handle_response c r s) as [[[s1 out1] fl] | e]; [| reflexivity].
  rewrite !bind_Val. cbv beta iota zeta. destruct fl; [| reflexivity].
  rewrite IH. reflexivity.
Qed.

Lemma listen_print_loop_has_top (c : config)
  (rs : list StreamingRecognizeResponse) (s : stream) :
  listen_print_loop c (filter has_top rs) s = listen_print_loop c rs s.
Proof.
  revert s. induction rs as [| r rest IH]; intros s; [reflexivity |].
  cbn [filter]. unfold has_top at 1.
  destruct (top r) as [p |] eqn:Et.
  - cbn [listen_print_loop].
    destruct (handle_response c r s) as [[[s1 out1] fl] | e]; [| reflexivity].
    rewrite !bind_Val. cbv beta iota zeta. destruct fl; [| reflexivity].
    rewrite IH. reflexivity.
  - rewrite IH. cbn [listen_print_loop].
    rewrite (handle_response_skip c r s Et), bind_Val. cbv beta iota zeta.
    destruct (listen_print_loop c rest s) as [[s2 out2] | e]; reflexivity.
Qed.

(** X2.  The result loop reads nothing of a response but its first result
    and that result's first alternative, and a response that lacks either
    is passed over: cutting every response down to these two, or dropping
    the responses that lack them, changes neither the lines written nor the
    state left. *)
Theorem X2_first_result_only (c : config)
  (rs : list StreamingRecognizeResponse) (s : stream) :
  listen_print_loop c (map first_only rs) s = listen_print_loop c rs s /\
  listen_print_loop c (filter has_top rs) s = listen_print_loop c rs s.
Proof.
  split; [apply listen_print_loop_first_only | apply listen_print_loop_has_top].
Qed.

(* ================================================================== *)
(** * The headers of the sub-sessions *)
(* ================================================================== *)

Lemma request_times_app (a b : list event) :
  request_times (a ++ b) = request_times a ++ request_times b.
Proof.
  induction a as [| e a IH]; [reflexivity |].
  destruct e; simpl; rewrite IH; reflexivity.
Qed.

Lemma handle_response_no_request (c : config)
  (response : StreamingRecognizeResponse) (s s' : stream) (out : list event)
  (fl : flow) :
  handle_response c response s = Val (s', out, fl) -> request_times out = [].
Proof.
  intros H. destruct (handle_response_cases c _ _ _ _ _ H)
    as [(_ & _ & -> & _) | (result & alt & t & _ & _ & Hc)]; [reflexivity |].
  cbv zeta in Hc.
  destruct Hc as [(_ & _ & -> & _) | [(_ & _ & _ & -> & _)
                 | [(_ & _ & _ & _ & -> & _) | (_ & _ & _ & _ & -> & _)]]];
    reflexivity.
Qed.

Lemma listen_print_loop_no_request (c : config)
  (rs : list StreamingRecognizeResponse) :
  forall s s' out,
    listen_print_loop c rs s = Val (s', out) -> request_times out = [].
Proof.
  induction rs as [| r rest IH]; intros s s' out H.
  - injection H as _ <-. reflexivity.
  - simpl in H.
    destruct (handle_response c r s) as [[[s1 out1] fl] | ex] eqn:Eh;
      [| discriminate].
    simpl in H. pose proof (handle_response_no_request c _ _ _ _ _ Eh) as N.
    destruct fl.
    + destruct (listen_print_loop c rest s1) as [[s2 out2] | ex] eqn:El;
        [| discriminate].
      simpl in H. injection H as _ <-.
      rewrite request_times_app, N, (IH _ _ _ El). reflexivity.
    + injection H as _ <-. exact N.
Qed.

Lemma restart_no_request (s : stream) : request_times (snd (restart s)) = [].
Proof.
  unfold restart. cbv zeta. cbn [snd].
  destruct (negb _); reflexivity.
Qed.

Lemma session_body_requests (c : config) (i : sub_session) (s s1 : stream)
  (out1 : list event) :
  session_body c i s = Val (s1, out1) ->
  request_times out1 = [STREAMING_LIMIT c * _restart_counter s] /\
  _restart_counter s1 = _restart_counter s + 1.
Proof.
  intros H.
  destruct (session_body_inv c i s s1 out1 H)
    as (ys & sg & sl & outl & Eg & El & -> & ->).
  pose proof (generator_frame c _ _ _ _ Eg) as (_ & Gr & _).
  destruct (listen_print_loop_frame c _ _ _ _ El) as [(_ & Lr & _) _].
  destruct (restart_fields sl) as (R1 & _).
  split.
  - cbn [request_times].
    rewrite request_times_app, (listen_print_loop_no_request c _ _ _ _ El),
      restart_no_request. reflexivity.
  - rewrite R1, Lr, Gr. reflexivity.
Qed.

Lemma main_loop_requests (c : config) (run : list sub_session) :
  forall s s' out,
    main_loop c run s = Val (s', out) ->
    exists k : nat,
      (k <= length run)%nat /\
      _restart_counter s' = _restart_counter s + Z.of_nat k /\
      request_times out
      = map (fun j => STREAMING_LIMIT c * (_restart_counter s + Z.of_nat j))
          (seq 0 k).
Proof.
  induction run as [| i rest IH]; intros s s' out H.
  - injection H as <- <-. exists 0%nat. cbn. split; [lia |]. split; [lia |].
    reflexivity.
  - simpl in H. destruct (_closed s).
    + injection H as <- <-. exists 0%nat. cbn. split; [lia |].
      split; [lia | reflexivity].
    + destruct (session_body c i s) as [[s1 out1] | ex] eqn:Es;
        [| discriminate].
      rewrite bind_Val in H. cbv beta iota zeta in H.
      destruct (main_loop c rest s1) as [[s2 out2] | ex] eqn:Em;
        [| discriminate].
      rewrite bind_Val in H. injection H as <- <-.
      destruct (session_body_requests c i s s1 out1 Es) as [Q1 R1].
      destruct (IH _ _ _ Em) as (k & Hk & Rk & Qk).
      exists (S k). split; [cbn [length]; lia |]. split; [lia |].
      rewrite request_times_app, Q1, Qk. cbn [seq map app].
      f_equal; [f_equal; lia |].
      rewrite <- seq_shift, map_map. apply map_ext. intros j.
      f_equal. lia.
Qed.

(** X3.  The sub-sessions of a run are announced in order: the [k]
    sub-sessions a run goes through write the headers [0], [STREAMING_LIMIT],
    ..., [(k - 1) * STREAMING_LIMIT], one each, and leave [_restart_counter]
    at [k]. *)
Theorem X3_request_headers (c : config) (start : Z) (run : list sub_session)
  (s' : stream) (out : list event) :
  main c start run = Val (s', out) ->
  exists k : nat,
    (k <= length run)%nat /\
    _restart_counter s' = Z.of_nat k /\
    request_times out
    = map (fun j => STREAMING_LIMIT c * Z.of_nat j) (seq 0 k).
Proof.
  intros H. destruct (main_loop_requests c run _ _ _ H) as (k & Hk & Rk & Qk).
  exists k. split; [exact Hk |]. split; [exact Rk |]. exact Qk.
Qed.

(* ================================================================== *)
(** * The end of a run *)
(* ================================================================== *)

Lemma restart_out (s : stream) :
  snd (restart s)
  = if _last_transcript_was_final s then [] else [Newline].
Proof.
  unfold restart. cbv zeta. cbn [snd].
  destruct (_result_end_time s >? 0); cbn;
    destruct (_last_transcript_was_final s); reflexivity.
Qed.

Lemma handle_response_exiting (c : config)
  (response : StreamingRecognizeResponse) (s s' : stream) (out : list event)
  (fl : flow) :
  handle_response c response s = Val (s', out, fl) ->
  (fl = Break /\ _closed s' = true /\ _last_transcript_was_final s' = true /\
   exists pre, out = pre ++ [Exiting] /\ ~ In Exiting pre) \/
  (fl = Continue /\ _closed s' = _closed s /\ ~ In Exiting out).
Proof.
  intros H. destruct (handle_response_cases c _ _ _ _ _ H)
    as [(_ & -> & -> & ->) | (result & alt & t & _ & _ & Hc)].
  - right. repeat split. intros [].
  - cbv zeta in Hc.
    destruct Hc as [(_ & -> & -> & ->) | [(_ & _ & -> & -> & ->)
                   | [(_ & _ & _ & -> & -> & ->)
                     | (_ & _ & _ & -> & -> & ->)]]].
    + right. repeat split. intros [E | []]. discriminate E.
    + right. repeat split. intros [].
    + right. repeat split. intros [E | []]. discriminate E.
    + left. repeat split.
      exists [FinalLine (corrected c s t) (transcript alt)].
      split; [reflexivity |]. intros [E | []]. discriminate E.
Qed.

Lemma listen_print_loop_exiting (c : config)
  (rs : list StreamingRecognizeResponse) :
  forall s s' out,
    listen_print_loop c rs s = Val (s', out) ->
    (_closed s' = true /\ _last_transcript_was_final s' = true /\
     exists pre, out = pre ++ [Exiting] /\ ~ In Exiting pre) \/
    (_closed s' = _closed s /\ ~ In Exiting out).
Proof.
  induction rs as [| r rest IH]; intros s s' out H.
  - injection H as <- <-. right. split; [reflexivity | intros []].
  - simpl in H.
    destruct (handle_response c r s) as [[[s1 out1] fl] | ex] eqn:Eh;
      [| discriminate].
    simpl in H.
    destruct (handle_response_exiting c _ _ _ _ _ Eh)
      as [(-> & Hc & Hf & pre & -> & Hp) | (-> & Hc & Hn)].
    + injection H as <- <-. left. split; [exact Hc |]. split; [exact Hf |].
      exists pre. split; [reflexivity | exact Hp].
    + destruct (listen_print_loop c rest s1) as [[s2 out2] | ex] eqn:El;
        [| discriminate].
      simpl in H. injection H as <- <-.
      destruct (IH _ _ _ El) as [(Hc2 & Hf2 & pre & -> & Hp) | (Hc2 & Hn2)].
      * left. split; [exact Hc2 |]. split; [exact Hf2 |].
        exists (out1 ++ pre). split; [apply app_assoc |].
        intros Hi. apply in_app_or in Hi. tauto.
      * right. split; [congruence |].
        intros Hi. apply in_app_or in Hi. tauto.
Qed.

Lemma session_body_exiting (c : config) (i : sub_session) (s s1 : stream)
  (out1 : list event) :
  session_body c i s = Val (s1, out1) ->
  (_closed s1 = true /\
   exists pre, out1 = pre ++ [Exiting] /\ ~ In Exiting pre) \/
  (_closed s1 = _closed s /\ ~ In Exiting out1).
Proof.
  intros H.
  destruct (session_body_inv c i s s1 out1 H)
    as (ys & sg & sl & outl & Eg & El & -> & ->).
  pose proof (generator_frame c _ _ _ _ Eg) as (Gc & _).
  rewrite restart_closed, restart_out.
  destruct (listen_print_loop_exiting c _ _ _ _ El)
    as [(Hc & Hf & pre & -> & Hp) | (Hc & Hn)].
  - left. split; [exact Hc |]. rewrite Hf, app_nil_r.
    exists (NewRequest (STREAMING_LIMIT c * _restart_counter s) :: pre).
    split; [reflexivity |]. intros [E | Hi]; [discriminate E | tauto].
  - right. split; [rewrite Hc; exact Gc |].
    intros [E | Hi]; [discriminate E |]. apply in_app_or in Hi.
    destruct Hi as [Hi | Hi]; [tauto |].
    destruct (_last_transcript_was_final sl); [destruct Hi |].
    destruct Hi as [E | []]. discriminate E.
Qed.

Lemma main_loop_exiting (c : config) (run : list sub_session) :
  forall s s' out,
    _closed s = false ->
    main_loop c run s = Val (s', out) ->
    (_closed s' = true /\
     exists pre, out = pre ++ [Exiting] /\ ~ In Exiting pre) \/
    (_closed s' = false /\ ~ In Exiting out).
Proof.
  induction run as [| i rest IH]; intros s s' out Hc H.
  - injection H as <- <-. right. split; [exact Hc | intros []].
  - simpl in H. rewrite Hc in H.
    destruct (session_body c i s) as [[s1 out1] | ex] eqn:Es;
      [| discriminate].
    rewrite bind_Val in H. cbv beta iota zeta in H.
    destruct (session_body_exiting c i s s1 out1 Es)
      as [(Hc1 & pre & -> & Hp) | (Hc1 & Hn1)].
    + rewrite (main_loop_closed c rest s1 Hc1), bind_Val in H.
      injection H as <- <-. left. split; [exact Hc1 |].
      exists pre. rewrite app_nil_r. split; [reflexivity | exact Hp].
    + rewrite Hc in Hc1.
      destruct (main_loop c rest s1) as [[s2 out2] | ex] eqn:Em;
        [| discriminate].
      rewrite bind_Val in H. injection H as <- <-.
      destruct (IH _ _ _ Hc1 Em) as [(Hc2 & pre & -> & Hp) | (Hc2 & Hn2)].
      * left. split; [exact Hc2 |]. exists (out1 ++ pre).
        split; [apply app_assoc |].
        intros Hi. apply in_app_or in Hi. tauto.
      * right. split; [exact Hc2 |].
        intros Hi. apply in_app_or in Hi. tauto.
Qed.

(** X4.  A run ends closed exactly when it has written the exit notice, and
    the notice, once written, is the last thing the run writes: nothing
    follows it, not the line break of the restart nor the header of another
    sub-session, and it is written once. *)
Theorem X4_exit_notice_last (c : config) (start : Z) (run : list sub_session)
  (s' : stream) (out : list event) :
  main c start run = Val (s', out) ->
  (_closed s' = true <-> In Exiting out) /\
  (In Exiting out ->
   exists pre, out = pre ++ [Exiting] /\ ~ In Exiting pre).
Proof.
  intros H.
  destruct (main_loop_exiting c run (enter (init start)) s' out eq_refl H)
    as [(Hc & pre & -> & Hp) | (Hc & Hn)].
  - split.
    + split; [intros _ | intros _; exact Hc].
      apply in_or_app. right. left. reflexivity.
    + intros _. exists pre. split; [reflexivity | exact Hp].
  - split.
    + split; [congruence | tauto].
    + tauto.
Qed.

Lemma X4_exit_notice_last_witness :
  exists s' out,
    main defaults 0 sample_run = Val (s', out) /\
    _closed s' = true /\
    ((_closed s' = true <-> In Exiting out) /\
     (In Exiting out ->
      exists pre, out = pre ++ [Exiting] /\ ~ In Exiting pre)).
Proof.
  assert (E : exists s' out,
             main defaults 0 sample_run = Val (s', out) /\ _closed s' = true).
  { do 2 eexists. split; vm_compute; reflexivity. }
  destruct E as (s' & out & E & Ec).
  exists s', out.
  exact (conj E (conj Ec (X4_exit_notice_last defaults 0 sample_run s' out E))).
Defined.

Lemma X3_request_headers_witness :
  exists s' out,
    main defaults 0 sample_run = Val (s', out) /\
    request_times out = [0; 10000] /\
    exists k : nat,
      (k <= length sample_run)%nat /\
      _restart_counter s' = Z.of_nat k /\
      request_times out
      = map (fun j => STREAMING_LIMIT defaults * Z.of_nat j) (seq 0 k).
Proof.
  assert (E : exists s' out,
             main defaults 0 sample_run = Val (s', out)
             /\ request_times out = [0; 10000]).
  { do 2 eexists. split; vm_compute; reflexivity. }
  destruct E as (s' & out & E & Er).
  exists s', out.
  exact (conj E (conj Er (X3_request_headers defaults 0 sample_run s' out E))).
Defined.

(* ================================================================== *)
(** * The fields each side writes *)
(* ================================================================== *)

(** X5.  The result loop writes [_closed], [_result_end_time],
    [_is_final_end_time] and [_last_transcript_was_final] and nothing else:
    the audio, the offset, the restart counter, the start time and
    [_final_request_end_time] are as it found them.  It closes the stream
    at most; a closed stream stays closed. *)
Theorem X5_result_loop_frame (c : config)
  (rs : list StreamingRecognizeResponse) (s s' : stream) (out : list event) :
  listen_print_loop c rs s = Val (s', out) ->
  same_audio s s' /\ (_closed s = true -> _closed s' = true).
Proof. apply listen_print_loop_frame. Qed.

Lemma X5_result_loop_frame_witness :
  let rs := [single false 1 0 "he"; single true 2 500000000 "hello"] in
  exists s' out,
    listen_print_loop defaults rs (enter (init 0)) = Val (s', out) /\
    _is_final_end_time s' = 2500 /\
    (same_audio (enter (init 0)) s'
     /\ (_closed (enter (init 0)) = true -> _closed s' = true)).
Proof.
  intros rs.
  assert (E : exists s' out,
             listen_print_loop defaults rs (enter (init 0)) = Val (s', out)
             /\ _is_final_end_time s' = 2500).
  { do 2 eexists. split; vm_compute; reflexivity. }
  destruct E as (s' & out & E & Ei).
  exists s', out.
  exact (conj E (conj Ei (X5_result_loop_frame defaults rs _ s' out E))).
Defined.

(** X6.  The request generator writes [_start_time], [_audio_input],
    [_bridging_offset] and [_new_stream] and nothing else: whatever passes
    it makes, the fields of the result loop and of the restart are as it
    found them; in particular it never closes the stream. *)
Theorem X6_generator_frame (c : config) (ts : list tick) (s s' : stream)
  (ys : list (list bytes)) :
  generator c ts s = Val (ys, s') -> same_results s s'.
Proof. apply generator_frame. Qed.

Lemma X6_generator_frame_witness :
  let s := set_final_request_end_time 2500
             (set_last_audio_input
                [Some [Byte.x01]; Some [Byte.x02]; Some [Byte.x03];
                 Some [Byte.x04]]
                (enter (init 0))) in
  let ts := [audio_tick 100; audio_tick 200; audio_tick 10001] in
  exists ys s',
    generator defaults ts s = Val (ys, s') /\
    _bridging_offset s' = 7500 /\
    same_results s s'.
Proof.
  intros s ts.
  assert (E : exists ys s',
             generator defaults ts s = Val (ys, s')
             /\ _bridging_offset s' = 7500).
  { do 2 eexists. split; vm_compute; reflexivity. }
  destruct E as (ys & s' & E & Eb).
  exists ys, s'.
  exact (conj E (conj Eb (X6_generator_frame defaults ts s s' ys E))).
Defined.

(* ================================================================== *)
(** * What the generator sends and what it records *)
(* ================================================================== *)

Lemma getitem_In {A : Type} (l : list A) (i : Z) (a : A) :
  Py.getitem l i = Val a -> In a l.
Proof.
  unfold Py.getitem. cbv zeta.
  destruct (_ && _); [| discriminate].
  destruct (nth_error l _) as [x |] eqn:E; [| discriminate].
  intros H. injection H as <-. exact (nth_error_In _ _ E).
Qed.

Lemma gather_incl {A : Type} (l : list A) (idx : list Z) :
  forall acc r,
    Py.gather l idx acc = Val r -> exists r', r = acc ++ r' /\ incl r' l.
Proof.
  induction idx as [| i idx IH]; intros acc r H; simpl in H.
  - injection H as <-. exists []. rewrite app_nil_r. split; [reflexivity |].
    intros x [].
  - destruct (Py.getitem l i) as [a |] eqn:Ea; [| discriminate].
    rewrite bind_Val in H. destruct (IH _ _ H) as (r' & -> & Hi).
    exists (a :: r'). rewrite <- app_assoc. split; [reflexivity |].
    intros x [<- | Hx]; [exact (getitem_In _ _ _ Ea) | exact (Hi _ Hx)].
Qed.

Lemma clamp_audio (s : stream) :
  _last_audio_input (clamp_bridging_offset s) = _last_audio_input s /\
  _audio_input (clamp_bridging_offset s) = _audio_input s.
Proof.
  unfold clamp_bridging_offset. cbv zeta.
  destruct (_bridging_offset s <? 0); cbn;
    destruct (_ >? _); split; reflexivity.
Qed.

Lemma replay_data (chunkTime : Q) (s s1 : stream) (d : list chunk) :
  replay chunkTime s [] = Val (s1, d) -> incl d (_last_audio_input s).
Proof.
  unfold replay. cbv zeta. intros H.
  destruct (Py.int_to_float _) as [x |]; [| discriminate].
  rewrite bind_Val in H.
  destruct (Py.float_div x chunkTime) as [q |]; [| discriminate].
  rewrite bind_Val in H.
  destruct (Py.int_to_float _) as [k |]; [| discriminate].
  rewrite bind_Val in H.
  destruct (Py.float_mul k chunkTime) as [p |]; [| discriminate].
  rewrite bind_Val in H.
  destruct (Py.gather _ _ _) as [d' |] eqn:Eg; [| discriminate].
  rewrite bind_Val in H. injection H as _ <-.
  destruct (gather_incl _ _ _ _ Eg) as (r' & -> & Hi).
  cbn [app]. cbn [_last_audio_input set_bridging_offset] in Hi.
  rewrite (proj1 (clamp_audio s)) in Hi. exact Hi.
Qed.

(** The bridging block replays chunks of the previous history only, and
    only once in a sub-session. *)
Lemma bridge_data (c : config) (s s1 : stream) (d : list chunk) :
  bridge c s = Val (s1, d) ->
  incl d (_last_audio_input s) /\
  (_new_stream s = false \/ _last_audio_input s = [] -> d = []) /\
  (_new_stream s1 = false \/ _last_audio_input s1 = []).
Proof.
  intros H. destruct (bridge_frame c s s1 d H) as ((_ & _ & Hl & _) & _ & _).
  revert H. unfold bridge.
  destruct (_new_stream s) eqn:En.
  - destruct (_last_audio_input s) as [| ch l] eqn:El.
    + cbn. intros H. injection H as <- <-.
      split; [intros x [] |]. split; [reflexivity |]. right. exact El.
    + rewrite andb_true_l.
      replace (negb (Z.of_nat (length (ch :: l)) =? 0)) with true
        by (symmetry; apply negb_true_iff, Z.eqb_neq; cbn [length]; lia).
      intros H.
      destruct (Py.int_truediv _ _) as [chunkTime |]; [| discriminate].
      rewrite bind_Val in H.
      destruct (negb (Qeq_bool chunkTime 0)).
      * destruct (replay chunkTime s []) as [[s2 d2] |] eqn:Er;
          [| discriminate].
        rewrite bind_Val in H. injection H as <- <-.
        split; [rewrite <- El; exact (replay_data _ _ _ _ Er) |].
        split; [intros [E | E]; discriminate E |]. left. reflexivity.
      * rewrite bind_Val in H. injection H as <- <-.
        split; [intros x [] |].
        split; [intros [E | E]; discriminate E |]. left. reflexivity.
  - rewrite andb_false_l. intros H. injection H as <- <-.
    split; [intros x [] |]. split; [reflexivity |]. left. exact En.
Qed.

Lemma drain_taken (items : list chunk) :
  forall data hist,
    exists taken ended,
      drain items data hist
      = (data ++ map Some taken, hist ++ map Some taken, ended).
Proof.
  induction items as [| [b |] items IH]; intros data hist; simpl.
  - exists [], false. rewrite !app_nil_r. reflexivity.
  - destruct (IH (data ++ [Some b]) (hist ++ [Some b])) as (taken & ended & E).
    exists (b :: taken), ended. rewrite E, <- !app_assoc. reflexivity.
  - exists [], true. rewrite !app_nil_r. reflexivity.
Qed.

Lemma pieces_inv (data : list chunk) :
  forall bs, pieces data = Val bs -> data = map Some bs.
Proof.
  induction data as [| [b |] data IH]; intros bs H; simpl in H.
  - injection H as <-. reflexivity.
  - destruct (pieces data) as [bs' |]; [| discriminate].
    rewrite bind_Val in H. injection H as <-.
    rewrite (IH _ eq_refl). reflexivity.
  - discriminate.
Qed.

Lemma drain_all_audio (items : list chunk) :
  forall data hist,
    forallb is_audio items = true ->
    drain items data hist = (data ++ items, hist ++ items, false).
Proof.
  induction items as [| [b |] items IH]; intros data hist H; simpl in *.
  - rewrite !app_nil_r. reflexivity.
  - rewrite (IH _ _ H), <- !app_assoc. reflexivity.
  - discriminate H.
Qed.

Lemma drain_marker (items : list chunk) :
  forall data hist,
    forallb is_audio items = false ->
    drain items data hist
    = (data ++ leading items, hist ++ leading items, true).
Proof.
  induction items as [| [b |] items IH]; intros data hist H; simpl in *.
  - discriminate H.
  - rewrite (IH _ _ H), <- !app_assoc. reflexivity.
  - rewrite !app_nil_r. reflexivity.
Qed.

Lemma passes_same (c : config) (s s1 : stream) (t : tick) :
  _closed s1 = _closed s -> _start_time s1 = _start_time s ->
  passes c s1 t = passes c s t.
Proof. intros Hc Hs. unfold passes. rewrite Hc, Hs. reflexivity. Qed.

Lemma yielding_same (c : config) (s s1 : stream) (ts : list tick) :
  _closed s1 = _closed s -> _start_time s1 = _start_time s ->
  yielding c s1 ts = yielding c s ts.
Proof.
  intros Hc Hs. induction ts as [| t ts IH]; [reflexivity |].
  cbn [yielding]. unfold yields. rewrite (passes_same c s s1 t Hc Hs), IH.
  reflexivity.
Qed.

Lemma last_recorded_same (c : config) (s s1 : stream) (ts : list tick) :
  _closed s1 = _closed s -> _start_time s1 = _start_time s ->
  last_recorded c s1 ts = last_recorded c s ts.
Proof.
  intros Hc Hs. destruct ts as [| t ts]; [reflexivity |].
  cbn [last_recorded]. rewrite (passes_same c s s1 t Hc Hs). reflexivity.
Qed.

(** A pass that yields: what it yields is what the bridging block gives
    followed by what the pass finds in the queue, and it records the
    latter. *)
Lemma generator_pass_yields (c : config) (t : tick) (s : stream)
  (o : outcome) :
  yields c s t = true ->
  generator_pass c t s = Val o ->
  exists bs s1 sb d,
    o = Yield bs s1 /\
    bridge c s = Val (sb, d) /\
    map Some bs = d ++ first t :: buffered t /\
    _audio_input s1 = _audio_input s ++ first t :: buffered t /\
    _closed s1 = _closed s /\ _start_time s1 = _start_time s /\
    _last_audio_input s1 = _last_audio_input s /\
    (_new_stream s1 = false \/ _last_audio_input s1 = []).
Proof.
  unfold yields, passes. intros Hy H.
  apply andb_true_iff in Hy. destruct Hy as [Hp Ha].
  apply andb_true_iff in Hp. destruct Hp as [Hc Hl].
  apply negb_true_iff in Hc, Hl.
  cbn [forallb] in Ha. apply andb_true_iff in Ha. destruct Ha as [Hf Hb].
  unfold generator_pass in H. rewrite Hc, Hl in H.
  destruct (bridge c s) as [[sb d] |] eqn:Eb; [| discriminate].
  rewrite bind_Val in H. cbv beta iota zeta in H.
  destruct (bridge_frame c s sb d Eb)
    as ((Fc & _ & Fl & _) & Fs & Fa).
  destruct (bridge_data c s sb d Eb) as (_ & _ & Hn).
  destruct (first t) as [b |]; [| discriminate Hf].
  cbn [_audio_input set_audio_input] in H.
  rewrite (drain_all_audio _ _ _ Hb) in H.
  destruct (pieces _) as [bs |] eqn:Ep; [| discriminate].
  rewrite bind_Val in H. injection H as <-.
  apply pieces_inv in Ep.
  exists bs. eexists. exists sb, d.
  split; [reflexivity |]. split; [reflexivity |].
  split; [rewrite <- Ep, <- app_assoc; reflexivity |].
  cbn [_audio_input set_audio_input _closed _start_time _last_audio_input
       _new_stream].
  split; [rewrite Fa, <- app_assoc; reflexivity |].
  split; [exact Fc |]. split; [exact Fs |]. split; [exact Fl |].
  exact Hn.
Qed.

(** A pass that does not yield ends the generator, having recorded what
    [last_recorded] says. *)
Lemma generator_pass_stops (c : config) (t : tick) (ts : list tick)
  (s : stream) (o : outcome) :
  yields c s t = false ->
  generator_pass c t s = Val o ->
  (forall bs s1, o <> Yield bs s1) /\
  _audio_input (state_of o)
  = _audio_input s ++ last_recorded c s (t :: ts).
Proof.
  unfold yields. cbn [last_recorded]. unfold passes. intros Hy H.
  unfold generator_pass in H.
  destruct (_closed s).
  { injection H as <-. cbn. rewrite app_nil_r.
    split; [discriminate | reflexivity]. }
  destruct (now t - _start_time s >? STREAMING_LIMIT c).
  { injection H as <-. cbn. rewrite app_nil_r.
    split; [discriminate | reflexivity]. }
  cbn [negb andb] in Hy |- *.
  destruct (bridge c s) as [[sb d] |] eqn:Eb; [| discriminate].
  rewrite bind_Val in H. cbv beta iota zeta in H.
  destruct (bridge_frame c s sb d Eb) as (_ & _ & Fa).
  destruct (first t) as [b |].
  - cbn [forallb is_audio andb] in Hy.
    cbn [_audio_input set_audio_input] in H.
    rewrite (drain_marker _ _ _ Hy) in H. injection H as <-.
    cbn [state_of _audio_input set_audio_input].
    split; [discriminate |]. rewrite Fa, <- app_assoc. reflexivity.
  - injection H as <-. cbn [state_of _audio_input set_audio_input].
    split; [discriminate |]. rewrite Fa. reflexivity.
Qed.

(** X7.  What a sub-session sends and what it records.  The generator
    yields once for each pass up to the first that finds the stream
    closed, the limit exceeded or an end marker in the queue.  What it
    yields is, in order, what the bridging block replays in the first of
    these passes, which are chunks of the previous history and none unless
    a restart has marked the sub-session and there is a history, followed
    by everything these passes find in the queue.  It records in
    [_audio_input] what the passes find in the queue, never what is
    replayed, and then what the pass that ends it has read.  Every value
    it yields holds at least one chunk. *)
Theorem X7_generator_history (c : config) (ts : list tick) (s s' : stream)
  (ys : list (list bytes)) :
  generator c ts s = Val (ys, s') ->
  exists replayed,
    length ys = length (yielding c s ts) /\
    map Some (concat ys) = replayed ++ pulled (yielding c s ts) /\
    _audio_input s'
    = _audio_input s ++ pulled (yielding c s ts)
      ++ last_recorded c s (skipn (length (yielding c s ts)) ts) /\
    (yielding c s ts = [] -> replayed = []) /\
    (yielding c s ts <> [] -> exists sb, bridge c s = Val (sb, replayed)) /\
    incl replayed (_last_audio_input s) /\
    (_new_stream s = false \/ _last_audio_input s = [] -> replayed = []) /\
    Forall (fun y => y <> []) ys.
Proof.
  revert s s' ys.
  induction ts as [| t ts IH]; intros s s' ys H; simpl in H.
  - injection H as <- <-. exists []. cbn. rewrite app_nil_r.
    repeat split; try reflexivity; try constructor.
    + intros N. contradiction N. reflexivity.
    + intros x [].
  - destruct (generator_pass c t s) as [o |] eqn:Ep; [| discriminate].
    rewrite bind_Val in H. cbn [yielding].
    destruct (yields c s t) eqn:Ey.
    + destruct (generator_pass_yields c t s o Ey Ep)
        as (bs & s1 & sb & d & -> & Eb & Eo & Ea & Fc & Fs & Fl & Hn).
      destruct (generator c ts s1) as [[ys1 s2] |] eqn:Eg; [| discriminate].
      rewrite bind_Val in H. injection H as <- <-.
      destruct (IH _ _ _ Eg) as (rep1 & L1 & C1 & A1 & _ & _ & _ & Z1 & N1).
      rewrite (Z1 Hn) in C1. cbn [app] in C1.
      rewrite (yielding_same c s s1 ts Fc Fs) in L1, C1, A1.
      rewrite (last_recorded_same c s s1 _ Fc Fs) in A1.
      destruct (bridge_data c s sb d Eb) as (Hi & Hz & _).
      exists d. cbn [length concat skipn pulled flat_map].
      fold (pulled (yielding c s ts)).
      split; [rewrite L1; reflexivity |].
      split; [rewrite map_app, C1, Eo, <- app_assoc; reflexivity |].
      split; [rewrite A1, Ea, <- !app_assoc; reflexivity |].
      split; [discriminate |].
      split; [intros _; exists sb; exact Eb |].
      split; [exact Hi |]. split; [exact Hz |].
      constructor; [| exact N1].
      intros E. rewrite E in Eo. destruct d; discriminate Eo.
    + destruct (generator_pass_stops c t ts s o Ey Ep) as [Hno Ha].
      assert (E : ys = [] /\ s' = state_of o).
      { destruct o as [s1 | s1 | s1 | bs s1];
          try (injection H as <- <-; split; reflexivity).
        exfalso. exact (Hno bs s1 eq_refl). }
      destruct E as [-> ->].
      exists []. cbn [length concat skipn pulled flat_map app map].
      split; [reflexivity |]. split; [reflexivity |].
      split; [exact Ha |]. split; [reflexivity |].
      split; [intros N; contradiction N; reflexivity |].
      split; [intros x [] |]. split; [reflexivity | constructor].
Qed.

Lemma X7_generator_history_witness :
  let s := set_final_request_end_time 2500
             (set_last_audio_input
                [Some [Byte.x01]; Some [Byte.x02]; Some [Byte.x03];
                 Some [Byte.x04]]
                (enter (init 0))) in
  let ts := [ {| now := 100; now_again := 100; first := Some [Byte.x05];
                 buffered := [Some [Byte.x06]] |};
              {| now := 200; now_again := 200; first := Some [Byte.x07];
                 buffered := [] |};
              {| now := 300; now_again := 300; first := Some [Byte.x08];
                 buffered := [Some [Byte.x09]; None; Some [Byte.x0a]] |};
              {| now := 400; now_again := 400; first := Some [Byte.x0b];
                 buffered := [] |} ] in
  exists ys s',
    generator defaults ts s = Val (ys, s') /\
    ys = [[[Byte.x02]; [Byte.x03]; [Byte.x04]; [Byte.x05]; [Byte.x06]];
          [[Byte.x07]]] /\
    _audio_input s'
    = [Some [Byte.x05]; Some [Byte.x06]; Some [Byte.x07];
       Some [Byte.x08]; Some [Byte.x09]] /\
    exists replayed,
      length ys = length (yielding defaults s ts) /\
      map Some (concat ys) = replayed ++ pulled (yielding defaults s ts) /\
      _audio_input s'
      = _audio_input s ++ pulled (yielding defaults s ts)
        ++ last_recorded defaults s
             (skipn (length (yielding defaults s ts)) ts) /\
      (yielding defaults s ts = [] -> replayed = []) /\
      (yielding defaults s ts <> [] ->
       exists sb, bridge defaults s = Val (sb, replayed)) /\
      incl replayed (_last_audio_input s) /\
      (_new_stream s = false \/ _last_audio_input s = [] -> replayed = []) /\
      Forall (fun y => y <> []) ys.
Proof.
  intros s ts.
  assert (E : exists ys s',
             generator defaults ts s = Val (ys, s') /\
             ys = [[[Byte.x02]; [Byte.x03]; [Byte.x04]; [Byte.x05];
                    [Byte.x06]]; [[Byte.x07]]] /\
             _audio_input s'
             = [Some [Byte.x05]; Some [Byte.x06]; Some [Byte.x07];
                Some [Byte.x08]; Some [Byte.x09]]).
  { do 2 eexists. split; [vm_compute; reflexivity |]. split; reflexivity. }
  destruct E as (ys & s' & E & Ey & Ea).
  exists ys, s'.
  exact (conj E (conj Ey (conj Ea
           (X7_generator_history defaults ts s s' ys E)))).
Defined.

(* ================================================================== *)
(** * The generator returns *)
(* ================================================================== *)

Lemma pieces_total (data : list chunk) :
  Forall (fun ch => ch <> None) data -> exists bs, pieces data = Val bs.
Proof.
  induction 1 as [| [b |] data Hb _ [bs IH]]; simpl.
  - exists []. reflexivity.
  - exists (b :: bs). rewrite IH. reflexivity.
  - congruence.
Qed.

Lemma bridge_total (c : config) (s : stream) :
  sizes_ok c s -> exists s1 d, bridge c s = Val (s1, d).
Proof.
  intros Hs. destruct (_new_stream s) eqn:En.
  - destruct (_last_audio_input s) as [| ch l] eqn:El.
    + exists s, []. exact (bridge_empty c s El).
    + assert (Hp : _last_audio_input s <> []) by (rewrite El; discriminate).
      pose proof (bridge_val c s Hs Hp En) as B. cbv zeta in B.
      do 2 eexists. exact B.
  - exists s, []. unfold bridge. rewrite En. reflexivity.
Qed.

Lemma generator_pass_total (c : config) (t : tick) (s : stream) :
  sizes_ok c s ->
  Forall (fun ch => ch <> None) (_last_audio_input s) ->
  exists o, generator_pass c t s = Val o.
Proof.
  intros Hs Hl. unfold generator_pass.
  destruct (_closed s); [eexists; reflexivity |].
  destruct (_ >? _); [eexists; reflexivity |].
  destruct (bridge_total c s Hs) as (s1 & d & Eb). rewrite Eb, bind_Val.
  cbv beta iota zeta.
  destruct (bridge_data c s s1 d Eb) as (Hi & _ & _).
  destruct (first t) as [b |]; [| eexists; reflexivity].
  match goal with
  | |- exists o, match drain ?i ?dd ?hh with _ => _ end = _ =>
      destruct (drain_taken i dd hh) as (taken & ended & Ed)
  end.
  rewrite Ed. destruct ended; [eexists; reflexivity |].
  destruct (pieces_total ((d ++ [Some b]) ++ map Some taken)) as [bs Ep].
  { apply Forall_app. split.
    - apply Forall_app. split.
      + rewrite Forall_forall in Hl |- *. intros x Hx. apply Hl, Hi, Hx.
      + constructor; [discriminate | constructor].
    - rewrite Forall_forall. intros x Hx. apply in_map_iff in Hx.
      destruct Hx as (y & <- & _). discriminate. }
  rewrite Ep, bind_Val. eexists. reflexivity.
Qed.

Lemma generator_total (c : config) (ts : list tick) :
  forall s,
    sizes_ok c s ->
    Forall (fun ch => ch <> None) (_last_audio_input s) ->
    exists ys s', generator c ts s = Val (ys, s').
Proof.
  induction ts as [| t ts IH]; intros s Hs Hl; simpl.
  - do 2 eexists. reflexivity.
  - destruct (generator_pass_total c t s Hs Hl) as [o Ep].
    rewrite Ep, bind_Val.
    pose proof (generator_pass_frame c t s o Ep) as A.
    destruct o as [s1 | s1 | s1 | bs s1]; try (do 2 eexists; reflexivity).
    cbn [state_of] in A.
    destruct (IH s1 (sizes_ok_same c s s1 A Hs)) as (ys & s' & Eg).
    { destruct A as (_ & _ & -> & _). exact Hl. }
    rewrite Eg, bind_Val. do 2 eexists. reflexivity.
Qed.

(** X8.  The generator returns.  Whatever the clock and the queue give, the
    passes of the generator end without an exception when the sizes are
    within [sizes_ok] and the previous history holds no end marker: the
    replay computation does not raise, and what is joined holds byte
    strings only. *)
Theorem X8_generator_returns (c : config) (ts : list tick) (s : stream) :
  sizes_ok c s ->
  Forall (fun ch => ch <> None) (_last_audio_input s) ->
  exists ys s', generator c ts s = Val (ys, s').
Proof. apply generator_total. Qed.

Lemma X8_generator_returns_witness :
  let s := set_final_request_end_time 2500
             (set_last_audio_input
                [Some [Byte.x01]; Some [Byte.x02]; Some [Byte.x03];
                 Some [Byte.x04]]
                (enter (init 0))) in
  let ts := [audio_tick 100; audio_tick 200] in
  exists ys s', generator defaults ts s = Val (ys, s').
Proof.
  intros s ts.
  apply (X8_generator_returns defaults ts s).
  - repeat split; vm_compute; discriminate.
  - repeat constructor; discriminate.
Defined.

(* ================================================================== *)
(** * A restart with nothing final since the cut *)
(* ================================================================== *)

Module WholeReplay.
Import Float64 Float64Facts Float64Bounds PyFacts.
Local Open Scope Q_scope.


Section Whole.

Variables L n : Z.
Hypothesis HL : (1 <= L <= 2 ^ 40)%Z.
Hypothesis Hn : (1 <= n <= 2 ^ 50)%Z.




End Whole.
End WholeReplay.

Lemma sizes_ok_40 (c : config) (s : stream) :
  1 <= STREAMING_LIMIT c <= 2 ^ 40 ->
  Z.of_nat (length (_last_audio_input s)) <= 2 ^ 50 ->
  _final_request_end_time s <= STREAMING_LIMIT c ->
  sizes_ok c s.
Proof.
  intros HL Hn HF.
  assert (P62 : 2 ^ 40 <= 2 ^ 62) by (apply Z.pow_le_mono_r; lia).
  unfold sizes_ok. lia.
Qed.

Lemma offset_of_bridged (v : Z) (s : stream) :
  _bridging_offset (set_new_stream false (set_bridging_offset v s)) = v.
Proof. reflexivity. Qed.

(** X9.  On a restart with a history the bridging block returns, whatever
    offset it finds: the first chunk it replays is a chunk of the history
    or its end, so that what it replays is a tail of the history, and the
    offset it leaves lies between zero and the limit plus one. *)
Theorem X9_bridge_range (c : config) (s : stream) :
  1 <= STREAMING_LIMIT c <= 2 ^ 40 ->
  Z.of_nat (length (_last_audio_input s)) <= 2 ^ 50 ->
  0 <= _final_request_end_time s <= STREAMING_LIMIT c ->
  _new_stream s = true ->
  _last_audio_input s <> [] ->
  exists s1 i,
    bridge c s = Val (s1, Spec.replayWindow i (_last_audio_input s)) /\
    0 <= i <= Z.of_nat (length (_last_audio_input s)) /\
    0 <= _bridging_offset s1 <= STREAMING_LIMIT c + 1 /\
    _new_stream s1 = false.
Proof.
  intros HL Hn HF Hnew Hp.
  pose proof (bridge_val c s (sizes_ok_40 c s HL Hn (proj2 HF)) Hp Hnew) as B.
  cbv zeta in B.
  assert (Hn1 : 1 <= Z.of_nat (length (_last_audio_input s))).
  { destruct (_last_audio_input s); [congruence | cbn [length]; lia]. }
  assert (HX : 0 <= _final_request_end_time s
                   - Spec.clamp (_bridging_offset s) 0
                       (_final_request_end_time s)
               <= STREAMING_LIMIT c)
    by (unfold Spec.clamp; lia).
  pose proof (OffsetArith.chunks_from_range _ _ _ HL (conj Hn1 Hn) HX) as C.
  pose proof (OffsetArith.next_offset_nonneg _ _ _ HL (conj Hn1 Hn) HX) as N0.
  pose proof (OffsetArith.next_offset_upper _ _ _ HL (conj Hn1 Hn) HX)
    as [N1 _].
  match type of B with
  | bridge _ _ = Val (?s1, Spec.replayWindow ?i _) => exists s1, i
  end.
  split; [exact B |]. split; [exact C |].
  rewrite offset_of_bridged. split; [exact (conj N0 N1) | reflexivity].
Qed.

Lemma X9_bridge_range_witness :
  let s := set_bridging_offset 99999
             (set_final_request_end_time 2500
                (set_last_audio_input
                   [Some [Byte.x01]; Some [Byte.x02]; Some [Byte.x03];
                    Some [Byte.x04]]
                   (enter (init 0)))) in
  exists s1 i,
    bridge defaults s
    = Val (s1, Spec.replayWindow i (_last_audio_input s)) /\
    0 <= i <= Z.of_nat (length (_last_audio_input s)) /\
    0 <= _bridging_offset s1 <= STREAMING_LIMIT defaults + 1 /\
    _new_stream s1 = false.
Proof.
  intros s.
  apply (X9_bridge_range defaults s).
  - split; vm_compute; discriminate.
  - vm_compute; discriminate.
  - split; vm_compute; discriminate.
  - reflexivity.
  - discriminate.
Defined.



(* ================================================================== *)
(** * The end time, exactly *)
(* ================================================================== *)

(** X11.  The end time in milliseconds.  For a result whose end time has
    between 0 and 4000000 seconds and between 0 and 999999999 nanoseconds,
    the float expression of the loop gives the exact integer
    [seconds * 1000 + nanos // 1000000]: the division and the sum round,
    and the truncation still lands on the right millisecond; nothing
    raises. *)
Theorem X11_end_time_exact (result : StreamingRecognitionResult) :
  0 <= seconds (result_end_time result) <= 4000000 ->
  0 <= nanos (result_end_time result) <= 999999999 ->
  in_session_end_ms result
  = Val (seconds (result_end_time result) * 1000
         + nanos (result_end_time result) / 1000000).
Proof. apply in_session_end_ms_value. Qed.

Lemma X11_end_time_exact_witness :
  let result := {| alternatives := [];
                   is_final := true;
                   result_end_time :=
                     {| seconds := 3999999; nanos := 999999999 |} |} in
  in_session_end_ms result = Val 3999999999.
Proof.
  intros result.
  apply (X11_end_time_exact result); split; vm_compute; discriminate.
Defined.

(* ================================================================== *)
(** * The result loop returns *)
(* ================================================================== *)

Lemma handle_response_total (c : config)
  (response : StreamingRecognizeResponse) (s : stream) :
  in_range response ->
  exists s' out fl, handle_response c response s = Val (s', out, fl).
Proof.
  unfold in_range. intros H.
  destruct (top response) as [[result alt] |] eqn:Et.
  - destruct H as [Hs Hn].
    rewrite (handle_response_top c _ _ _ _ s Et
               (in_session_end_ms_value result Hs Hn)).
    cbv zeta. destruct (is_final result).
    + destruct (_ <? _).
      * destruct (Regex.stop_keyword _); do 3 eexists; reflexivity.
      * do 3 eexists; reflexivity.
    + do 3 eexists; reflexivity.
  - rewrite (handle_response_skip c _ s Et). do 3 eexists; reflexivity.
Qed.

Lemma listen_print_loop_total (c : config)
  (rs : list StreamingRecognizeResponse) :
  Forall in_range rs ->
  forall s, exists s' out, listen_print_loop c rs s = Val (s', out).
Proof.
  induction 1 as [| r rest Hr _ IH]; intros s.
  - do 2 eexists; reflexivity.
  - cbn [listen_print_loop].
    destruct (handle_response_total c r s Hr) as (s1 & out1 & fl & E).
    rewrite E, bind_Val. cbv beta iota zeta.
    destruct fl; [| do 2 eexists; reflexivity].
    destruct (IH s1) as (s2 & out2 & E2). rewrite E2, bind_Val.
    do 2 eexists; reflexivity.
Qed.

(** X12.  The result loop returns.  On responses whose end times are
    durations in range the loop ends without an exception, in whatever
    state it is entered: the only operations of the loop that can raise are
    the float conversions of the end time. *)
Theorem X12_result_loop_returns (c : config)
  (rs : list StreamingRecognizeResponse) (s : stream) :
  Forall in_range rs ->
  exists s' out, listen_print_loop c rs s = Val (s', out).
Proof. intros H. apply listen_print_loop_total. exact H. Qed.

Lemma X12_result_loop_returns_witness :
  let rs := [single false 1 0 "he"; {| results := [] |};
             single true 2 500000000 "hello"] in
  exists s' out, listen_print_loop defaults rs (enter (init 0)) = Val (s', out).
Proof.
  intros rs. apply (X12_result_loop_returns defaults rs).
  repeat constructor; vm_compute; discriminate.
Defined.


(* ================================================================== *)
(** * The lines of one sub-session *)
(* ================================================================== *)

(** X13.  Within one sub-session the numbers in front of the lines, interim
    and final alike, never go back, as long as the end times the backend
    reports do not: every line carries its end time shifted by the same
    amount, since the loop changes neither the offset nor the restart
    counter. *)
Theorem X13_lines_ordered (c : config) (rs : list StreamingRecognizeResponse)
  (lo : Z) (s s' : stream) (out : list event) :
  ordered_from lo rs ->
  listen_print_loop c rs s = Val (s', out) ->
  StronglySorted Z.le (line_times out) /\
  Forall (fun g => corrected c s lo <= g) (line_times out).
Proof.
  revert lo s s' out.
  induction rs as [| r rest IH]; intros lo s s' out Ho H.
  - injection H as _ <-. split; constructor.
  - simpl in H.
    destruct (handle_response c r s) as [[[s1 out1] fl] | ex] eqn:Eh;
      [| discriminate].
    simpl in H. simpl in Ho.
    pose proof (handle_response_frame c _ _ _ _ _ Eh) as [Fr _].
    destruct (handle_response_cases c _ _ _ _ _ Eh)
      as [(Et & -> & -> & ->) | (result & alt & t & Et & Em & Hc)].
    + rewrite Et in Ho.
      destruct (listen_print_loop c rest s) as [[s2 out2] | ex] eqn:El;
        [| discriminate].
      simpl in H. injection H as _ <-. exact (IH _ _ _ _ Ho El).
    + rewrite Et in Ho. destruct Ho as (t' & Em' & Hlo & Ho).
      rewrite Em in Em'. injection Em' as <-. cbv zeta in Hc.
      assert (K : forall s2 out2,
                 listen_print_loop c rest s1 = Val (s2, out2) ->
                 StronglySorted Z.le (line_times out2) /\
                 Forall (fun g => corrected c s t <= g) (line_times out2)).
      { intros s2 out2 El. destruct (IH _ _ _ _ Ho El) as [S F].
        split; [exact S |]. eapply Forall_impl; [| exact F].
        intros g G. cbv beta in G. rewrite (corrected_same c s s1 t Fr) in G.
        exact G. }
      pose proof (corrected_mono c s lo t Hlo) as M.
      destruct Hc as [(Hf & E1 & -> & ->) | [(Hf & Hw & E1 & -> & ->)
                     | [(Hf & Hw & Hk & E1 & -> & ->)
                       | (Hf & Hw & Hk & E1 & -> & ->)]]].
      * destruct (listen_print_loop c rest s1) as [[s2 out2] | ex] eqn:El;
          [| discriminate].
        simpl in H. injection H as _ <-.
        destruct (K _ _ eq_refl) as [S F]. cbn [app line_times line_time].
        split; [constructor; assumption |].
        constructor; [exact M |].
        eapply Forall_impl; [| exact F]. intros g G. cbv beta in G. lia.
      * destruct (listen_print_loop c rest s1) as [[s2 out2] | ex] eqn:El;
          [| discriminate].
        simpl in H. injection H as _ <-.
        destruct (K _ _ eq_refl) as [S F]. cbn [app].
        split; [exact S |].
        eapply Forall_impl; [| exact F]. intros g G. cbv beta in G. lia.
      * destruct (listen_print_loop c rest s1) as [[s2 out2] | ex] eqn:El;
          [| discriminate].
        simpl in H. injection H as _ <-.
        destruct (K _ _ eq_refl) as [S F]. cbn [app line_times line_time].
        split; [constructor; assumption |].
        constructor; [exact M |].
        eapply Forall_impl; [| exact F]. intros g G. cbv beta in G. lia.
      * injection H as _ <-. cbn [line_times line_time].
        split; [repeat constructor | repeat constructor; exact M].
Qed.

Lemma X13_lines_ordered_witness :
  let rs := [single false 1 0 "he"; single false 1 700000000 "hell";
             single true 2 500000000 "hello"] in
  let s := set_restart_counter 2 (set_bridging_offset 7500 (enter (init 0))) in
  exists s' out,
    listen_print_loop defaults rs s = Val (s', out) /\
    line_times out = [13500; 14200; 15000] /\
    (StronglySorted Z.le (line_times out) /\
     Forall (fun g => corrected defaults s 1000 <= g) (line_times out)).
Proof.
  intros rs s.
  assert (Ho : ordered_from 1000 rs).
  { exists 1000. split; [vm_compute; reflexivity |]. split; [lia |].
    exists 1700. split; [vm_compute; reflexivity |]. split; [lia |].
    exists 2500. split; [vm_compute; reflexivity |]. split; [lia | exact I]. }
  assert (E : exists s' out,
             listen_print_loop defaults rs s = Val (s', out)
             /\ line_times out = [13500; 14200; 15000]).
  { do 2 eexists. split; vm_compute; reflexivity. }
  destruct E as (s' & out & E & El).
  exists s', out.
  exact (conj E (conj El (X13_lines_ordered defaults rs 1000 s s' out Ho E))).
Defined.

(* ================================================================== *)
(** * The state between sub-sessions *)
(* ================================================================== *)

(** X14.  What a run keeps true between sub-sessions.  Under the conditions
    of the ordering of the final lines, a run leaves the offset between
    zero and the limit plus one, [_final_request_end_time] and
    [_is_final_end_time] between zero and the limit, [_result_end_time] at
    zero and [_new_stream] set. *)
Theorem X14_run_invariant (c : config) (start : Z) (run : list sub_session)
  (s' : stream) (out : list event) :
  1 <= STREAMING_LIMIT c <= 2 ^ 40 ->
  0 <= WORKAROUND_WINDOW c ->
  well_timed_run c run (enter (init start)) ->
  main c start run = Val (s', out) ->
  between_sessions c s'.
Proof.
  intros HL HW Hw H.
  exact (proj1 (main_loop_ordered c run HL HW _ _ _
                  (between_sessions_init c start (proj1 HL)) Hw H)).
Qed.

Lemma X14_run_invariant_witness :
  exists s' out,
    main defaults 0 sample_run = Val (s', out) /\
    _bridging_offset s' = 7500 /\
    between_sessions defaults s'.
Proof.
  assert (HL : 1 <= STREAMING_LIMIT defaults <= 2 ^ 40)
    by (split; vm_compute; discriminate).
  assert (HW : 0 <= WORKAROUND_WINDOW defaults) by (vm_compute; discriminate).
  assert (E : exists s' out,
             main defaults 0 sample_run = Val (s', out)
             /\ _bridging_offset s' = 7500).
  { do 2 eexists. split; vm_compute; reflexivity. }
  destruct E as (s' & out & E & Eb).
  exists s', out.
  exact (conj E (conj Eb (X14_run_invariant defaults 0 sample_run s' out
                            HL HW sample_run_well_timed E))).
Defined.

(* ================================================================== *)
(** * The line break of the restart *)
(* ================================================================== *)

Lemma ends_interim_app (a b : list event) :
  b <> [] -> ends_interim (a ++ b) = ends_interim b.
Proof.
  intros Hb. induction a as [| e a IH]; [reflexivity |].
  cbn [app ends_interim]. destruct (a ++ b) as [| e' l] eqn:E.
  - apply app_eq_nil in E. destruct E as [_ E]. contradiction.
  - exact IH.
Qed.

Lemma header_after_interim_app (a b : list event) :
  header_after_interim a = false -> header_after_interim b = false ->
  ends_interim a = false ->
  header_after_interim (a ++ b) = false.
Proof.
  intros Ha Hb He. induction a as [| e a IH]; [exact Hb |].
  destruct a as [| e' a].
  - cbn [app header_after_interim]. cbn in He.
    destruct e; try exact Hb; try discriminate He.
  - cbn [app] in IH |- *. cbn [header_after_interim] in Ha |- *.
    cbn [ends_interim] in He.
    destruct e; try (apply IH; assumption).
    destruct e'; try (apply IH; assumption). discriminate Ha.
Qed.

Lemma no_request_no_header (out : list event) :
  request_times out = [] -> header_after_interim out = false.
Proof.
  induction out as [| e out IH]; [reflexivity |].
  intros H. cbn [header_after_interim].
  destruct e; cbn [request_times] in H; try discriminate H;
    try (apply IH; exact H).
  destruct out as [| e' out]; [reflexivity |].
  destruct e'; cbn [request_times] in H; try discriminate H;
    apply IH; exact H.
Qed.

(** The flag the loop leaves tells whether the last line it wrote was a
    final one. *)
Lemma listen_print_loop_flag (c : config)
  (rs : list StreamingRecognizeResponse) :
  forall s s' out,
    listen_print_loop c rs s = Val (s', out) ->
    (out = [] /\
     _last_transcript_was_final s' = _last_transcript_was_final s) \/
    (out <> [] /\
     _last_transcript_was_final s' = negb (ends_interim out)).
Proof.
  induction rs as [| r rest IH]; intros s s' out H.
  - injection H as <- <-. left. split; reflexivity.
  - simpl in H.
    destruct (handle_response c r s) as [[[s1 out1] fl] | ex] eqn:Eh;
      [| discriminate].
    simpl in H.
    assert (K : forall s2 out2,
               listen_print_loop c rest s1 = Val (s2, out2) ->
               out1 <> [] ->
               _last_transcript_was_final s1 = negb (ends_interim out1) ->
               out1 ++ out2 <> [] /\
               _last_transcript_was_final s2
               = negb (ends_interim (out1 ++ out2))).
    { intros s2 out2 El Hn Hf. split.
      - intros E. apply app_eq_nil in E. tauto.
      - destruct (IH _ _ _ El) as [[-> F] | [N F]].
        + rewrite app_nil_r, F. exact Hf.
        + rewrite (ends_interim_app _ _ N). exact F. }
    destruct (handle_response_cases c _ _ _ _ _ Eh)
      as [(Et & -> & -> & ->) | (result & alt & t & Et & Em & Hc)].
    + destruct (listen_print_loop c rest s) as [[s2 out2] | ex] eqn:El;
        [| discriminate].
      simpl in H. injection H as <- <-. exact (IH _ _ _ El).
    + cbv zeta in Hc.
      destruct Hc as [(Hf & E1 & E2 & ->) | [(Hf & Hw & E1 & E2 & ->)
                     | [(Hf & Hw & Hk & E1 & E2 & ->)
                       | (Hf & Hw & Hk & E1 & E2 & ->)]]].
      * destruct (listen_print_loop c rest s1) as [[s2 out2] | ex] eqn:El;
          [| discriminate].
        simpl in H. injection H as <- <-. right.
        apply (K _ _ eq_refl); rewrite E2; [discriminate |].
        rewrite E1. reflexivity.
      * destruct (listen_print_loop c rest s1) as [[s2 out2] | ex] eqn:El;
          [| discriminate].
        simpl in H. injection H as <- <-. rewrite E2. cbn [app].
        destruct (IH _ _ _ El) as [[-> F] | [N F]].
        -- left. split; [reflexivity |]. rewrite F, E1. reflexivity.
        -- right. split; assumption.
      * destruct (listen_print_loop c rest s1) as [[s2 out2] | ex] eqn:El;
          [| discriminate].
        simpl in H. injection H as <- <-. right.
        apply (K _ _ eq_refl); rewrite E2; [discriminate |].
        rewrite E1. reflexivity.
      * injection H as <- <-. right. rewrite E2, E1.
        split; [discriminate | reflexivity].
Qed.

Lemma session_body_interim (c : config) (i : sub_session) (s s1 : stream)
  (out1 : list event) :
  session_body c i s = Val (s1, out1) ->
  header_after_interim out1 = false /\ ends_interim out1 = false.
Proof.
  intros H.
  destruct (session_body_inv c i s s1 out1 H)
    as (ys & sg & sl & outl & Eg & El & -> & ->).
  pose proof (listen_print_loop_no_request c _ _ _ _ El) as Nl.
  pose proof (restart_no_request sl) as Nr.
  split.
  - cbn [header_after_interim]. apply no_request_no_header.
    rewrite request_times_app, Nl, Nr. reflexivity.
  - rewrite restart_out.
    change (NewRequest (STREAMING_LIMIT c * _restart_counter s)
            :: outl ++ (if _last_transcript_was_final sl then [] else [Newline]))
      with ([NewRequest (STREAMING_LIMIT c * _restart_counter s)]
            ++ (outl ++ (if _last_transcript_was_final sl then []
                         else [Newline]))).
    destruct (_last_transcript_was_final sl) eqn:Ef.
    + rewrite app_nil_r.
      destruct (listen_print_loop_flag c _ _ _ _ El) as [[-> _] | [N F]].
      * reflexivity.
      * rewrite (ends_interim_app _ _ N). rewrite Ef in F.
        destruct (ends_interim outl); [discriminate F | reflexivity].
    + rewrite app_assoc, ends_interim_app by discriminate. reflexivity.
Qed.

Lemma main_loop_interim (c : config) (run : list sub_session) :
  forall s s' out,
    main_loop c run s = Val (s', out) ->
    header_after_interim out = false.
Proof.
  induction run as [| i rest IH]; intros s s' out H.
  - injection H as _ <-. reflexivity.
  - simpl in H. destruct (_closed s).
    + injection H as _ <-. reflexivity.
    + destruct (session_body c i s) as [[s1 out1] | ex] eqn:Es;
        [| discriminate].
      rewrite bind_Val in H. cbv beta iota zeta in H.
      destruct (main_loop c rest s1) as [[s2 out2] | ex] eqn:Em;
        [| discriminate].
      rewrite bind_Val in H. injection H as _ <-.
      destruct (session_body_interim c i s s1 out1 Es) as [H1 E1].
      apply header_after_interim_app; [exact H1 | exact (IH _ _ _ Em) | exact E1].
Qed.

Lemma header_after_interim_found (pre post : list event) (g t : Z)
  (text : string) :
  header_after_interim (pre ++ InterimLine g text :: NewRequest t :: post)
  = true.
Proof.
  induction pre as [| e pre IH]; [reflexivity |].
  cbn [app header_after_interim].
  destruct e; try exact IH.
  destruct (pre ++ InterimLine g text :: NewRequest t :: post) as [| e' l];
    [exact IH |].
  destruct e'; try exact IH. reflexivity.
Qed.

(** X15.  An interim line is written with a carriage return, to be
    overwritten by the next line.  The header of a sub-session is never
    written straight after one: when the last line of a sub-session is an
    interim one, the restart writes a line break first. *)
Theorem X15_header_after_line_break (c : config) (start : Z)
  (run : list sub_session) (s' : stream) (out : list event) :
  main c start run = Val (s', out) ->
  forall pre g text t post,
    out <> pre ++ InterimLine g text :: NewRequest t :: post.
Proof.
  intros H pre g text t post E.
  pose proof (main_loop_interim c run _ _ _ H) as N.
  rewrite E, header_after_interim_found in N. discriminate N.
Qed.

Lemma X15_header_after_line_break_witness :
  let run := [ {| ticks := [audio_tick 100; audio_tick 10001];
                  responses := [single false 1 0 "he"] |};
               {| ticks := [audio_tick 10100; audio_tick 20002];
                  responses := [] |} ] in
  exists s' out,
    main defaults 0 run = Val (s', out) /\
    out = [NewRequest 0; InterimLine 1000 "he"; Newline;
           NewRequest 10000; Newline] /\
    forall pre g text t post,
      out <> pre ++ InterimLine g text :: NewRequest t :: post.
Proof.
  intros run.
  assert (E : exists s' out,
             main defaults 0 run = Val (s', out) /\
             out = [NewRequest 0; InterimLine 1000 "he"; Newline;
                    NewRequest 10000; Newline]).
  { do 2 eexists. split; vm_compute; reflexivity. }
  destruct E as (s' & out & E & Eo).
  exists s', out.
  exact (conj E (conj Eo (X15_header_after_line_break defaults 0 run s' out E))).
Defined.

(* ================================================================== *)
(** * The stop words *)
(* ================================================================== *)

Module RegexFacts.
Import Regex.

Lemma is_word_lower (c : ascii) : is_word (lower c) = is_word c.
Proof.
  destruct c as [[] [] [] [] [] [] [] []]; vm_compute; reflexivity.
Qed.

Lemma last_char_cons (before : option ascii) (c : ascii) (a : list ascii) :
  last_char before (c :: a) = last_char (Some c) a.
Proof. reflexivity. Qed.

(** What [literal] accepts: a prefix equal to the word up to case. *)
Lemma literal_spec (w : list ascii) :
  forall cs last l' rest,
    literal w cs last = Some (l', rest) <->
    exists m, cs = m ++ rest /\ map lower m = w /\ l' = last_char last m.
Proof.
  induction w as [| a w IH]; intros cs last l' rest; simpl.
  - split.
    + intros H. injection H as <- <-. exists []. repeat split.
    + intros (m & -> & Hm & ->). destruct m; [reflexivity | discriminate].
  - destruct cs as [| c cs].
    + split; [discriminate |].
      intros (m & E & Hm & _). destruct m; [discriminate Hm | discriminate E].
    + destruct (Ascii.eqb_spec (lower c) a) as [Ea | Ea].
      * rewrite IH. split.
        -- intros (m & -> & Hm & ->). exists (c :: m).
           cbn. rewrite Ea, Hm. repeat split.
        -- intros (m & E & Hm & ->). destruct m as [| c' m]; [discriminate |].
           cbn in E, Hm. injection E as <- ->. injection Hm as _ Hm.
           exists m. repeat split. exact Hm.
      * split; [discriminate |].
        intros (m & E & Hm & _). destruct m as [| c' m]; [discriminate |].
        cbn in E, Hm. injection E as <- _. injection Hm as Hc _. contradiction.
Qed.

(** The first and the last character of a text that equals, up to case, a
    non-empty word of word characters are word characters. *)
Lemma word_ends (w m : list ascii) (before : option ascii) (post : list ascii) :
  w <> [] -> forallb is_word w = true -> map lower m = w ->
  is_word_opt (hd_error (m ++ post)) = true /\
  is_word_opt (last_char before m) = true.
Proof.
  intros Hw Hf Hm. subst w.
  assert (F : forallb is_word m = true).
  { clear Hw. induction m as [| c m IH]; [reflexivity |].
    cbn in Hf |- *. rewrite is_word_lower in Hf.
    apply andb_true_iff in Hf. destruct Hf as [-> Hf]. exact (IH Hf). }
  destruct m as [| c m]; [contradiction Hw; reflexivity |].
  cbn in F. apply andb_true_iff in F. destruct F as [Fc Fm].
  split; [exact Fc |].
  rewrite last_char_cons. clear Hw Hf.
  revert c Fc. induction m as [| c' m IH]; intros c Fc; [exact Fc |].
  cbn in Fm. apply andb_true_iff in Fm. destruct Fm as [Fc' Fm].
  rewrite last_char_cons. exact (IH Fm c' Fc').
Qed.

Lemma word_here_spec (w : list ascii) (before : option ascii)
  (cs : list ascii) :
  w <> [] -> forallb is_word w = true ->
  (word_here w before cs = true <->
   exists m post,
     cs = m ++ post /\ map lower m = w /\
     is_word_opt before = false /\ is_word_opt (hd_error post) = false).
Proof.
  intros Hw Hf. unfold word_here. split.
  - intros H. apply andb_true_iff in H. destruct H as [B1 B2].
    destruct (literal w cs before) as [[l' rest] |] eqn:El; [| discriminate].
    apply literal_spec in El. destruct El as (m & -> & Hm & ->).
    destruct (word_ends w m before rest Hw Hf Hm) as [W1 W2].
    unfold boundary in B1, B2. rewrite W1 in B1. rewrite W2 in B2.
    exists m, rest. repeat split; try assumption.
    + destruct (is_word_opt before); [discriminate B1 | reflexivity].
    + destruct (is_word_opt (hd_error rest)); [discriminate B2 | reflexivity].
  - intros (m & post & -> & Hm & Hb & Hp).
    destruct (word_ends w m before post Hw Hf Hm) as [W1 W2].
    assert (El : literal w (m ++ post) before
                 = Some (last_char before m, post)).
    { apply literal_spec. exists m. repeat split. exact Hm. }
    rewrite El. unfold boundary. rewrite W1, W2, Hb, Hp. reflexivity.
Qed.

Lemma match_here_spec (before : option ascii) (cs : list ascii) :
  match_here before cs = true <->
  exists m post,
    cs = m ++ post /\
    (map lower m = exit_word \/ map lower m = quit_word) /\
    is_word_opt before = false /\ is_word_opt (hd_error post) = false.
Proof.
  unfold match_here. rewrite orb_true_iff.
  rewrite (word_here_spec exit_word before cs)
    by (try discriminate; reflexivity).
  rewrite (word_here_spec quit_word before cs)
    by (try discriminate; reflexivity).
  split.
  - intros [(m & post & E & Hm & Hb & Hp) | (m & post & E & Hm & Hb & Hp)];
      exists m, post; repeat split; auto.
  - intros (m & post & E & [Hm | Hm] & Hb & Hp); [left | right];
      exists m, post; repeat split; assumption.
Qed.

Lemma search_from_spec (cs : list ascii) :
  forall before,
    search_from before cs = true <->
    exists pre rest,
      cs = pre ++ rest /\ match_here (last_char before pre) rest = true.
Proof.
  induction cs as [| c cs IH]; intros before; simpl.
  - rewrite orb_false_r. split.
    + intros H. exists [], []. split; [reflexivity | exact H].
    + intros (pre & rest & E & H). symmetry in E.
      apply app_eq_nil in E. destruct E as [-> ->]. exact H.
  - rewrite orb_true_iff, IH. split.
    + intros [H | (pre & rest & -> & H)].
      * exists [], (c :: cs). split; [reflexivity | exact H].
      * exists (c :: pre), rest. split; [reflexivity | exact H].
    + intros (pre & rest & E & H). destruct pre as [| c' pre].
      * left. cbn in E. rewrite E. exact H.
      * right. cbn in E. injection E as <- ->.
        exists pre, rest. split; [reflexivity | exact H].
Qed.

End RegexFacts.

(** X16.  The stop test.  A transcript stops the run exactly when it holds
    "exit" or "quit", in any mix of upper and lower case, with no word
    character (letter, digit or underscore) straight before it and none
    straight after it. *)
Theorem X16_stop_keyword_spec (transcript : string) :
  Regex.stop_keyword transcript = true <->
  exists pre w post,
    list_ascii_of_string transcript = pre ++ w ++ post /\
    (map Regex.lower w = Regex.exit_word
     \/ map Regex.lower w = Regex.quit_word) /\
    Regex.is_word_opt (last_char None pre) = false /\
    Regex.is_word_opt (hd_error post) = false.
Proof.
  unfold Regex.stop_keyword. rewrite RegexFacts.search_from_spec. split.
  - intros (pre & rest & E & H). apply RegexFacts.match_here_spec in H.
    destruct H as (m & post & -> & Hm & Hb & Hp).
    exists pre, m, post. repeat split; assumption.
  - intros (pre & w & post & E & Hm & Hb & Hp).
    exists pre, (w ++ post). split; [exact E |].
    apply RegexFacts.match_here_spec. exists w, post.
    repeat split; assumption.
Qed.

(* ================================================================== *)
(** * The first sub-session *)
(* ================================================================== *)





(* ================================================================== *)
(** * A run returns *)
(* ================================================================== *)

Lemma drain_bound (items : list chunk) :
  forall data hist data' hist' ended,
    drain items data hist = (data', hist', ended) ->
    exists taken : list bytes,
      hist' = hist ++ map Some taken /\
      (length taken <= length items)%nat.
Proof.
  induction items as [| [b |] items IH]; intros data hist data' hist' ended H;
    simpl in H.
  - injection H as _ <- _. exists []. rewrite app_nil_r. split; [reflexivity |].
    cbn. lia.
  - destruct (IH _ _ _ _ _ H) as (taken & -> & Hl).
    exists (b :: taken). rewrite <- app_assoc. split; [reflexivity |].
    cbn. lia.
  - injection H as _ <- _. exists []. rewrite app_nil_r. split; [reflexivity |].
    cbn. lia.
Qed.

Lemma generator_pass_recorded (c : config) (t : tick) (s : stream)
  (o : outcome) :
  first t <> None ->
  generator_pass c t s = Val o ->
  exists extra : list bytes,
    _audio_input (state_of o) = _audio_input s ++ map Some extra /\
    (length extra <= length (first t :: buffered t))%nat.
Proof.
  intros Hf. unfold generator_pass. intros H.
  destruct (_closed s).
  { injection H as <-. exists []. cbn. rewrite app_nil_r. split; [reflexivity | lia]. }
  destruct (_ >? _).
  { injection H as <-. exists []. cbn. rewrite app_nil_r. split; [reflexivity | lia]. }
  destruct (bridge c s) as [[s1 d] |] eqn:Eb; [| discriminate].
  rewrite bind_Val in H. cbv beta iota zeta in H.
  destruct (bridge_frame c s s1 d Eb) as (_ & _ & Ea).
  destruct (first t) as [b |]; [| congruence].
  cbn [_audio_input set_audio_input] in H.
  destruct (drain _ _ _) as [[data hist] ended] eqn:Ed.
  destruct (drain_bound _ _ _ _ _ _ Ed) as (taken & -> & Hl).
  exists (b :: taken).
  assert (E : (_audio_input s1 ++ [Some b]) ++ map Some taken
              = _audio_input s ++ map Some (b :: taken)).
  { rewrite Ea, <- app_assoc. reflexivity. }
  destruct ended.
  - injection H as <-. cbn [state_of _audio_input set_audio_input].
    split; [exact E | cbn; lia].
  - destruct (pieces data) as [bs |]; [| discriminate].
    rewrite bind_Val in H. injection H as <-.
    cbn [state_of _audio_input set_audio_input].
    split; [exact E | cbn; lia].
Qed.

Lemma generator_recorded (c : config) (ts : list tick) :
  forall s ys s',
    Forall (fun t => first t <> None) ts ->
    generator c ts s = Val (ys, s') ->
    exists extra : list bytes,
      _audio_input s' = _audio_input s ++ map Some extra /\
      (length extra
       <= length (flat_map (fun t => first t :: buffered t) ts))%nat.
Proof.
  induction ts as [| t ts IH]; intros s ys s' Hf H; simpl in H.
  - injection H as _ <-. exists []. cbn. rewrite app_nil_r.
    split; [reflexivity | lia].
  - inversion Hf as [| ? ? Ht Hts]; subst.
    destruct (generator_pass c t s) as [o |] eqn:Ep; [| discriminate].
    rewrite bind_Val in H.
    destruct (generator_pass_recorded c t s o Ht Ep) as (e1 & A1 & L1).
    cbn [flat_map]. rewrite length_app.
    destruct o as [s1 | s1 | s1 | bs s1];
      try (injection H as _ <-; exists e1; split; [exact A1 | lia]).
    destruct (generator c ts s1) as [[ys1 s2] |] eqn:Eg; [| discriminate].
    rewrite bind_Val in H. injection H as _ <-.
    destruct (IH _ _ _ Hts Eg) as (e2 & A2 & L2).
    cbn [state_of] in A1. exists (e1 ++ e2).
    rewrite A2, A1, map_app, <- app_assoc, length_app.
    split; [reflexivity | lia].
Qed.

Lemma listen_print_loop_final_end (c : config)
  (rs : list StreamingRecognizeResponse) :
  forall s s' out,
    listen_print_loop c rs s = Val (s', out) ->
    _is_final_end_time s' = _is_final_end_time s \/
    _is_final_end_time s' < STREAMING_LIMIT c - WORKAROUND_WINDOW c.
Proof.
  induction rs as [| r rest IH]; intros s s' out H.
  - injection H as <- _. left. reflexivity.
  - simpl in H.
    destruct (handle_response c r s) as [[[s1 out1] fl] | ex] eqn:Eh;
      [| discriminate].
    simpl in H.
    assert (K : _is_final_end_time s1 = _is_final_end_time s \/
                _is_final_end_time s1
                < STREAMING_LIMIT c - WORKAROUND_WINDOW c).
    { destruct (handle_response_cases c _ _ _ _ _ Eh)
        as [(_ & -> & _) | (result & alt & t & _ & _ & Hc)];
        [left; reflexivity |].
      cbv zeta in Hc.
      destruct Hc as [(_ & -> & _) | [(_ & _ & -> & _)
                     | [(_ & Hw & _ & -> & _) | (_ & Hw & _ & -> & _)]]];
        [left; reflexivity | left; reflexivity | right; exact Hw
        | right; exact Hw]. }
    destruct fl.
    + destruct (listen_print_loop c rest s1) as [[s2 out2] | ex] eqn:El;
        [| discriminate].
      simpl in H. injection H as <- _.
      destruct (IH _ _ _ El) as [E | E]; [rewrite E; exact K | right; exact E].
    + injection H as <- _. exact K.
Qed.

Lemma session_body_total (c : config) (i : sub_session) (s : stream) :
  1 <= STREAMING_LIMIT c <= 2 ^ 62 ->
  0 <= WORKAROUND_WINDOW c ->
  sound c s -> calm i ->
  exists s1 out1, session_body c i s = Val (s1, out1) /\ sound c s1.
Proof.
  intros HL HW (Sn & Sl & SF & SI) (Ct & Cq & Cr).
  assert (Hsz : sizes_ok c (set_audio_input [] s)).
  { split; [exact HL |]. split; [exact Sl |].
    apply (Z.le_trans _ (STREAMING_LIMIT c)); [exact SF | exact (proj2 HL)]. }
  destruct (generator_total c (ticks i) (set_audio_input [] s) Hsz Sn)
    as (ys & sg & Eg).
  destruct (listen_print_loop_total c (responses i) Cr sg) as (sl & outl & El).
  exists (fst (restart sl)),
    (NewRequest (STREAMING_LIMIT c * _restart_counter s)
     :: outl ++ snd (restart sl)).
  split.
  - unfold session_body. cbv zeta. rewrite Eg, bind_Val. cbv beta iota zeta.
    rewrite El, bind_Val. cbv beta iota zeta.
    destruct (restart sl) as [sr outr]. reflexivity.
  - pose proof (generator_frame c _ _ _ _ Eg) as (_ & _ & _ & _ & GI & GF & _).
    destruct (generator_recorded c _ _ _ _ Ct Eg) as (extra & Ga & Gl).
    destruct (listen_print_loop_frame c _ _ _ _ El)
      as [(_ & _ & La & _ & LF & _) _].
    pose proof (listen_print_loop_final_end c _ _ _ _ El) as LI.
    destruct (restart_fields sl) as (_ & _ & R3 & R4 & _ & _ & R7 & _).
    cbn in GI, GF, Ga.
    assert (HI : _is_final_end_time sl <= STREAMING_LIMIT c).
    { destruct LI as [E | E]; [rewrite E, GI; exact SI | lia]. }
    unfold sound. rewrite R3, R4, R7, La, Ga, LF, GF.
    split.
    { rewrite Forall_forall. intros x Hx. apply in_map_iff in Hx.
      destruct Hx as (y & <- & _). discriminate. }
    split.
    { rewrite length_map. unfold queued in Cq. lia. }
    split; [destruct (_ >? _); assumption | exact HI].
Qed.

Lemma main_loop_total (c : config) (run : list sub_session) :
  1 <= STREAMING_LIMIT c <= 2 ^ 62 ->
  0 <= WORKAROUND_WINDOW c ->
  Forall calm run ->
  forall s, sound c s -> exists s' out, main_loop c run s = Val (s', out).
Proof.
  intros HL HW. induction 1 as [| i rest Hi _ IH]; intros s Hs.
  - do 2 eexists; reflexivity.
  - cbn [main_loop]. destruct (_closed s); [do 2 eexists; reflexivity |].
    destruct (session_body_total c i s HL HW Hs Hi) as (s1 & out1 & E1 & S1).
    rewrite E1, bind_Val. cbv beta iota zeta.
    destruct (IH s1 S1) as (s2 & out2 & E2). rewrite E2, bind_Val.
    do 2 eexists; reflexivity.
Qed.

(** X18.  No exception over a run.  With a limit between one millisecond
    and [2^62], a window that is not negative, and sub-sessions in which no
    blocking read finds the end marker, the queue gives at most [2^50]
    chunks and the end times are in range, the run raises no exception
    over the sub-sessions it goes through, however many they are: no
    division by zero, no index out of range, no overflow, no end marker
    joined.  Whether the loop of [main] ends is another matter: it ends
    when a stop word closes the stream. *)
Theorem X18_no_exception (c : config) (start : Z) (run : list sub_session) :
  1 <= STREAMING_LIMIT c <= 2 ^ 62 ->
  0 <= WORKAROUND_WINDOW c ->
  Forall calm run ->
  forall e, main c start run <> Raise e.
Proof.
  intros HL HW Hr e E.
  assert (Hs : sound c (enter (init start))).
  { unfold sound. cbn. repeat split; try constructor; lia. }
  destruct (main_loop_total c run HL HW Hr _ Hs) as (s' & out & H).
  unfold main in E. rewrite H in E. discriminate E.
Qed.

Lemma X18_no_exception_witness :
  main defaults 0 sample_run <> Raise ZeroDivisionError /\
  main defaults 0 sample_run <> Raise OverflowError /\
  main defaults 0 sample_run <> Raise IndexError /\
  main defaults 0 sample_run <> Raise TypeError.
Proof.
  assert (HL : 1 <= STREAMING_LIMIT defaults <= 2 ^ 62)
    by (split; vm_compute; discriminate).
  assert (HW : 0 <= WORKAROUND_WINDOW defaults) by (vm_compute; discriminate).
  assert (Hr : Forall calm sample_run)
    by (repeat constructor; try discriminate; vm_compute; discriminate).
  repeat split; apply (X18_no_exception defaults 0 sample_run HL HW Hr).
Defined.
